(** * CarbonTracker: a shallow embedding of the tracker ledger contract

    The contract lives in [contract-functions.ts] (the Solidity part,
    [contract CarbonTracker is ERC721, AccessControl, ERC1155Holder]).
    Unsigned 256-bit integers and addresses are binary naturals [N];
    [mapping]s are finite maps read with the zero default; dynamic storage
    arrays are lists; a reverting call is a [Revert] result and leaves the
    storage as it was (see [transact]). Events carry no state and are left
    out. *)

From stdpp Require Import gmap strings list fin_maps.

Local Open Scope N_scope.

(** ** Reverts *)

(** One constructor per [require] message of the contract, plus the
    failures of the inherited code. *)
Inductive error : Type :=
  | AlreadyAudited             (* notAudited: trackerId is already audited *)
  | NotAuditor                 (* _isAuditor: not an approved auditor of the trackee *)
  | NotAudited                 (* _isAudited: trackerId is not audited *)
  | NotOwner                   (* _isOwner *)
  | NotAuditorOrOwner          (* _isAuditorOrOwner *)
  | TrackerDoesNotExist        (* _trackerExists *)
  | NotRegisteredTracker       (* registeredTracker *)
  | NotIndustry                (* isIndustry, trackeeIsIndustry *)
  | NotAdmin                   (* onlyAdmin *)
  | NotSelfOrAuditor           (* selfOrAuditor *)
  | TotalTrackedExceeded       (* _verifyTotalTracked *)
  | LengthMismatch             (* ... are not the same length *)
  | InsufficientAvailable      (* _trackTokens: tokenAmounts[i] is greater than what is available *)
  | ProductNotOwnedByTracker   (* productsUpdate: productIds[i] does not belong to trackerId *)
  | NotProductAuditor          (* productsUpdate: msg.sender is not the auditor of this product *)
  | InsufficientProductBalance (* transferProduct / trackProduct: productAmount exceeds ... *)
  | SelfReferenceNotAllowed    (* trackProduct: product's trackerId can not be the same *)
  | VerifierNotAuditor         (* approveVerifier: address is not a registered emissions auditor *)
  | VerifierIsSender           (* approveVerifier: auditor cannot be msg.sender *)
  | Panic                      (* checked arithmetic, division by zero, array index out of bounds *)
  | ERC721InvalidTokenId       (* ERC721.ownerOf of a token that was never minted *)
  | ERC721MintToZeroAddress    (* ERC721._mint *)
  | ERC721AlreadyMinted        (* ERC721._mint *)
  | ERC721IncorrectOwner       (* ERC721.transferFrom *)
  | ERC721TransferToZeroAddress (* ERC721.transferFrom *)
  | AccessControlNotSelf.      (* AccessControl.renounceRole *)

Inductive result (A : Type) : Type :=
  | Ok (a : A)
  | Revert (e : error).
Arguments Ok {A} a.
Arguments Revert {A} e.

#[global] Instance result_ret : MRet result := λ A a, Ok a.
#[global] Instance result_bind : MBind result := λ A B f m,
  match m with
  | Ok a => f a
  | Revert e => Revert e
  end.

Definition require (cond : bool) (e : error) : result unit :=
  if cond then Ok tt else Revert e.

Definition succeeds {A} (r : result A) : Prop := ∃ a, r = Ok a.
Definition reverts {A} (r : result A) : Prop := ∃ e, r = Revert e.

(** ** Machine integers *)

Definition UINT256_MAX : N := Eval vm_compute in 2 ^ 256 - 1.

(** OpenZeppelin's [SafeMath] and [Counters] are imported by the contract
    and are not part of the sources. Under Solidity 0.8 every [SafeMath]
    operation is the checked operator, which reverts on overflow, underflow
    and division by zero; [Counters.increment] is an unchecked [+= 1]. *)
Module SafeMath.
Definition add (a b : N) : result N :=
  if a + b <=? UINT256_MAX then Ok (a + b) else Revert Panic.
Definition sub (a b : N) : result N :=
  if b <=? a then Ok (a - b) else Revert Panic.
Definition mul (a b : N) : result N :=
  if a * b <=? UINT256_MAX then Ok (a * b) else Revert Panic.
Definition div (a b : N) : result N :=
  if b =? 0 then Revert Panic else Ok (a / b).
End SafeMath.

Module Counters.
Definition increment (c : N) : N := (c + 1) mod (UINT256_MAX + 1).
Definition current (c : N) : N := c.
End Counters.

(** ** Mappings and storage arrays *)

(** The value an unwritten storage slot reads as. *)
Class Zero (A : Type) := zero : A.
#[global] Instance N_zero : Zero N := 0.
#[global] Instance bool_zero : Zero bool := false.
#[global] Instance string_zero : Zero string := EmptyString.

(** [m.[k]] is the Solidity read [m[k]]. *)
Definition mget `{Countable K} `{Zero V} (m : gmap K V) (k : K) : V :=
  default zero (m !! k).
Notation "m .[ k ]" := (mget m k) (at level 1, k at level 200, left associativity, format "m .[ k ]").

Definition len {A} (l : list A) : N := N.of_nat (length l).

(** [a[i]] and [a[i] = v]; an index past the end panics. *)
Definition array_get (a : list N) (i : N) : result N :=
  match a !! N.to_nat i with
  | Some v => Ok v
  | None => Revert Panic
  end.
Definition array_set (a : list N) (i v : N) : result (list N) :=
  if i <? len a then Ok (<[N.to_nat i := v]> a) else Revert Panic.
Definition push (a : list N) (v : N) : list N := a ++ [v].

(** ** Storage layout *)

Module CarbonTrackerDetails.
Record t : Type := mk {
  trackerId : N;
  trackee : N;
  auditor : N;
  totalProductAmounts : N;
  fromDate : N;
  thruDate : N;
  createdBy : N;
  dateCreated : N;
  dateUpdated : N;
  metadata : string;
  description : string
}.
Definition with_trackerId v d := mk v (trackee d) (auditor d) (totalProductAmounts d)
  (fromDate d) (thruDate d) (createdBy d) (dateCreated d) (dateUpdated d) (metadata d) (description d).
Definition with_trackee v d := mk (trackerId d) v (auditor d) (totalProductAmounts d)
  (fromDate d) (thruDate d) (createdBy d) (dateCreated d) (dateUpdated d) (metadata d) (description d).
Definition with_auditor v d := mk (trackerId d) (trackee d) v (totalProductAmounts d)
  (fromDate d) (thruDate d) (createdBy d) (dateCreated d) (dateUpdated d) (metadata d) (description d).
Definition with_totalProductAmounts v d := mk (trackerId d) (trackee d) (auditor d) v
  (fromDate d) (thruDate d) (createdBy d) (dateCreated d) (dateUpdated d) (metadata d) (description d).
Definition with_fromDate v d := mk (trackerId d) (trackee d) (auditor d) (totalProductAmounts d)
  v (thruDate d) (createdBy d) (dateCreated d) (dateUpdated d) (metadata d) (description d).
Definition with_thruDate v d := mk (trackerId d) (trackee d) (auditor d) (totalProductAmounts d)
  (fromDate d) v (createdBy d) (dateCreated d) (dateUpdated d) (metadata d) (description d).
Definition with_createdBy v d := mk (trackerId d) (trackee d) (auditor d) (totalProductAmounts d)
  (fromDate d) (thruDate d) v (dateCreated d) (dateUpdated d) (metadata d) (description d).
Definition with_dateCreated v d := mk (trackerId d) (trackee d) (auditor d) (totalProductAmounts d)
  (fromDate d) (thruDate d) (createdBy d) v (dateUpdated d) (metadata d) (description d).
Definition with_dateUpdated v d := mk (trackerId d) (trackee d) (auditor d) (totalProductAmounts d)
  (fromDate d) (thruDate d) (createdBy d) (dateCreated d) v (metadata d) (description d).
Definition with_metadata v d := mk (trackerId d) (trackee d) (auditor d) (totalProductAmounts d)
  (fromDate d) (thruDate d) (createdBy d) (dateCreated d) (dateUpdated d) v (description d).
Definition with_description v d := mk (trackerId d) (trackee d) (auditor d) (totalProductAmounts d)
  (fromDate d) (thruDate d) (createdBy d) (dateCreated d) (dateUpdated d) (metadata d) v.
End CarbonTrackerDetails.

Module ProductDetails.
Record t : Type := mk {
  trackerId : N;
  auditor : N;
  amount : N;
  available : N;
  name : string;
  unit : string;
  unitAmount : string
}.
Definition with_trackerId v p := mk v (auditor p) (amount p) (available p) (name p) (unit p) (unitAmount p).
Definition with_auditor v p := mk (trackerId p) v (amount p) (available p) (name p) (unit p) (unitAmount p).
Definition with_amount v p := mk (trackerId p) (auditor p) v (available p) (name p) (unit p) (unitAmount p).
Definition with_available v p := mk (trackerId p) (auditor p) (amount p) v (name p) (unit p) (unitAmount p).
Definition with_name v p := mk (trackerId p) (auditor p) (amount p) (available p) v (unit p) (unitAmount p).
Definition with_unit v p := mk (trackerId p) (auditor p) (amount p) (available p) (name p) v (unitAmount p).
Definition with_unitAmount v p := mk (trackerId p) (auditor p) (amount p) (available p) (name p) (unit p) v.
End ProductDetails.

Module ProductsTracked.
Record t : Type := mk {
  productIds : list N;
  productIndex : gmap N N;
  amount : gmap N N
}.
Definition with_productIds v p := mk v (productIndex p) (amount p).
Definition with_productIndex v p := mk (productIds p) v (amount p).
Definition with_amount v p := mk (productIds p) (productIndex p) v.
End ProductsTracked.

Module CarbonTrackerMappings.
Record t : Type := mk {
  tokenIds : list N;
  idIndex : gmap N N;
  amount : gmap N N;
  productIds : list N;
  productIdIndex : gmap N N;
  trackerIds : list N;
  trackerIndex : gmap N N;
  productsTracked : gmap N ProductsTracked.t
}.
Definition with_tokenIds v m := mk v (idIndex m) (amount m) (productIds m)
  (productIdIndex m) (trackerIds m) (trackerIndex m) (productsTracked m).
Definition with_idIndex v m := mk (tokenIds m) v (amount m) (productIds m)
  (productIdIndex m) (trackerIds m) (trackerIndex m) (productsTracked m).
Definition with_amount v m := mk (tokenIds m) (idIndex m) v (productIds m)
  (productIdIndex m) (trackerIds m) (trackerIndex m) (productsTracked m).
Definition with_productIds v m := mk (tokenIds m) (idIndex m) (amount m) v
  (productIdIndex m) (trackerIds m) (trackerIndex m) (productsTracked m).
Definition with_trackerIds v m := mk (tokenIds m) (idIndex m) (amount m) (productIds m)
  (productIdIndex m) v (trackerIndex m) (productsTracked m).
Definition with_trackerIndex v m := mk (tokenIds m) (idIndex m) (amount m) (productIds m)
  (productIdIndex m) (trackerIds m) v (productsTracked m).
Definition with_productsTracked v m := mk (tokenIds m) (idIndex m) (amount m) (productIds m)
  (productIdIndex m) (trackerIds m) (trackerIndex m) v.
End CarbonTrackerMappings.

#[global] Instance CarbonTrackerDetails_zero : Zero CarbonTrackerDetails.t :=
  CarbonTrackerDetails.mk 0 0 0 0 0 0 0 0 0 EmptyString EmptyString.
#[global] Instance ProductDetails_zero : Zero ProductDetails.t :=
  ProductDetails.mk 0 0 0 0 EmptyString EmptyString EmptyString.
#[global] Instance ProductsTracked_zero : Zero ProductsTracked.t :=
  ProductsTracked.mk [] ∅ ∅.
#[global] Instance CarbonTrackerMappings_zero : Zero CarbonTrackerMappings.t :=
  CarbonTrackerMappings.mk [] ∅ ∅ [] ∅ [] ∅ ∅.

(** The two roles of the inherited [AccessControl]. *)
Inductive role : Type := DEFAULT_ADMIN_ROLE | REGISTERED_TRACKER.
#[global] Instance role_eq_dec : EqDecision role.
Proof. solve_decision. Defined.

(** The contract's storage. [immutable]-like variables written only by the
    constructor ([netAddress], [decimalsEf]) are fields as well. [_owners]
    is the owner table of the inherited ERC721 and [_roles] the member table
    of the inherited AccessControl. *)
Record State : Type := mkState {
  netAddress : N;
  decimalsEf : N;
  _trackerData : gmap N CarbonTrackerDetails.t;
  _trackerMappings : gmap N CarbonTrackerMappings.t;
  _productData : gmap N ProductDetails.t;
  _numOfUniqueTrackers : N;
  _numOfProducts : N;
  lockedAmount : gmap N N;
  productBalance : gmap (N * N) N;
  isAuditorApproved : gmap (N * N) bool;
  approvedAuditorsOnly : gmap N bool;
  _owners : gmap N N;
  _roles : list (role * N)
}.

Definition with__trackerData v s := mkState (netAddress s) (decimalsEf s) v (_trackerMappings s)
  (_productData s) (_numOfUniqueTrackers s) (_numOfProducts s) (lockedAmount s) (productBalance s)
  (isAuditorApproved s) (approvedAuditorsOnly s) (_owners s) (_roles s).
Definition with__trackerMappings v s := mkState (netAddress s) (decimalsEf s) (_trackerData s) v
  (_productData s) (_numOfUniqueTrackers s) (_numOfProducts s) (lockedAmount s) (productBalance s)
  (isAuditorApproved s) (approvedAuditorsOnly s) (_owners s) (_roles s).
Definition with__productData v s := mkState (netAddress s) (decimalsEf s) (_trackerData s)
  (_trackerMappings s) v (_numOfUniqueTrackers s) (_numOfProducts s) (lockedAmount s)
  (productBalance s) (isAuditorApproved s) (approvedAuditorsOnly s) (_owners s) (_roles s).
Definition with__numOfUniqueTrackers v s := mkState (netAddress s) (decimalsEf s) (_trackerData s)
  (_trackerMappings s) (_productData s) v (_numOfProducts s) (lockedAmount s)
  (productBalance s) (isAuditorApproved s) (approvedAuditorsOnly s) (_owners s) (_roles s).
Definition with__numOfProducts v s := mkState (netAddress s) (decimalsEf s) (_trackerData s)
  (_trackerMappings s) (_productData s) (_numOfUniqueTrackers s) v (lockedAmount s)
  (productBalance s) (isAuditorApproved s) (approvedAuditorsOnly s) (_owners s) (_roles s).
Definition with_lockedAmount v s := mkState (netAddress s) (decimalsEf s) (_trackerData s)
  (_trackerMappings s) (_productData s) (_numOfUniqueTrackers s) (_numOfProducts s) v
  (productBalance s) (isAuditorApproved s) (approvedAuditorsOnly s) (_owners s) (_roles s).
Definition with_productBalance v s := mkState (netAddress s) (decimalsEf s) (_trackerData s)
  (_trackerMappings s) (_productData s) (_numOfUniqueTrackers s) (_numOfProducts s)
  (lockedAmount s) v (isAuditorApproved s) (approvedAuditorsOnly s) (_owners s) (_roles s).
Definition with_isAuditorApproved v s := mkState (netAddress s) (decimalsEf s) (_trackerData s)
  (_trackerMappings s) (_productData s) (_numOfUniqueTrackers s) (_numOfProducts s)
  (lockedAmount s) (productBalance s) v (approvedAuditorsOnly s) (_owners s) (_roles s).
Definition with__owners v s := mkState (netAddress s) (decimalsEf s) (_trackerData s)
  (_trackerMappings s) (_productData s) (_numOfUniqueTrackers s) (_numOfProducts s)
  (lockedAmount s) (productBalance s) (isAuditorApproved s) (approvedAuditorsOnly s) v (_roles s).
Definition with__roles v s := mkState (netAddress s) (decimalsEf s) (_trackerData s)
  (_trackerMappings s) (_productData s) (_numOfUniqueTrackers s) (_numOfProducts s)
  (lockedAmount s) (productBalance s) (isAuditorApproved s) (approvedAuditorsOnly s) (_owners s) v.

(** What a call sees of its transaction and of the emissions-token ledger
    ([NetEmissionsTokenNetwork], an external contract): the contract only
    reads the ledger, so each call takes the answers as functions. *)
Record Env : Type := mkEnv {
  msg_sender : N;
  block_timestamp : N;
  net_isAuditor : N → bool;
  net_isIndustry : N → bool;
  net_hasAuditorRole : N → bool;      (* hasRole(REGISTERED_EMISSIONS_AUDITOR, _) *)
  net_getAvailable : N → N;           (* getAvailableAndRetired(address(this), tokenId), first component *)
  net_getTokenTypeId : N → N
}.

(** ** Inherited contracts *)

(** Modelled from the spec: the ERC-721 base contract (not part of the
    sources) keeps one owner per minted token; [ownerOf] rejects a token that
    was never minted and [_mint] rejects the zero address and a token that
    already has an owner. *)
Definition ownerOf (s : State) (tokenId : N) : result N :=
  let owner := s.(_owners).[tokenId] in
  require (negb (owner =? 0)) ERC721InvalidTokenId;;
  Ok owner.

Definition _mint (to tokenId : N) (s : State) : result State :=
  require (negb (to =? 0)) ERC721MintToZeroAddress;;
  require (s.(_owners).[tokenId] =? 0) ERC721AlreadyMinted;;
  Ok (with__owners (<[tokenId := to]> s.(_owners)) s).

(** Modelled from the spec: the role registry of AccessControl (not part of
    the sources): an address either has or lacks a role. *)
Definition hasRole (s : State) (r : role) (account : N) : bool :=
  bool_decide ((r, account) ∈ s.(_roles)).

Definition _setupRole (r : role) (account : N) (s : State) : State :=
  if hasRole s r account then s else with__roles ((r, account) :: s.(_roles)) s.

(** ** Constructor *)

Definition constructor (_net _admin : N) : State :=
  let s := mkState _net 1000000 ∅ ∅ ∅ 0 0 ∅ ∅ ∅ ∅ ∅ [] in
  _setupRole REGISTERED_TRACKER _admin (_setupRole DEFAULT_ADMIN_ROLE _admin s).

(** ** Modifiers and internal checks *)

Definition notAudited (trackerId : N) (s : State) : result unit :=
  require (CarbonTrackerDetails.auditor s.(_trackerData).[trackerId] =? 0) AlreadyAudited.

Definition __isAuditor (env : Env) (s : State) (_trackee : N) : bool :=
  (net_isAuditor env (msg_sender env) || (msg_sender env =? netAddress s)) &&
  ((s.(approvedAuditorsOnly).[_trackee] && s.(isAuditorApproved).[(msg_sender env, _trackee)])
   || negb s.(approvedAuditorsOnly).[_trackee]).

Definition _isAuditor (env : Env) (s : State) (_trackee : N) : result unit :=
  require (__isAuditor env s _trackee) NotAuditor.

Definition isAuditor (env : Env) (trackerId : N) (s : State) : result unit :=
  _isAuditor env s (CarbonTrackerDetails.trackee s.(_trackerData).[trackerId]).

Definition _isAudited (s : State) (trackerId : N) : result unit :=
  require (negb (CarbonTrackerDetails.auditor s.(_trackerData).[trackerId] =? 0)) NotAudited.

Definition _isOwner (s : State) (trackerId owner : N) : result unit :=
  o ← ownerOf s trackerId;
  require (o =? owner) NotOwner.

(** [__isAuditor(_address) || super.ownerOf(trackerId) == _address]: the
    owner is looked up only when the first disjunct is false. *)
Definition _isAuditorOrOwner (env : Env) (s : State) (trackerId _address : N) : result unit :=
  if __isAuditor env s _address then Ok tt
  else o ← ownerOf s trackerId; require (o =? _address) NotAuditorOrOwner.

Definition _trackerExists (s : State) (trackeID : N) : result unit :=
  require (trackeID <=? Counters.current s.(_numOfUniqueTrackers)) TrackerDoesNotExist.

Definition registeredTracker (s : State) (trackee : N) : result unit :=
  require (hasRole s REGISTERED_TRACKER trackee) NotRegisteredTracker.

Definition trackeeIsIndustry (env : Env) (s : State) (trackerId : N) : result unit :=
  require (net_isIndustry env (CarbonTrackerDetails.trackee s.(_trackerData).[trackerId])) NotIndustry.

Definition selfOrAuditor (env : Env) (_address : N) : result unit :=
  require ((_address =? msg_sender env) || net_hasAuditorRole env (msg_sender env)) NotSelfOrAuditor.

Definition _verifyTotalTracked (outAmount totalTracked : N) : result unit :=
  require (totalTracked <=? outAmount) TotalTrackedExceeded.

(** Writes through the storage reference [_trackerData[key]]. *)
Definition update_trackerData (key : N) (f : CarbonTrackerDetails.t → CarbonTrackerDetails.t)
    (s : State) : State :=
  with__trackerData (<[key := f s.(_trackerData).[key]]> s.(_trackerData)) s.

Definition update_productData (key : N) (f : ProductDetails.t → ProductDetails.t)
    (s : State) : State :=
  with__productData (<[key := f s.(_productData).[key]]> s.(_productData)) s.

Definition update_trackerMappings (key : N) (f : CarbonTrackerMappings.t → CarbonTrackerMappings.t)
    (s : State) : State :=
  with__trackerMappings (<[key := f s.(_trackerMappings).[key]]> s.(_trackerMappings)) s.

(** ** Token locking *)

Definition _addTokenAmounts (tokenData : CarbonTrackerMappings.t)
    (tokenId amountAdd index tokenTypeId : N) : result CarbonTrackerMappings.t :=
  tokenData ←
    (if tokenTypeId =? 4 then
       a ← SafeMath.add (CarbonTrackerMappings.amount tokenData).[tokenId] amountAdd;
       Ok (CarbonTrackerMappings.with_amount
             (<[tokenId := a]> (CarbonTrackerMappings.amount tokenData)) tokenData)
     else if tokenTypeId =? 2 then
       a ← SafeMath.sub (CarbonTrackerMappings.amount tokenData).[tokenId] amountAdd;
       Ok (CarbonTrackerMappings.with_amount
             (<[tokenId := a]> (CarbonTrackerMappings.amount tokenData)) tokenData)
     else Ok tokenData);
  if 0 <? (CarbonTrackerMappings.amount tokenData).[tokenId] then
    if index =? 0 then
      let ids := push (CarbonTrackerMappings.tokenIds tokenData) tokenId in
      Ok (CarbonTrackerMappings.with_idIndex
            (<[tokenId := len ids]> (CarbonTrackerMappings.idIndex tokenData))
            (CarbonTrackerMappings.with_tokenIds ids tokenData))
    else Ok tokenData
  else Ok tokenData.

(** The body of the [for] loop of [_trackTokens]; [mkey] is the key of the
    storage reference [trackerMappings]. The loop runs over [tokenIds];
    reading [tokenAmounts[i]] past its end panics. *)
Fixpoint _trackTokens_loop (env : Env) (mkey : N) (tokenIds tokenAmounts : list N)
    (s : State) : result State :=
  match tokenIds, tokenAmounts with
  | [], _ => Ok s
  | _ :: _, [] => Revert Panic
  | tokenId :: tokenIds, amount :: tokenAmounts =>
      let avail := net_getAvailable env tokenId in
      (if msg_sender env =? netAddress s then Ok tt
       else d ← SafeMath.sub avail s.(lockedAmount).[tokenId];
            require (amount <=? d) InsufficientAvailable);;
      locked ← SafeMath.add s.(lockedAmount).[tokenId] amount;
      let s := with_lockedAmount (<[tokenId := locked]> s.(lockedAmount)) s in
      let index := (CarbonTrackerMappings.idIndex s.(_trackerMappings).[mkey]).[tokenId] in
      let tokenTypeId := net_getTokenTypeId env tokenId in
      m ← _addTokenAmounts s.(_trackerMappings).[mkey] tokenId amount index tokenTypeId;
      let s := with__trackerMappings (<[mkey := m]> s.(_trackerMappings)) s in
      _trackTokens_loop env mkey tokenIds tokenAmounts s
  end.

(** [trackerData] is the key of the storage reference passed by the caller;
    the modifier [trackeeIsIndustry] is applied to its [trackerId] field. *)
Definition _trackTokens (env : Env) (trackerData : N) (tokenIds tokenAmounts : list N)
    (s : State) : result State :=
  let td := s.(_trackerData).[trackerData] in
  trackeeIsIndustry env s (CarbonTrackerDetails.trackerId td);;
  _isAuditor env s (CarbonTrackerDetails.trackee td);;
  require (len tokenAmounts =? len tokenIds) LengthMismatch;;
  _trackTokens_loop env (CarbonTrackerDetails.trackerId td) tokenIds tokenAmounts s.

(** ** Tracker lifecycle *)

Definition _track (env : Env) (trackee : N) (s : State) : State * N :=
  let s := with__numOfUniqueTrackers (Counters.increment s.(_numOfUniqueTrackers)) s in
  let trackerId := Counters.current s.(_numOfUniqueTrackers) in
  let s := update_trackerData trackerId (CarbonTrackerDetails.with_trackerId trackerId) s in
  let s := update_trackerData trackerId (CarbonTrackerDetails.with_createdBy (msg_sender env)) s in
  let s := update_trackerData trackerId (CarbonTrackerDetails.with_trackee trackee) s in
  let s := update_trackerData trackerId (CarbonTrackerDetails.with_dateCreated (block_timestamp env)) s in
  (s, trackerId).

(** The four optional fields shared by [track] and [trackUpdate]. *)
Definition set_dates_and_text (key fromDate thruDate : N) (description metadata : string)
    (s : State) : State :=
  let s := if 0 <? fromDate
           then update_trackerData key (CarbonTrackerDetails.with_fromDate fromDate) s else s in
  let s := if 0 <? thruDate
           then update_trackerData key (CarbonTrackerDetails.with_thruDate thruDate) s else s in
  let s := if (0 <? String.length description)%nat
           then update_trackerData key (CarbonTrackerDetails.with_description description) s else s in
  let s := if (0 <? String.length metadata)%nat
           then update_trackerData key (CarbonTrackerDetails.with_metadata metadata) s else s in
  s.

Definition track (env : Env) (issuedTo trackee : N) (tokenIds tokenAmounts : list N)
    (fromDate thruDate : N) (description metadata : string) (s : State) : result State :=
  let '(s, trackerData) := _track env trackee s in
  s ← _mint issuedTo (CarbonTrackerDetails.trackerId s.(_trackerData).[trackerData]) s;
  let s := set_dates_and_text trackerData fromDate thruDate description metadata s in
  if 0 <? len tokenIds then _trackTokens env trackerData tokenIds tokenAmounts s
  else Ok s.

Definition trackUpdate (env : Env) (trackerId : N) (tokenIds tokenAmounts : list N)
    (fromDate thruDate : N) (description metadata : string) (s : State) : result State :=
  notAudited trackerId s;;
  _trackerExists s trackerId;;
  let s := update_trackerData trackerId (CarbonTrackerDetails.with_dateUpdated (block_timestamp env)) s in
  let s := set_dates_and_text trackerId fromDate thruDate description metadata s in
  _trackTokens env trackerId tokenIds tokenAmounts s.

Definition audit (env : Env) (trackerId : N) (s : State) : result State :=
  notAudited trackerId s;;
  isAuditor env trackerId s;;
  Ok (update_trackerData trackerId (CarbonTrackerDetails.with_auditor (msg_sender env)) s).

Definition removeAudit (env : Env) (trackerId : N) (s : State) : result State :=
  isAuditor env trackerId s;;
  Ok (update_trackerData trackerId (CarbonTrackerDetails.with_auditor 0) s).

Definition registerTracker (env : Env) (tracker : N) (s : State) : result State :=
  selfOrAuditor env tracker;;
  Ok (_setupRole REGISTERED_TRACKER tracker s).

Definition approveVerifier (env : Env) (verifier : N) (approve : bool) (s : State) : result State :=
  registeredTracker s (msg_sender env);;
  require (net_isAuditor env verifier || negb approve) VerifierNotAuditor;;
  require (negb (verifier =? msg_sender env)) VerifierIsSender;;
  Ok (with_isAuditorApproved (<[(verifier, msg_sender env) := approve]> s.(isAuditorApproved)) s).

(** ** Products *)

(** The body of the [for] loop of [productsUpdate]. The loop runs over
    [productIds]; the four parallel arrays were checked to have its length,
    and reading one of them past its end would panic. *)
Fixpoint productsUpdate_loop (env : Env) (trackerId : N) (productIds productAmounts : list N)
    (productNames productUnits productUnitAmounts : list string) (s : State) : result State :=
  match productIds, productAmounts, productNames, productUnits, productUnitAmounts with
  | [], _, _, _, _ => Ok s
  | id :: productIds, amount :: productAmounts, name :: productNames,
    unit :: productUnits, unitAmount :: productUnitAmounts =>
      '(productId, s) ←
        (if 0 <? id then
           require (ProductDetails.trackerId s.(_productData).[id] =? trackerId)
             ProductNotOwnedByTracker;;
           total ← SafeMath.sub
             (CarbonTrackerDetails.totalProductAmounts s.(_trackerData).[trackerId]) amount;
           let s := update_trackerData trackerId
                      (CarbonTrackerDetails.with_totalProductAmounts total) s in
           require (ProductDetails.auditor s.(_productData).[id] =? msg_sender env)
             NotProductAuditor;;
           Ok (id, s)
         else
           let s := with__numOfProducts (Counters.increment s.(_numOfProducts)) s in
           let productId := Counters.current s.(_numOfProducts) in
           let s := update_productData productId (ProductDetails.with_trackerId trackerId) s in
           let s := update_productData productId (ProductDetails.with_auditor (msg_sender env)) s in
           let s := update_trackerMappings trackerId
                      (λ m, CarbonTrackerMappings.with_productIds
                              (push (CarbonTrackerMappings.productIds m) productId) m) s in
           Ok (productId, s));
      let s := update_productData productId (ProductDetails.with_name name) s in
      let s := update_productData productId (ProductDetails.with_unitAmount unitAmount) s in
      let s := update_productData productId (ProductDetails.with_unit unit) s in
      let s := update_productData productId (ProductDetails.with_amount amount) s in
      let s := update_productData productId (ProductDetails.with_available amount) s in
      total ← SafeMath.add
        (CarbonTrackerDetails.totalProductAmounts s.(_trackerData).[trackerId]) amount;
      let s := update_trackerData trackerId
                 (CarbonTrackerDetails.with_totalProductAmounts total) s in
      productsUpdate_loop env trackerId productIds productAmounts
        productNames productUnits productUnitAmounts s
  | _, _, _, _, _ => Revert Panic
  end.

Definition productsUpdate (env : Env) (trackerId : N) (productIds productAmounts : list N)
    (productNames productUnits productUnitAmounts : list string) (s : State) : result State :=
  notAudited trackerId s;;
  _trackerExists s trackerId;;
  isAuditor env trackerId s;;
  require (len productAmounts =? len productIds) LengthMismatch;;
  require (len productNames =? len productIds) LengthMismatch;;
  require (len productUnitAmounts =? len productIds) LengthMismatch;;
  require (len productUnits =? len productIds) LengthMismatch;;
  productsUpdate_loop env trackerId productIds productAmounts
    productNames productUnits productUnitAmounts s.

(** The part of [transferProduct] that follows the computation of
    [available]: the balance check and the three updates. *)
Definition transferProduct_amounts (env : Env) (productId productAmount trackee available : N)
    (s : State) : result State :=
  total ← SafeMath.add s.(productBalance).[(productId, msg_sender env)] available;
  require (productAmount <? total) InsufficientProductBalance;;
  '(residualAmount, s) ←
    (if 0 <? available then
       if available <? productAmount then
         Ok (productAmount - available,
             update_productData productId (ProductDetails.with_available 0) s)
       else
         a ← SafeMath.sub (ProductDetails.available s.(_productData).[productId]) productAmount;
         Ok (0, update_productData productId (ProductDetails.with_available a) s)
     else Ok (productAmount, s));
  s ← (if 0 <? residualAmount then
         b ← SafeMath.sub s.(productBalance).[(productId, msg_sender env)] residualAmount;
         Ok (with_productBalance (<[(productId, msg_sender env) := b]> s.(productBalance)) s)
       else Ok s);
  b ← SafeMath.add s.(productBalance).[(productId, trackee)] productAmount;
  Ok (with_productBalance (<[(productId, trackee) := b]> s.(productBalance)) s).

Definition transferProduct (env : Env) (productId productAmount trackee : N)
    (s : State) : result State :=
  let product := s.(_productData).[productId] in
  owner ← ownerOf s (ProductDetails.trackerId product);
  available ←
    (if msg_sender env =? owner then
       _isAudited s (ProductDetails.trackerId product);;
       Ok (ProductDetails.available product)
     else Ok 0);
  transferProduct_amounts env productId productAmount trackee available s.

(** ** Lineage *)

(** Swap-with-last on a storage array and its index map, as written in
    [_updateTrackedProducts]: when the array has more than one element the
    last one is copied over the slot [index - 1] and re-indexed; then the
    index of [id] is deleted and the last slot is [delete]d, which in
    Solidity writes zero into the slot and keeps the length. *)
Definition drop_from_array (ids : list N) (idx : gmap N N) (id index : N)
    : result (list N * gmap N N) :=
  '(ids, idx) ←
    (if 1 <? len ids then
       lastPos ← SafeMath.sub (len ids) 1;
       last ← array_get ids lastPos;
       ids ← array_set ids (index - 1) last;
       moved ← array_get ids (index - 1);
       Ok (ids, <[moved := index]> idx)
     else Ok (ids, idx));
  let idx := delete id idx in
  lastPos ← SafeMath.sub (len ids) 1;
  ids ← array_set ids lastPos 0;
  Ok (ids, idx).

(** First half of [_updateTrackedProducts]: the amount tracked for
    [productId] and the product set of one source tracker.
    [productsTracked] is the record behind the storage reference. *)
Definition track_product_amount (productsTracked : ProductsTracked.t)
    (productId productAmount : N) : result ProductsTracked.t :=
  a ← SafeMath.add (ProductsTracked.amount productsTracked).[productId] productAmount;
  let productsTracked :=
    ProductsTracked.with_amount (<[productId := a]> (ProductsTracked.amount productsTracked))
      productsTracked in
  let productIndex := (ProductsTracked.productIndex productsTracked).[productId] in
  if 0 <? (ProductsTracked.amount productsTracked).[productId] then
    if productIndex =? 0 then
      let ids := push (ProductsTracked.productIds productsTracked) productId in
      Ok (ProductsTracked.with_productIndex
            (<[productId := len ids]> (ProductsTracked.productIndex productsTracked))
            (ProductsTracked.with_productIds ids productsTracked))
    else Ok productsTracked
  else
    productsTracked ←
      (if 0 <? productIndex then
         '(ids, idx) ← drop_from_array (ProductsTracked.productIds productsTracked)
                         (ProductsTracked.productIndex productsTracked) productId productIndex;
         Ok (ProductsTracked.with_productIndex idx
               (ProductsTracked.with_productIds ids productsTracked))
       else Ok productsTracked);
    Ok (ProductsTracked.with_amount
          (delete productId (ProductsTracked.amount productsTracked)) productsTracked).

(** Second half: the set of source trackers; [trackerIndex] was read before
    the first half ran. The last line is
    [delete trackerMappings.productsTracked[sourceTrackerId]]: it empties the
    array member of the record and leaves its two mapping members alone. *)
Definition track_source_tracker (trackerMappings : CarbonTrackerMappings.t)
    (sourceTrackerId trackerIndex : N) : result CarbonTrackerMappings.t :=
  let productsTracked := (CarbonTrackerMappings.productsTracked trackerMappings).[sourceTrackerId] in
  if 0 <? len (ProductsTracked.productIds productsTracked) then
    if trackerIndex =? 0 then
      let ids := push (CarbonTrackerMappings.trackerIds trackerMappings) sourceTrackerId in
      Ok (CarbonTrackerMappings.with_trackerIndex
            (<[sourceTrackerId := len ids]> (CarbonTrackerMappings.trackerIndex trackerMappings))
            (CarbonTrackerMappings.with_trackerIds ids trackerMappings))
    else Ok trackerMappings
  else
    trackerMappings ←
      (if 0 <? trackerIndex then
         '(ids, idx) ← drop_from_array (CarbonTrackerMappings.trackerIds trackerMappings)
                         (CarbonTrackerMappings.trackerIndex trackerMappings)
                         sourceTrackerId trackerIndex;
         Ok (CarbonTrackerMappings.with_trackerIndex idx
               (CarbonTrackerMappings.with_trackerIds ids trackerMappings))
       else Ok trackerMappings);
    Ok (CarbonTrackerMappings.with_productsTracked
          (<[sourceTrackerId := ProductsTracked.with_productIds [] productsTracked]>
             (CarbonTrackerMappings.productsTracked trackerMappings)) trackerMappings).

Definition _updateTrackedProducts (trackerId sourceTrackerId productId productAmount : N)
    (s : State) : result State :=
  let trackerMappings := s.(_trackerMappings).[trackerId] in
  let trackerIndex := (CarbonTrackerMappings.trackerIndex trackerMappings).[sourceTrackerId] in
  productsTracked ←
    track_product_amount (CarbonTrackerMappings.productsTracked trackerMappings).[sourceTrackerId]
      productId productAmount;
  let trackerMappings :=
    CarbonTrackerMappings.with_productsTracked
      (<[sourceTrackerId := productsTracked]>
         (CarbonTrackerMappings.productsTracked trackerMappings)) trackerMappings in
  trackerMappings ← track_source_tracker trackerMappings sourceTrackerId trackerIndex;
  Ok (with__trackerMappings (<[trackerId := trackerMappings]> s.(_trackerMappings)) s).

Definition trackProduct (env : Env) (trackerId sourceTrackerId productId productAmount : N)
    (s : State) : result State :=
  notAudited trackerId s;;
  _trackerExists s trackerId;;
  _isAuditorOrOwner env s trackerId (msg_sender env);;
  require (negb (trackerId =? ProductDetails.trackerId s.(_productData).[productId]))
    SelfReferenceNotAllowed;;
  require (productAmount <? s.(productBalance).[(productId, msg_sender env)])
    InsufficientProductBalance;;
  b ← SafeMath.sub s.(productBalance).[(productId, msg_sender env)] productAmount;
  let s := with_productBalance (<[(productId, msg_sender env) := b]> s.(productBalance)) s in
  _updateTrackedProducts trackerId sourceTrackerId productId productAmount s.

(** ** Views *)

(** A view either returns (or reverts), or the recursion between
    [emissionsFactor] and [getTotalEmissions] has used up its fuel: the
    contract has no cycle guard, and on a cyclic lineage the real call runs
    until the gas is gone. *)
Inductive view (A : Type) : Type :=
  | Returns (r : result A)
  | OutOfFuel.
Arguments Returns {A} r.
Arguments OutOfFuel {A}.

#[global] Instance view_ret : MRet view := λ A a, Returns (Ok a).
#[global] Instance view_bind : MBind view := λ A B f m,
  match m with
  | Returns (Ok a) => f a
  | Returns (Revert e) => Returns (Revert e)
  | OutOfFuel => OutOfFuel
  end.

Section Views.
Variable s : State.

(** [emissionsFactor], given what the call to [getTotalEmissions] answers. *)
Definition emissionsFactor_with (getTotalEmissions : N → view N) (trackerId : N) : view N :=
  let trackerData := s.(_trackerData).[trackerId] in
  if 0 <? CarbonTrackerDetails.totalProductAmounts trackerData then
    e ← getTotalEmissions trackerId;
    Returns (x ← SafeMath.mul e (decimalsEf s);
             SafeMath.div x (CarbonTrackerDetails.totalProductAmounts trackerData))
  else Returns (Ok 0).

(** First loop of [_getTotalEmissions]: the per-token amounts. *)
Fixpoint sum_token_amounts (amount : gmap N N) (tokenIds : list N) (totalEmissions : N)
    : result N :=
  match tokenIds with
  | [] => Ok totalEmissions
  | tokenId :: tokenIds =>
      t ← SafeMath.add totalEmissions amount.[tokenId];
      sum_token_amounts amount tokenIds t
  end.

(** Inner loop over the products tracked from one source tracker. *)
Fixpoint sum_tracked_products (emissionsFactor : N → view N) (sourceTrackerId : N)
    (amount : gmap N N) (productIds : list N) (totalEmissions : N) : view N :=
  match productIds with
  | [] => Returns (Ok totalEmissions)
  | productId :: productIds =>
      let productAmount := amount.[productId] in
      ef ← emissionsFactor sourceTrackerId;
      t ← Returns (x ← SafeMath.mul productAmount ef;
                   y ← SafeMath.div x (decimalsEf s);
                   SafeMath.add totalEmissions y);
      sum_tracked_products emissionsFactor sourceTrackerId amount productIds t
  end.

(** Outer loop over the source trackers. *)
Fixpoint sum_tracked_trackers (emissionsFactor : N → view N)
    (trackerMappings : CarbonTrackerMappings.t) (trackerIds : list N) (totalEmissions : N)
    : view N :=
  match trackerIds with
  | [] => Returns (Ok totalEmissions)
  | sourceTrackerId :: trackerIds =>
      let productsTracked :=
        (CarbonTrackerMappings.productsTracked trackerMappings).[sourceTrackerId] in
      t ← sum_tracked_products emissionsFactor sourceTrackerId
            (ProductsTracked.amount productsTracked)
            (ProductsTracked.productIds productsTracked) totalEmissions;
      sum_tracked_trackers emissionsFactor trackerMappings trackerIds t
  end.

Definition _getTotalEmissions (emissionsFactor : N → view N)
    (trackerMappings : CarbonTrackerMappings.t) : view N :=
  t ← Returns (sum_token_amounts (CarbonTrackerMappings.amount trackerMappings)
                 (CarbonTrackerMappings.tokenIds trackerMappings) 0);
  sum_tracked_trackers emissionsFactor trackerMappings
    (CarbonTrackerMappings.trackerIds trackerMappings) t.

(** One unit of fuel per nested call of [getTotalEmissions]. *)
Fixpoint getTotalEmissions (fuel : nat) (trackerId : N) : view N :=
  match fuel with
  | O => OutOfFuel
  | S fuel =>
      _getTotalEmissions (emissionsFactor_with (getTotalEmissions fuel))
        s.(_trackerMappings).[trackerId]
  end.

Definition emissionsFactor (fuel : nat) (trackerId : N) : view N :=
  emissionsFactor_with (getTotalEmissions fuel) trackerId.

Definition getProductBalance (productId owner : N) : result N :=
  o ← ownerOf s (ProductDetails.trackerId s.(_productData).[productId]);
  if owner =? o then
    SafeMath.add s.(productBalance).[(productId, owner)]
      (ProductDetails.available s.(_productData).[productId])
  else Ok s.(productBalance).[(productId, owner)].

Definition getNumOfUniqueTrackers : N := Counters.current s.(_numOfUniqueTrackers).
Definition getNumOfProducts : N := Counters.current s.(_numOfProducts).
Definition getTrackerIds (trackerId : N) : list N :=
  CarbonTrackerMappings.trackerIds s.(_trackerMappings).[trackerId].
Definition getTokenIds (trackerId : N) : list N :=
  CarbonTrackerMappings.tokenIds s.(_trackerMappings).[trackerId].
End Views.

(** ** Transactions *)

(** Modelled from the spec: the tracker token is transferable by the owning
    ERC-721 layer (not part of the sources). Approvals are not tracked: any
    existing token may move to any non-zero address, which over-approximates
    the states the contract can reach. *)
Definition transferFrom (from to tokenId : N) (s : State) : result State :=
  owner ← ownerOf s tokenId;
  require (owner =? from) ERC721IncorrectOwner;;
  require (negb (to =? 0)) ERC721TransferToZeroAddress;;
  Ok (with__owners (<[tokenId := to]> s.(_owners)) s).

(** Modelled from the spec: role administration of AccessControl (not part
    of the sources); both roles are administered by [DEFAULT_ADMIN_ROLE]. *)
Definition grantRole (env : Env) (r : role) (account : N) (s : State) : result State :=
  require (hasRole s DEFAULT_ADMIN_ROLE (msg_sender env)) NotAdmin;;
  Ok (_setupRole r account s).

Definition revokeRole (env : Env) (r : role) (account : N) (s : State) : result State :=
  require (hasRole s DEFAULT_ADMIN_ROLE (msg_sender env)) NotAdmin;;
  Ok (with__roles (filter (λ x, x ≠ (r, account)) s.(_roles)) s).

Definition renounceRole (env : Env) (r : role) (account : N) (s : State) : result State :=
  require (account =? msg_sender env) AccessControlNotSelf;;
  Ok (with__roles (filter (λ x, x ≠ (r, account)) s.(_roles)) s).

Inductive call : Type :=
  | Track (issuedTo trackee : N) (tokenIds tokenAmounts : list N) (fromDate thruDate : N)
      (description metadata : string)
  | TrackUpdate (trackerId : N) (tokenIds tokenAmounts : list N) (fromDate thruDate : N)
      (description metadata : string)
  | ProductsUpdate (trackerId : N) (productIds productAmounts : list N)
      (productNames productUnits productUnitAmounts : list string)
  | TransferProduct (productId productAmount trackee : N)
  | TrackProduct (trackerId sourceTrackerId productId productAmount : N)
  | Audit (trackerId : N)
  | RemoveAudit (trackerId : N)
  | RegisterTracker (tracker : N)
  | ApproveVerifier (verifier : N) (approve : bool)
  | TransferFrom (from to tokenId : N)
  | GrantRole (r : role) (account : N)
  | RevokeRole (r : role) (account : N)
  | RenounceRole (r : role) (account : N).

Definition run (env : Env) (c : call) (s : State) : result State :=
  match c with
  | Track issuedTo trackee tokenIds tokenAmounts fromDate thruDate description metadata =>
      track env issuedTo trackee tokenIds tokenAmounts fromDate thruDate description metadata s
  | TrackUpdate trackerId tokenIds tokenAmounts fromDate thruDate description metadata =>
      trackUpdate env trackerId tokenIds tokenAmounts fromDate thruDate description metadata s
  | ProductsUpdate trackerId productIds productAmounts productNames productUnits productUnitAmounts =>
      productsUpdate env trackerId productIds productAmounts
        productNames productUnits productUnitAmounts s
  | TransferProduct productId productAmount trackee =>
      transferProduct env productId productAmount trackee s
  | TrackProduct trackerId sourceTrackerId productId productAmount =>
      trackProduct env trackerId sourceTrackerId productId productAmount s
  | Audit trackerId => audit env trackerId s
  | RemoveAudit trackerId => removeAudit env trackerId s
  | RegisterTracker tracker => registerTracker env tracker s
  | ApproveVerifier verifier approve => approveVerifier env verifier approve s
  | TransferFrom from to tokenId => transferFrom from to tokenId s
  | GrantRole r account => grantRole env r account s
  | RevokeRole r account => revokeRole env r account s
  | RenounceRole r account => renounceRole env r account s
  end.

(** A transaction either commits the storage its call computed or, on a
    revert, leaves the storage as it was. *)
Inductive outcome : Type :=
  | Success
  | Failed (e : error).

Definition transact (env : Env) (c : call) (s : State) : State * outcome :=
  match run env c s with
  | Ok s' => (s', Success)
  | Revert e => (s, Failed e)
  end.

(** The storages the deployed contract can be in. *)
Inductive reachable : State → Prop :=
  | reachable_constructor _net _admin : reachable (constructor _net _admin)
  | reachable_call env c s s' : reachable s → run env c s = Ok s' → reachable s'.

(** Runs a list of transactions, each with its own environment. *)
Fixpoint transact_all (txs : list (Env * call)) (s : State) : State :=
  match txs with
  | [] => s
  | (env, c) :: txs => transact_all txs (transact env c s).1
  end.


(** * A worked ledger

    One auditor (address 10), one industry trackee (20), the emissions
    ledger at address 99; token 1 is an emissions token (type 4), token 2 an
    offset (type 2), any other token is inert (type 3); the contract holds
    1000 of every token. *)
Module Example.
Definition auditor : N := 10.
Definition industry : N := 20.
Definition owner : N := 30.
Definition customer : N := 31.

Definition env (sender : N) : Env :=
  mkEnv sender 1000 (λ a, a =? auditor) (λ a, a =? industry) (λ a, a =? auditor)
    (λ _, 1000) (λ tokenId, if tokenId =? 1 then 4 else if tokenId =? 2 then 2 else 3).

Definition deployed : State := constructor 99 1.

Definition blank : string := EmptyString.

(** Tracker 1, owned by [owner], with 100 of the emissions token. *)
Definition with_tracker : State :=
  transact_all [(env auditor, Track owner industry [1] [100] 0 0 blank blank)] deployed.

(** ... and one product of weight 50. *)
Definition with_product : State :=
  transact_all [(env auditor, ProductsUpdate 1 [0] [50] [blank] [blank] [blank])] with_tracker.

(** ... audited by the auditor. *)
Definition audited : State :=
  transact_all [(env auditor, Audit 1)] with_product.

(** ... 40 of the product handed to the customer, who opens tracker 2. *)
Definition handed_over : State :=
  transact_all [(env owner, TransferProduct 1 40 customer);
                (env customer, Track customer industry [] [] 0 0 blank blank)] audited.

(** ... and the customer attributes 20 of it to tracker 2, as coming from
    tracker 1. *)
Definition tracked : State :=
  transact_all [(env customer, TrackProduct 2 1 1 20)] handed_over.

End Example.

(** * Quantities the properties speak about *)

(** The amount of [productId] recorded in the lineage of [trackerId] under
    [sourceTrackerId]. *)
Definition trackedAmount (s : State) (trackerId sourceTrackerId productId : N) : N :=
  (ProductsTracked.amount
     (CarbonTrackerMappings.productsTracked
        (_trackerMappings s).[trackerId]).[sourceTrackerId]).[productId].


(** The sum of [amount] over the products of a tracker. *)
Definition ownedProductAmounts (s : State) (trackerId : N) : N :=
  foldr (λ productId sum, ProductDetails.amount (_productData s).[productId] + sum) 0
    (CarbonTrackerMappings.productIds (_trackerMappings s).[trackerId]).

(** The total submitted for [tokenId] in one call: the sum of
    [tokenAmounts[i]] over the positions [i] with [tokenIds[i] = tokenId]. *)
Fixpoint submitted (tokenId : N) (tokenIds tokenAmounts : list N) : N :=
  match tokenIds, tokenAmounts with
  | id :: tokenIds, amount :: tokenAmounts =>
      (if id =? tokenId then amount else 0) + submitted tokenId tokenIds tokenAmounts
  | _, _ => 0
  end.

(** The token arrays of the two calls that reach [_trackTokens]. *)
Definition tokens_of (c : call) : option (list N * list N) :=
  match c with
  | Track _ _ tokenIds tokenAmounts _ _ _ _ => Some (tokenIds, tokenAmounts)
  | TrackUpdate _ tokenIds tokenAmounts _ _ _ _ => Some (tokenIds, tokenAmounts)
  | _ => None
  end.

(** [v'] answers whatever [v] answers: [v] may only have run out of fuel
    where [v'] has not. *)
Definition answers_more {A} (v v' : view A) : Prop := ∀ r, v = Returns r → v' = Returns r.

(** * Preconditions other than the audit state *)


(** The amounts of the products a call creates: the sum of
    [productAmounts[i]] over the positions with [productIds[i] = 0]. *)
Fixpoint newProductAmounts (productIds productAmounts : list N) : N :=
  match productIds, productAmounts with
  | id :: productIds, amount :: productAmounts =>
      (if id =? 0 then amount else 0) + newProductAmounts productIds productAmounts
  | _, _ => 0
  end.

(** The ids [productsUpdate] gives to the products it creates, from the
    product counter [n] on: one per position with [productIds[i] = 0]. *)
Fixpoint created (n : N) (productIds : list N) : list N :=
  match productIds with
  | [] => []
  | id :: productIds =>
      if 0 <? id then created n productIds
      else Counters.increment n :: created (Counters.increment n) productIds
  end.




(** * Invariants of the storage *)

(** The lineage part of a tracker's mappings. *)
Definition lineage_of (m : CarbonTrackerMappings.t) : list N * gmap N N * gmap N ProductsTracked.t :=
  (CarbonTrackerMappings.trackerIds m, CarbonTrackerMappings.trackerIndex m,
   CarbonTrackerMappings.productsTracked m).

(** What every call but [track] and [trackProduct] leaves alone. *)
Definition keeps_shape (s s' : State) : Prop :=
  decimalsEf s' = decimalsEf s ∧
  _numOfUniqueTrackers s' = _numOfUniqueTrackers s ∧
  (∀ k, CarbonTrackerDetails.trackerId (_trackerData s').[k]
        = CarbonTrackerDetails.trackerId (_trackerData s).[k]) ∧
  (∀ k, CarbonTrackerDetails.trackee (_trackerData s').[k]
        = CarbonTrackerDetails.trackee (_trackerData s).[k]) ∧
  (∀ k, lineage_of (_trackerMappings s').[k] = lineage_of (_trackerMappings s).[k]) ∧
  approvedAuditorsOnly s' = approvedAuditorsOnly s.

(** An array and its 1-based index map form a set: every element of the
    array is indexed by its position plus one, and every indexed id sits at
    the position its index gives (index 0 means absent). *)
Definition indexed (ids : list N) (index : gmap N N) : Prop :=
  (∀ (i : nat) x, ids !! i = Some x → index.[x] = N.of_nat (S i)) ∧
  (∀ x, 0 < index.[x] → ids !! N.to_nat (index.[x] - 1) = Some x).

(** The product set tracked from one source tracker: an indexed set holding
    exactly the products with a non-zero tracked amount. *)
Definition products_ok (productsTracked : ProductsTracked.t) : Prop :=
  indexed (ProductsTracked.productIds productsTracked)
    (ProductsTracked.productIndex productsTracked) ∧
  (∀ productId, 0 < (ProductsTracked.productIndex productsTracked).[productId]
                ↔ 0 < (ProductsTracked.amount productsTracked).[productId]).

(** The two-level lineage of a tracker: the source trackers form an indexed
    set holding exactly the sources whose product set is not empty. *)
Definition lineage_ok (m : CarbonTrackerMappings.t) : Prop :=
  indexed (CarbonTrackerMappings.trackerIds m) (CarbonTrackerMappings.trackerIndex m) ∧
  (∀ sourceTrackerId, products_ok (CarbonTrackerMappings.productsTracked m).[sourceTrackerId]) ∧
  (∀ sourceTrackerId,
     0 < (CarbonTrackerMappings.trackerIndex m).[sourceTrackerId]
     ↔ ProductsTracked.productIds (CarbonTrackerMappings.productsTracked m).[sourceTrackerId] ≠ []).

(** The invariant of the deployed contract. *)
Definition state_ok (s : State) : Prop :=
  decimalsEf s = 1000000 ∧
  _numOfUniqueTrackers s ≤ UINT256_MAX ∧
  (∀ k, k ≤ _numOfUniqueTrackers s →
        CarbonTrackerDetails.trackerId (_trackerData s).[k] = k) ∧
  (∀ k, lineage_ok (_trackerMappings s).[k]) ∧
  approvedAuditorsOnly s = ∅.

(** * Further quantities *)

(** The tracker a call names: the one it creates for [track], its first
    argument for the calls that take a tracker id. *)
Definition tracker_of (c : call) (s : State) : option N :=
  match c with
  | Track _ _ _ _ _ _ _ _ => Some (Counters.increment (_numOfUniqueTrackers s))
  | TrackUpdate trackerId _ _ _ _ _ _ => Some trackerId
  | ProductsUpdate trackerId _ _ _ _ _ => Some trackerId
  | TrackProduct trackerId _ _ _ => Some trackerId
  | Audit trackerId => Some trackerId
  | RemoveAudit trackerId => Some trackerId
  | _ => None
  end.

(** The storage variables a call can leave changed: [s'] is [s] with new
    values for the variables listed for the call, and nothing else. *)
Definition writes_only (c : call) (s s' : State) : Prop :=
  match c with
  | Track _ _ _ _ _ _ _ _ =>
      s' = with_lockedAmount (lockedAmount s')
             (with__trackerMappings (_trackerMappings s')
                (with__owners (_owners s')
                   (with__trackerData (_trackerData s')
                      (with__numOfUniqueTrackers (_numOfUniqueTrackers s') s))))
  | TrackUpdate _ _ _ _ _ _ _ =>
      s' = with_lockedAmount (lockedAmount s')
             (with__trackerMappings (_trackerMappings s')
                (with__trackerData (_trackerData s') s))
  | ProductsUpdate _ _ _ _ _ _ =>
      s' = with__numOfProducts (_numOfProducts s')
             (with__productData (_productData s')
                (with__trackerMappings (_trackerMappings s')
                   (with__trackerData (_trackerData s') s)))
  | TransferProduct _ _ _ =>
      s' = with_productBalance (productBalance s') (with__productData (_productData s') s)
  | TrackProduct _ _ _ _ =>
      s' = with__trackerMappings (_trackerMappings s')
             (with_productBalance (productBalance s') s)
  | Audit _ | RemoveAudit _ => s' = with__trackerData (_trackerData s') s
  | ApproveVerifier _ _ => s' = with_isAuditorApproved (isAuditorApproved s') s
  | TransferFrom _ _ _ => s' = with__owners (_owners s') s
  | RegisterTracker _ | GrantRole _ _ | RevokeRole _ _ | RenounceRole _ _ =>
      s' = with__roles (_roles s') s
  end.

(** The token part and the product list of a tracker's mappings. *)
Definition tokens_of_mappings (m : CarbonTrackerMappings.t) : list N * gmap N N * gmap N N :=
  (CarbonTrackerMappings.tokenIds m, CarbonTrackerMappings.idIndex m,
   CarbonTrackerMappings.amount m).

Definition products_of_mappings (m : CarbonTrackerMappings.t) : list N * gmap N N :=
  (CarbonTrackerMappings.productIds m, CarbonTrackerMappings.productIdIndex m).

(** * Further views *)

Section MoreViews.
Variable s : State.

(** [getTrackerDetails] calls [_getTotalEmissions] itself; the fuel is that
    of the nested calls of [getTotalEmissions]. *)
Definition getTrackerDetails (fuel : nat) (trackerId : N)
    : view (CarbonTrackerDetails.t * N * list N) :=
  let trackerData := (_trackerData s).[trackerId] in
  let trackerMappings := (_trackerMappings s).[trackerId] in
  let productIds := CarbonTrackerMappings.productIds trackerMappings in
  totalEmissions ← _getTotalEmissions s (emissionsFactor s fuel) trackerMappings;
  Returns (Ok (trackerData, totalEmissions, productIds)).

Definition getProductDetails (productId : N) : N * N * N :=
  let product := (_productData s).[productId] in
  (ProductDetails.trackerId product, ProductDetails.amount product,
   ProductDetails.available product).

(** The loop fills [tokenAmounts[i]] with [amount[tokenIds[i]]]. *)
Definition getTrackerTokenDetails (trackerId : N) : list N * list N :=
  let trackerMappings := (_trackerMappings s).[trackerId] in
  let tokenIds := CarbonTrackerMappings.tokenIds trackerMappings in
  (tokenIds, map (λ tokenId, (CarbonTrackerMappings.amount trackerMappings).[tokenId]) tokenIds).

Definition getTokenAmounts (trackerId : N) : list N * list N :=
  let trackerMappings := (_trackerMappings s).[trackerId] in
  let tokenIds := CarbonTrackerMappings.tokenIds trackerMappings in
  (tokenIds, map (λ tokenId, (CarbonTrackerMappings.amount trackerMappings).[tokenId]) tokenIds).
End MoreViews.

(** * Further invariants *)

(** The pool of a product is within its amount. *)
Definition pools_ok (s : State) : Prop :=
  ∀ productId,
    ProductDetails.available (_productData s).[productId]
    ≤ ProductDetails.amount (_productData s).[productId].

(** Every created tracker has an owner. *)
Definition owners_ok (s : State) : Prop :=
  ∀ k, 0 < k ≤ _numOfUniqueTrackers s → (_owners s).[k] ≠ 0.

(** The tokens of a tracker form an indexed set that holds every token with
    a recorded amount. *)
Definition tokens_ok (m : CarbonTrackerMappings.t) : Prop :=
  indexed (CarbonTrackerMappings.tokenIds m) (CarbonTrackerMappings.idIndex m) ∧
  ∀ tokenId, 0 < (CarbonTrackerMappings.amount m).[tokenId] →
             0 < (CarbonTrackerMappings.idIndex m).[tokenId].

(** The sum of a list of amounts, unbounded. *)
Definition total_of (amounts : list N) : N := foldr N.add 0 amounts.

(** A tracker whose emissions do not fit the fixed-point scale: the ledger
    contract itself creates tracker 1 with 2^255 of the emissions token (the
    availability check is not made for it), and the auditor registers a
    product of weight 50. *)
Module Heavy.
Definition with_product : State :=
  transact_all
    [(Example.env 99,
      Track Example.owner Example.industry [1] [2 ^ 255] 0 0 Example.blank Example.blank);
     (Example.env Example.auditor,
      ProductsUpdate 1 [0] [50] [Example.blank] [Example.blank] [Example.blank])]
    Example.deployed.
End Heavy.

(** Two lineage records that no call produces: under tracker 2, source
    tracker 1 with the products 7, 6 and 5 and source tracker 3 with the
    product 5 alone; product 5 is indexed in both and has no tracked
    amount. *)
Module Removal.
End Removal.

(** A view call that returns no value: it reverts or uses up its gas. *)
Definition never_answers {A} (v : view A) : Prop := ∀ a, v ≠ Returns (Ok a).

(** A tracker that names itself as the source of a product: from
    [Example.handed_over], the auditor registers a product of weight 10 for
    tracker 2 and the customer tracks 20 of product 1 into tracker 2 with
    tracker 2 as the source tracker. *)
Module SelfSource.
Definition tracked : State :=
  transact_all
    [(Example.env Example.auditor,
      ProductsUpdate 2 [0] [10] [Example.blank] [Example.blank] [Example.blank]);
     (Example.env Example.customer, TrackProduct 2 2 1 20)] Example.handed_over.
End SelfSource.

(** The amounts a call submits for the tokens of one type: the sum of
    [tokenAmounts[i]] over the positions whose token has type
    [tokenTypeId]. *)
Fixpoint submitted_of_type (env : Env) (tokenTypeId : N) (tokenIds tokenAmounts : list N) : N :=
  match tokenIds, tokenAmounts with
  | id :: tokenIds, amount :: tokenAmounts =>
      (if net_getTokenTypeId env id =? tokenTypeId then amount else 0)
      + submitted_of_type env tokenTypeId tokenIds tokenAmounts
  | _, _ => 0
  end.

(** The sum of the recorded amounts over the token list of a tracker's
    mappings. *)
Definition tokenTotal (m : CarbonTrackerMappings.t) : N :=
  total_of (map (λ tokenId, (CarbonTrackerMappings.amount m).[tokenId])
              (CarbonTrackerMappings.tokenIds m)).

(** The call [c] with other token arrays. *)
Definition with_tokens (c : call) (tokenIds tokenAmounts : list N) : call :=
  match c with
  | Track issuedTo trackee _ _ fromDate thruDate description metadata =>
      Track issuedTo trackee tokenIds tokenAmounts fromDate thruDate description metadata
  | TrackUpdate trackerId _ _ fromDate thruDate description metadata =>
      TrackUpdate trackerId tokenIds tokenAmounts fromDate thruDate description metadata
  | _ => c
  end.

(** The two checks [_trackTokens] makes on the trackee before its loop.
    [trackUpdate] makes them whatever the arrays are; [track] makes them only
    when it is given tokens, so for [track] they are stated apart. *)
Definition token_checks (env : Env) (c : call) (s : State) : Prop :=
  match c with
  | Track _ trackee _ _ _ _ _ _ =>
      net_isIndustry env trackee = true ∧ __isAuditor env s trackee = true
  | _ => True
  end.

(** The lock on [tokenId] when the loop of [_trackTokens] reaches position
    [i]: the lock before the call plus what the earlier pairs submitted for
    the token. *)
Definition running_lock (s : State) (tokenIds tokenAmounts : list N) (i : nat) (tokenId : N) : N :=
  (lockedAmount s).[tokenId] + submitted tokenId (take i tokenIds) (take i tokenAmounts).

(** * Proof automation *)

(** Inverts a successful monadic computation held in a hypothesis: every
    step of a sequence that ended in [Ok] returned [Ok] itself. *)
Ltac inv_ok H :=
  repeat lazymatch type of H with
  | (?m ≫= ?f) = ?r =>
      let x := fresh "x" in let Hx := fresh "Hx" in
      destruct m as [x|?] eqn:Hx;
      [change (f x = r) in H; cbv beta in H | discriminate H]
  | (match ?p with pair _ _ => _ end) = Ok _ =>
      let a := fresh "a" in let b := fresh "s" in destruct p as [a b]
  end.

Ltac inv_oks :=
  repeat match goal with
  | H : (_ ≫= _) = Ok _ |- _ => inv_ok H
  end.

(** Proves that a storage variable kept its value, from the equations
    between the intermediate storages of a call. *)
Ltac same_field :=
  cbn;
  lazymatch goal with
  | |- ?p _ = _ =>
      repeat match goal with
      | H : @eq State _ _ |- _ => apply (f_equal p) in H; cbn in H
      end
  end;
  congruence.

(** * Basic facts *)

Section Mappings.
Context `{Countable K} `{Zero V}.
Implicit Types (m : gmap K V) (k : K) (v : V).

Lemma mget_empty k : (∅ : gmap K V).[k] = zero.
Proof. unfold mget. by rewrite lookup_empty. Qed.

Lemma mget_insert_eq m k v : (<[k := v]> m).[k] = v.
Proof. unfold mget. by rewrite lookup_insert_eq. Qed.

Lemma mget_insert_ne m k k' v : k ≠ k' → (<[k := v]> m).[k'] = m.[k'].
Proof. intros. unfold mget. by rewrite lookup_insert_ne. Qed.

Lemma mget_insert m k k' v :
  (<[k := v]> m).[k'] = if decide (k = k') then v else m.[k'].
Proof.
  case_decide; subst; [apply mget_insert_eq | by apply mget_insert_ne].
Qed.

Lemma mget_delete_eq m k : (delete k m).[k] = zero.
Proof. unfold mget. by rewrite lookup_delete_eq. Qed.

Lemma mget_delete_ne m k k' : k ≠ k' → (delete k m).[k'] = m.[k'].
Proof. intros. unfold mget. by rewrite lookup_delete_ne. Qed.
End Mappings.

Lemma bind_Ok {A B} (m : result A) (f : A → result B) (b : B) :
  m ≫= f = Ok b ↔ ∃ a, m = Ok a ∧ f a = Ok b.
Proof.
  destruct m as [a|e]; simpl; split.
  - eauto.
  - by intros (a' & [= ->] & ?).
  - done.
  - by intros (? & ? & ?).
Qed.

Lemma require_Ok cond e u : require cond e = Ok u ↔ cond = true.
Proof. destruct cond, u; simpl; split; congruence. Qed.

Lemma require_Revert cond e e' : require cond e = Revert e' ↔ cond = false ∧ e' = e.
Proof.
  destruct cond; simpl; split;
    [done | by intros [? _] | by intros [= <-] | by intros [_ ->]].
Qed.

Lemma not_succeeds_reverts {A} (r : result A) : reverts r ↔ ¬ succeeds r.
Proof.
  destruct r; split.
  - by intros [? ?].
  - intros []. by eexists.
  - by intros _ [? ?].
  - by eexists.
Qed.

Lemma add_Ok a b c : SafeMath.add a b = Ok c ↔ c = a + b ∧ a + b ≤ UINT256_MAX.
Proof.
  unfold SafeMath.add. destruct (N.leb_spec (a + b) UINT256_MAX); split.
  - by intros [= <-].
  - by intros [-> _].
  - done.
  - intros [_ ?]. lia.
Qed.

Lemma sub_Ok a b c : SafeMath.sub a b = Ok c ↔ c = a - b ∧ b ≤ a.
Proof.
  unfold SafeMath.sub. destruct (N.leb_spec b a); split.
  - by intros [= <-].
  - by intros [-> _].
  - done.
  - intros [_ ?]. lia.
Qed.

Lemma add_Revert a b e : SafeMath.add a b = Revert e ↔ e = Panic ∧ UINT256_MAX < a + b.
Proof.
  unfold SafeMath.add. destruct (N.leb_spec (a + b) UINT256_MAX); split.
  - done.
  - intros [_ ?]. lia.
  - by intros [= <-].
  - by intros [-> _].
Qed.

Lemma sub_Revert a b e : SafeMath.sub a b = Revert e ↔ e = Panic ∧ a < b.
Proof.
  unfold SafeMath.sub. destruct (N.leb_spec b a); split.
  - done.
  - intros [_ ?]. lia.
  - by intros [= <-].
  - by intros [-> _].
Qed.

Lemma ownerOf_Ok s tokenId o : ownerOf s tokenId = Ok o ↔ o = (_owners s).[tokenId] ∧ o ≠ 0.
Proof.
  unfold ownerOf. destruct (N.eqb_spec (_owners s).[tokenId] 0) as [Hz|Hz]; simpl; split.
  - done.
  - intros [-> ?]. done.
  - intros [= <-]. done.
  - by intros [-> _].
Qed.

Lemma len_nil_iff {A} (l : list A) : len l = 0 ↔ l = [].
Proof. destruct l; unfold len; simpl; split; (done || lia). Qed.

Lemma reachable_transact env c s : reachable s → reachable (transact env c s).1.
Proof.
  intros Hs. unfold transact. destruct (run env c s) eqn:Hrun; simpl; [|done].
  by eapply reachable_call.
Qed.

Lemma reachable_transact_all txs s : reachable s → reachable (transact_all txs s).
Proof.
  revert s. induction txs as [|[env c] txs IH]; intros s Hs; simpl; [done|].
  by apply IH, reachable_transact.
Qed.

Lemma reachable_deployed : reachable Example.deployed.
Proof. constructor. Qed.

Lemma reachable_with_tracker : reachable Example.with_tracker.
Proof. apply reachable_transact_all, reachable_deployed. Qed.

Lemma reachable_with_product : reachable Example.with_product.
Proof. apply reachable_transact_all, reachable_with_tracker. Qed.

Lemma reachable_audited : reachable Example.audited.
Proof. apply reachable_transact_all, reachable_with_product. Qed.

Lemma reachable_handed_over : reachable Example.handed_over.
Proof. apply reachable_transact_all, reachable_audited. Qed.


(** * Storage references *)

Lemma update_trackerData_get key f s k :
  (_trackerData (update_trackerData key f s)).[k]
  = if decide (key = k) then f (_trackerData s).[key] else (_trackerData s).[k].
Proof. unfold update_trackerData. simpl. apply mget_insert. Qed.

Lemma update_trackerData_twice key f g s :
  update_trackerData key f (update_trackerData key g s) = update_trackerData key (f ∘ g) s.
Proof.
  unfold update_trackerData. simpl. rewrite mget_insert_eq.
  unfold with__trackerData. simpl. by rewrite insert_insert_eq.
Qed.

Lemma update_productData_get key f s k :
  (_productData (update_productData key f s)).[k]
  = if decide (key = k) then f (_productData s).[key] else (_productData s).[k].
Proof. unfold update_productData. simpl. apply mget_insert. Qed.

Lemma update_trackerMappings_get key f s k :
  (_trackerMappings (update_trackerMappings key f s)).[k]
  = if decide (key = k) then f (_trackerMappings s).[key] else (_trackerMappings s).[k].
Proof. unfold update_trackerMappings. simpl. apply mget_insert. Qed.

Lemma set_dates_and_text_frame key fromDate thruDate description metadata s :
  let s' := set_dates_and_text key fromDate thruDate description metadata s in
  s' = with__trackerData (_trackerData s') s.
Proof.
  unfold set_dates_and_text. cbv zeta. destruct s.
  destruct (0 <? fromDate), (0 <? thruDate), (0 <? String.length description)%nat,
    (0 <? String.length metadata)%nat; reflexivity.
Qed.

(** The checks of [__isAuditor] read three storage variables only. *)
Lemma __isAuditor_frame env s s' _trackee :
  netAddress s' = netAddress s →
  approvedAuditorsOnly s' = approvedAuditorsOnly s →
  isAuditorApproved s' = isAuditorApproved s →
  __isAuditor env s' _trackee = __isAuditor env s _trackee.
Proof. unfold __isAuditor. by intros -> -> ->. Qed.

(** * The length check of [_trackTokens] *)

Lemma _trackTokens_length_mismatch env trackerData tokenIds tokenAmounts s :
  len tokenIds ≠ len tokenAmounts →
  reverts (_trackTokens env trackerData tokenIds tokenAmounts s).
Proof.
  intros Hlen. unfold _trackTokens, trackeeIsIndustry, _isAuditor.
  destruct (net_isIndustry _ _); simpl; [|by eexists].
  destruct (__isAuditor _ _ _); simpl; [|by eexists].
  destruct (N.eqb_spec (len tokenAmounts) (len tokenIds)); simpl; [congruence|by eexists].
Qed.

(** * Amounts recorded by [_updateTrackedProducts] *)

Lemma track_product_amount_amount productsTracked productId productAmount productsTracked' :
  track_product_amount productsTracked productId productAmount = Ok productsTracked' →
  (ProductsTracked.amount productsTracked').[productId]
  = (ProductsTracked.amount productsTracked).[productId] + productAmount.
Proof.
  unfold track_product_amount. intros H. inv_ok H.
  apply add_Ok in Hx as [-> Hle]. cbn in H. rewrite mget_insert_eq in H.
  destruct (N.ltb_spec 0 ((ProductsTracked.amount productsTracked).[productId] + productAmount))
    as [Hpos|Hzero].
  - destruct (_ =? 0); injection H as <-; cbn; by rewrite mget_insert_eq.
  - inv_ok H. injection H as <-. cbn. rewrite mget_delete_eq.
    change (@zero N _) with 0. lia.
Qed.

Lemma track_source_tracker_amount trackerMappings sourceTrackerId trackerIndex trackerMappings' src :
  track_source_tracker trackerMappings sourceTrackerId trackerIndex = Ok trackerMappings' →
  ProductsTracked.amount (CarbonTrackerMappings.productsTracked trackerMappings').[src]
  = ProductsTracked.amount (CarbonTrackerMappings.productsTracked trackerMappings).[src].
Proof.
  unfold track_source_tracker. intros H.
  destruct (0 <? len _).
  - destruct (_ =? 0); by injection H as <-.
  - inv_ok H. injection H as <-. cbn.
    assert (CarbonTrackerMappings.productsTracked x
            = CarbonTrackerMappings.productsTracked trackerMappings) as ->.
    { destruct (0 <? trackerIndex); [|by injection Hx as <-].
      inv_ok Hx. by injection Hx as <-. }
    rewrite mget_insert. by case_decide; subst.
Qed.

Lemma _updateTrackedProducts_frame trackerId sourceTrackerId productId productAmount s s' :
  _updateTrackedProducts trackerId sourceTrackerId productId productAmount s = Ok s' →
  s' = with__trackerMappings (_trackerMappings s') s.
Proof.
  unfold _updateTrackedProducts. intros H. inv_ok H. by injection H as <-.
Qed.

Lemma _updateTrackedProducts_amount trackerId sourceTrackerId productId productAmount s s' :
  _updateTrackedProducts trackerId sourceTrackerId productId productAmount s = Ok s' →
  trackedAmount s' trackerId sourceTrackerId productId
  = trackedAmount s trackerId sourceTrackerId productId + productAmount.
Proof.
  unfold _updateTrackedProducts, trackedAmount. intros H. inv_ok H.
  injection H as <-. simpl. rewrite mget_insert_eq.
  rewrite (track_source_tracker_amount _ _ _ _ _ Hx0). cbn. rewrite mget_insert_eq.
  by apply track_product_amount_amount.
Qed.

(** * The amounts moved by [transferProduct] *)

Lemma transferProduct_amounts_spec env productId productAmount trackee available s :
  let caller := msg_sender env in
  let product := (_productData s).[productId] in
  let balance := (productBalance s).[(productId, caller)] in
  let call := transferProduct_amounts env productId productAmount trackee available s in
  productAmount ≤ UINT256_MAX →
  available = 0 ∨ available = ProductDetails.available product →
  (call = Revert InsufficientProductBalance ↔ available + balance ≤ productAmount) ∧
  (∀ s', call = Ok s' →
     let drawn := N.min productAmount available in
     let residual := productAmount - drawn in
     ProductDetails.available (_productData s').[productId]
       = ProductDetails.available product - drawn ∧
     (productBalance s').[(productId, trackee)]
       = (if decide (trackee = caller) then balance - residual
          else (productBalance s).[(productId, trackee)]) + productAmount ∧
     (trackee ≠ caller → (productBalance s').[(productId, caller)] = balance - residual)).
Proof.
  intros caller product balance call Hamt Hav. unfold call, transferProduct_amounts.
  fold caller balance.
  destruct (SafeMath.add balance available) as [total|e] eqn:Hadd; simpl.
  2:{ apply add_Revert in Hadd as [-> Hover].
      split; [|intros s' Hs'; discriminate Hs']. split; [intros Hs'; discriminate Hs'|]. lia. }
  apply add_Ok in Hadd as [-> Hfit].
  destruct (N.ltb_spec productAmount (balance + available)) as [Henough|Hshort]; simpl.
  2:{ split; [|intros s' Hs'; discriminate Hs']. split; [lia|done]. }
  assert (∀ r : result State, r ≠ Revert InsufficientProductBalance →
            (r = Revert InsufficientProductBalance ↔ available + balance ≤ productAmount))
    as Hnot by (intros r Hr; split; [done|lia]).
  assert (∀ x y : N, x = y → (productId, x) = (productId, y)) as Hpair by (by intros ?? ->).
  assert (∀ x y : N, (productId, x) = (productId, y) → x = y) as Hpair' by (by intros ?? [=]).
  destruct (N.ltb_spec 0 available) as [Hpos|Hzero].
  - assert (available = ProductDetails.available product) as Hav' by (destruct Hav; lia).
    destruct (N.ltb_spec available productAmount) as [Hmore|Hless]; simpl.
    + cbn. rewrite (proj2 (N.ltb_lt 0 (productAmount - available))) by lia. simpl.
      fold caller balance.
      destruct (SafeMath.sub balance (productAmount - available)) as [b|e] eqn:Hsub; simpl.
      2:{ apply sub_Revert in Hsub as [-> ?]. lia. }
      apply sub_Ok in Hsub as [-> _]. rewrite mget_insert.
      match goal with |- context [SafeMath.add ?x ?y] =>
        destruct (SafeMath.add x y) as [b|e] eqn:Hadd; simpl end.
      2:{ apply add_Revert in Hadd as [-> _]. split; [by apply Hnot|]. by intros s' Hs'. }
      apply add_Ok in Hadd as [-> _]. split; [by apply Hnot|].
      intros s' [= <-]. cbn. rewrite !mget_insert_eq. cbn. fold product.
      split; [lia|]. split.
      * destruct (decide (trackee = caller)) as [Heq|Hne];
          [rewrite ?decide_True by (by rewrite Heq)
          |rewrite ?decide_False by (intros [=]; congruence)];
          try (rewrite Heq; fold balance); lia.
      * intros Hne. rewrite mget_insert_ne, mget_insert_eq by (intros [=]; congruence). lia.
    + fold product. 
      destruct (SafeMath.sub (ProductDetails.available product) productAmount) as [b|e] eqn:Hsub; simpl.
      2:{ apply sub_Revert in Hsub as [-> ?]. lia. }
      apply sub_Ok in Hsub as [-> _]. fold caller.
      match goal with |- context [SafeMath.add ?x ?y] =>
        destruct (SafeMath.add x y) as [b|e] eqn:Hadd; simpl end.
      2:{ apply add_Revert in Hadd as [-> _]. split; [by apply Hnot|]. by intros s' Hs'. }
      apply add_Ok in Hadd as [-> _]. split; [by apply Hnot|].
      intros s' [= <-]. cbn. rewrite !mget_insert_eq. cbn. fold product balance.
      split; [lia|]. split.
      * destruct (decide (trackee = caller)) as [Heq|Hne];
          [rewrite ?decide_True by (by rewrite Heq)
          |rewrite ?decide_False by (intros [=]; congruence)];
          try (rewrite Heq; fold balance); lia.
      * intros Hne. rewrite mget_insert_ne by (intros [=]; congruence). fold balance. lia.
  - assert (available = 0) as -> by lia. simpl.
    destruct (N.ltb_spec 0 productAmount) as [Hp|Hp]; simpl; fold caller balance.
    + destruct (SafeMath.sub balance productAmount) as [b|e] eqn:Hsub; simpl.
      2:{ apply sub_Revert in Hsub as [-> ?]. lia. }
      apply sub_Ok in Hsub as [-> _]. rewrite mget_insert.
      match goal with |- context [SafeMath.add ?x ?y] =>
        destruct (SafeMath.add x y) as [b|e] eqn:Hadd; simpl end.
      2:{ apply add_Revert in Hadd as [-> _]. split; [by apply Hnot|]. by intros s' Hs'. }
      apply add_Ok in Hadd as [-> _]. split; [by apply Hnot|].
      intros s' [= <-]. cbn. rewrite !mget_insert_eq. cbn. fold product.
      split; [lia|]. split.
      * destruct (decide (trackee = caller)) as [Heq|Hne];
          [rewrite ?decide_True by (by rewrite Heq)
          |rewrite ?decide_False by (intros [=]; congruence)];
          try (rewrite Heq; fold balance); lia.
      * intros Hne. rewrite mget_insert_ne, mget_insert_eq by (intros [=]; congruence). lia.
    + match goal with |- context [SafeMath.add ?x ?y] =>
        destruct (SafeMath.add x y) as [b|e] eqn:Hadd; simpl end.
      2:{ apply add_Revert in Hadd as [-> _]. split; [by apply Hnot|]. by intros s' Hs'. }
      apply add_Ok in Hadd as [-> _]. split; [by apply Hnot|].
      intros s' [= <-]. cbn. rewrite !mget_insert_eq. cbn. fold product balance.
      split; [lia|]. split.
      * destruct (decide (trackee = caller)) as [Heq|Hne];
          [rewrite ?decide_True by (by rewrite Heq)
          |rewrite ?decide_False by (intros [=]; congruence)];
          try (rewrite Heq; fold balance); lia.
      * intros Hne. rewrite mget_insert_ne by (intros [=]; congruence). fold balance. lia.
Qed.

(** * The loop of [_trackTokens] *)

Lemma _trackTokens_loop_cons env mkey tokenId tokenIds amount tokenAmounts s s' :
  _trackTokens_loop env mkey (tokenId :: tokenIds) (amount :: tokenAmounts) s = Ok s' →
  ∃ m,
    (msg_sender env = netAddress s ∨
     (lockedAmount s).[tokenId] + amount ≤ net_getAvailable env tokenId) ∧
    (lockedAmount s).[tokenId] + amount ≤ UINT256_MAX ∧
    let s1 := with_lockedAmount (<[tokenId := (lockedAmount s).[tokenId] + amount]> (lockedAmount s)) s in
    _addTokenAmounts (_trackerMappings s1).[mkey] tokenId amount
      (CarbonTrackerMappings.idIndex (_trackerMappings s1).[mkey]).[tokenId]
      (net_getTokenTypeId env tokenId) = Ok m ∧
    _trackTokens_loop env mkey tokenIds tokenAmounts
      (with__trackerMappings (<[mkey := m]> (_trackerMappings s1)) s1) = Ok s'.
Proof.
  simpl. intros H. inv_ok H. apply add_Ok in Hx0 as [-> Hfit].
  exists x1. split; [|done].
  destruct (N.eqb_spec (msg_sender env) (netAddress s)); [by left|right].
  inv_ok Hx. apply sub_Ok in Hx0 as [-> ?]. apply require_Ok, N.leb_le in Hx. lia.
Qed.

Lemma _trackTokens_loop_locked env mkey tokenIds tokenAmounts s s' tokenId :
  _trackTokens_loop env mkey tokenIds tokenAmounts s = Ok s' →
  netAddress s' = netAddress s ∧
  (lockedAmount s').[tokenId]
  = (lockedAmount s).[tokenId] + submitted tokenId tokenIds tokenAmounts.
Proof.
  revert tokenAmounts s.
  induction tokenIds as [|id tokenIds IH]; intros tokenAmounts s H.
  - simpl in H. injection H as <-. simpl. split; [done|lia].
  - destruct tokenAmounts as [|amount tokenAmounts]; [done|].
    apply _trackTokens_loop_cons in H as (m & _ & _ & _ & H).
    apply IH in H as [Hnet ->]. split; [done|]. cbn.
    rewrite mget_insert. destruct (N.eqb_spec id tokenId) as [->|Hne].
    + rewrite decide_True by done. lia.
    + rewrite decide_False by done. lia.
Qed.

Lemma _trackTokens_loop_short env mkey tokenIds tokenAmounts s i tokenId amount :
  msg_sender env ≠ netAddress s →
  tokenIds !! i = Some tokenId →
  tokenAmounts !! i = Some amount →
  net_getAvailable env tokenId < (lockedAmount s).[tokenId] + amount →
  reverts (_trackTokens_loop env mkey tokenIds tokenAmounts s).
Proof.
  revert tokenAmounts s i.
  induction tokenIds as [|id tokenIds IH]; intros tokenAmounts s i Hnet Hid Hamt Hshort; [done|].
  destruct tokenAmounts as [|a tokenAmounts]; [done|].
  apply not_succeeds_reverts. intros [s' H].
  pose proof H as H0.
  apply _trackTokens_loop_cons in H as (m & Hcheck & _ & _ & H).
  destruct i as [|i]; simpl in Hid, Hamt.
  - injection Hid as ->. injection Hamt as ->. destruct Hcheck; [done|lia].
  - assert (reverts (_trackTokens_loop env mkey tokenIds tokenAmounts
      (with__trackerMappings (<[mkey := m]> (_trackerMappings
         (with_lockedAmount (<[id := (lockedAmount s).[id] + a]> (lockedAmount s)) s)))
         (with_lockedAmount (<[id := (lockedAmount s).[id] + a]> (lockedAmount s)) s))))
      as [e He].
    { eapply IH; [done|done|done|]. cbn. rewrite mget_insert. case_decide; subst; lia. }
    cbn in H, He. congruence.
Qed.

Lemma _trackTokens_locked env trackerData tokenIds tokenAmounts s s' tokenId :
  _trackTokens env trackerData tokenIds tokenAmounts s = Ok s' →
  (lockedAmount s').[tokenId]
  = (lockedAmount s).[tokenId] + submitted tokenId tokenIds tokenAmounts.
Proof.
  unfold _trackTokens. intros H. inv_ok H.
  by apply _trackTokens_loop_locked with (tokenId := tokenId) in H as [_ ?].
Qed.

Lemma _trackTokens_short env trackerData tokenIds tokenAmounts s i tokenId amount :
  msg_sender env ≠ netAddress s →
  tokenIds !! i = Some tokenId →
  tokenAmounts !! i = Some amount →
  net_getAvailable env tokenId < (lockedAmount s).[tokenId] + amount →
  reverts (_trackTokens env trackerData tokenIds tokenAmounts s).
Proof.
  intros Hnet Hid Hamt Hshort. apply not_succeeds_reverts. intros [s' H].
  unfold _trackTokens in H. inv_ok H.
  destruct (_trackTokens_loop_short env
              (CarbonTrackerDetails.trackerId (_trackerData s).[trackerData])
              tokenIds tokenAmounts s i tokenId amount) as [e He]; try done.
  congruence.
Qed.

(** * What a call preserves *)

Lemma keeps_shape_refl s : keeps_shape s s.
Proof. done. Qed.

Lemma keeps_shape_trans s1 s2 s3 : keeps_shape s1 s2 → keeps_shape s2 s3 → keeps_shape s1 s3.
Proof.
  intros (H1 & H2 & H3 & H4 & H5 & H6) (G1 & G2 & G3 & G4 & G5 & G6).
  repeat split; intros; congruence.
Qed.

Lemma keeps_shape_update_trackerData key f s :
  (∀ d, CarbonTrackerDetails.trackerId (f d) = CarbonTrackerDetails.trackerId d) →
  (∀ d, CarbonTrackerDetails.trackee (f d) = CarbonTrackerDetails.trackee d) →
  keeps_shape s (update_trackerData key f s).
Proof.
  intros Hf Hg. repeat split; try done; intros k; rewrite update_trackerData_get;
    case_decide; subst; done.
Qed.

Lemma keeps_shape_update_trackerMappings key f s :
  (∀ m, lineage_of (f m) = lineage_of m) →
  keeps_shape s (update_trackerMappings key f s).
Proof.
  intros Hf. repeat split; try done. intros k. rewrite update_trackerMappings_get.
  case_decide; subst; [apply Hf|done].
Qed.

Lemma keeps_shape_set_dates_and_text key fromDate thruDate description metadata s :
  keeps_shape s (set_dates_and_text key fromDate thruDate description metadata s).
Proof.
  unfold set_dates_and_text. cbv zeta.
  repeat match goal with
  | |- keeps_shape _ (if ?c then _ else _) => destruct c
  | |- keeps_shape _ (update_trackerData _ _ _) =>
      eapply keeps_shape_trans; [|by apply keeps_shape_update_trackerData]
  end; apply keeps_shape_refl.
Qed.

Lemma _addTokenAmounts_lineage tokenData tokenId amountAdd index tokenTypeId m :
  _addTokenAmounts tokenData tokenId amountAdd index tokenTypeId = Ok m →
  lineage_of m = lineage_of tokenData.
Proof.
  unfold _addTokenAmounts. intros H. inv_ok H.
  assert (lineage_of x = lineage_of tokenData) as <-.
  { destruct (_ =? 4); [inv_ok Hx; by injection Hx as <-|].
    destruct (_ =? 2); [inv_ok Hx; by injection Hx as <-|]. by injection Hx as <-. }
  destruct (0 <? _); [|by injection H as <-].
  destruct (index =? 0); by injection H as <-.
Qed.

Lemma keeps_shape__trackTokens_loop env mkey tokenIds tokenAmounts s s' :
  _trackTokens_loop env mkey tokenIds tokenAmounts s = Ok s' → keeps_shape s s'.
Proof.
  revert tokenAmounts s.
  induction tokenIds as [|id tokenIds IH]; intros tokenAmounts s H.
  - simpl in H. by injection H as <-.
  - destruct tokenAmounts as [|amount tokenAmounts]; [done|].
    apply _trackTokens_loop_cons in H as (m & _ & _ & Hm & H).
    apply IH in H. eapply keeps_shape_trans; [|exact H].
    apply _addTokenAmounts_lineage in Hm. cbn in Hm.
    repeat split; try done. intros k. cbn. rewrite mget_insert. case_decide; by subst.
Qed.

Lemma keeps_shape__trackTokens env trackerData tokenIds tokenAmounts s s' :
  _trackTokens env trackerData tokenIds tokenAmounts s = Ok s' → keeps_shape s s'.
Proof.
  unfold _trackTokens. intros H. inv_ok H. by eapply keeps_shape__trackTokens_loop.
Qed.

Lemma keeps_shape_productsUpdate_loop env trackerId productIds productAmounts
    productNames productUnits productUnitAmounts s s' :
  productsUpdate_loop env trackerId productIds productAmounts
    productNames productUnits productUnitAmounts s = Ok s' → keeps_shape s s'.
Proof.
  revert productAmounts productNames productUnits productUnitAmounts s.
  induction productIds as [|id productIds IH];
    intros productAmounts productNames productUnits productUnitAmounts s H.
  - simpl in H. by injection H as <-.
  - destruct productAmounts as [|amount productAmounts]; [done|].
    destruct productNames as [|name productNames]; [done|].
    destruct productUnits as [|unit productUnits]; [done|].
    destruct productUnitAmounts as [|unitAmount productUnitAmounts]; [done|].
    simpl in H. inv_ok H. rename s0 into s1.
    apply IH in H. eapply keeps_shape_trans; [|exact H].
    assert (keeps_shape s s1) as Hs1.
    { destruct (0 <? id).
      - inv_ok Hx. injection Hx as <- <-.
        by apply keeps_shape_update_trackerData.
      - injection Hx as <- <-.
        eapply keeps_shape_trans; [|by apply keeps_shape_update_trackerMappings].
        done. }
    eapply keeps_shape_trans; [exact Hs1|].
    eapply keeps_shape_trans; [|by apply keeps_shape_update_trackerData].
    done.
Qed.

Lemma keeps_shape_run env c s s' :
  match c with Track _ _ _ _ _ _ _ _ | TrackProduct _ _ _ _ => False | _ => True end →
  run env c s = Ok s' → keeps_shape s s'.
Proof.
  intros Hc H. destruct c; try done; simpl in H.
  - unfold trackUpdate in H. inv_ok H. apply keeps_shape__trackTokens in H.
    eapply keeps_shape_trans; [|exact H].
    eapply keeps_shape_trans; [|apply keeps_shape_set_dates_and_text].
    by apply keeps_shape_update_trackerData.
  - unfold productsUpdate in H. inv_ok H. by eapply keeps_shape_productsUpdate_loop.
  - unfold transferProduct in H. inv_ok H. unfold transferProduct_amounts in H. inv_ok H.
    injection H as <-. rename s0 into s1.
    assert (keeps_shape s s1) as Hs1.
    { destruct (0 <? x0); [|by injection Hx3 as <- <-].
      destruct (x0 <? productAmount); [by injection Hx3 as <- <-|].
      inv_ok Hx3. by injection Hx3 as <- <-. }
    eapply keeps_shape_trans; [exact Hs1|].
    destruct (0 <? a); [inv_ok Hx4|]; by injection Hx4 as <-.
  - unfold audit in H. inv_ok H. injection H as <-. by apply keeps_shape_update_trackerData.
  - unfold removeAudit in H. inv_ok H. injection H as <-.
    by apply keeps_shape_update_trackerData.
  - unfold registerTracker in H. inv_ok H. injection H as <-.
    unfold _setupRole. by destruct (hasRole _ _ _).
  - unfold approveVerifier in H. inv_ok H. by injection H as <-.
  - unfold transferFrom in H. inv_ok H. by injection H as <-.
  - unfold grantRole in H. inv_ok H. injection H as <-.
    unfold _setupRole. by destruct (hasRole s r account).
  - unfold revokeRole in H. inv_ok H. by injection H as <-.
  - unfold renounceRole in H. inv_ok H. by injection H as <-.
Qed.

(** * Indexed sets of the lineage *)

Lemma zero_N : (zero : N) = 0.
Proof. done. Qed.

Lemma indexed_nil : indexed [] ∅.
Proof. split; [done|]. intros x. rewrite mget_empty, zero_N. lia. Qed.

Lemma indexed_NoDup ids index : indexed ids index → NoDup ids.
Proof.
  intros [Hpos _]. apply NoDup_alt. intros i j x Hi Hj.
  apply Hpos in Hi, Hj. lia.
Qed.

Lemma indexed_absent ids index x : indexed ids index → index.[x] = 0 → x ∉ ids.
Proof.
  intros [Hpos _] Hx [i Hi]%list_elem_of_lookup. apply Hpos in Hi. lia.
Qed.

Lemma indexed_push ids index x :
  indexed ids index → index.[x] = 0 →
  indexed (push ids x) (<[x := len (push ids x)]> index).
Proof.
  intros Hidx Hx. pose proof (indexed_absent _ _ _ Hidx Hx) as Hnotin.
  destruct Hidx as [Hpos Hin]. unfold push. split.
  - intros i y Hi. apply lookup_app_Some in Hi as [Hi|[Hlen Hi]].
    + rewrite mget_insert_ne; [by apply Hpos|].
      intros ->. apply Hnotin, list_elem_of_lookup. eauto.
    + apply list_lookup_singleton_Some in Hi as [Hi ->].
      rewrite mget_insert_eq. unfold len. rewrite length_app. simpl. lia.
  - intros y. rewrite mget_insert. case_decide as Hy.
    + subst y. intros _. unfold len. rewrite length_app. simpl.
      replace (N.to_nat (N.of_nat (length ids + 1) - 1)) with (length ids + 0)%nat by lia.
      by rewrite lookup_app_r, Nat.add_0_r, Nat.sub_diag by lia.
    + intros Hy0. apply lookup_app_l_Some. by apply Hin.
Qed.

Lemma products_ok_zero : products_ok zero.
Proof.
  split; [apply indexed_nil|]. intros p. cbn. by rewrite !mget_empty.
Qed.

Lemma lineage_ok_zero : lineage_ok zero.
Proof.
  split; [apply indexed_nil|]. split.
  - intros src. cbn. rewrite mget_empty. apply products_ok_zero.
  - intros src. cbn. rewrite !mget_empty, zero_N. cbn. split; [lia|done].
Qed.

Lemma track_product_amount_ok productsTracked productId productAmount productsTracked' :
  products_ok productsTracked →
  track_product_amount productsTracked productId productAmount = Ok productsTracked' →
  products_ok productsTracked' ∧
  (ProductsTracked.productIds productsTracked ≠ [] →
   ProductsTracked.productIds productsTracked' ≠ []).
Proof.
  intros [Hidx Hamt] H. unfold track_product_amount in H. inv_ok H.
  apply add_Ok in Hx as [-> Hfit]. cbn in H. rewrite mget_insert_eq in H.
  set (a := (ProductsTracked.amount productsTracked).[productId] + productAmount) in *.
  destruct (N.ltb_spec 0 a) as [Hpos|Hzero].
  - destruct (N.eqb_spec (ProductsTracked.productIndex productsTracked).[productId] 0)
      as [Hnew|Hold]; injection H as <-; cbn.
    + split; [split|].
      * by apply indexed_push.
      * intros p. cbn. rewrite !mget_insert. case_decide; [|apply Hamt].
        unfold len, push. rewrite length_app. simpl. lia.
      * unfold push. intros _. by destruct (ProductsTracked.productIds productsTracked).
    + split; [split|]; [done| |done].
      intros p. cbn. rewrite mget_insert. case_decide; [subst; lia|apply Hamt].
  - assert ((ProductsTracked.amount productsTracked).[productId] = 0) as Hz by lia.
    assert ((ProductsTracked.productIndex productsTracked).[productId] = 0) as Hi.
    { pose proof (Hamt productId). lia. }
    rewrite Hi in H. simpl in H. injection H as <-. cbn.
    split; [split|]; [done| |done].
    intros p. cbn. destruct (decide (productId = p)) as [->|Hne].
    + rewrite mget_delete_eq, zero_N. lia.
    + rewrite mget_delete_ne, mget_insert_ne by done. apply Hamt.
Qed.

Lemma track_source_tracker_ok trackerMappings sourceTrackerId trackerMappings' :
  indexed (CarbonTrackerMappings.trackerIds trackerMappings)
    (CarbonTrackerMappings.trackerIndex trackerMappings) →
  (∀ src, products_ok (CarbonTrackerMappings.productsTracked trackerMappings).[src]) →
  (∀ src, src ≠ sourceTrackerId →
     0 < (CarbonTrackerMappings.trackerIndex trackerMappings).[src]
     ↔ ProductsTracked.productIds
         (CarbonTrackerMappings.productsTracked trackerMappings).[src] ≠ []) →
  (0 < (CarbonTrackerMappings.trackerIndex trackerMappings).[sourceTrackerId] →
   ProductsTracked.productIds
     (CarbonTrackerMappings.productsTracked trackerMappings).[sourceTrackerId] ≠ []) →
  track_source_tracker trackerMappings sourceTrackerId
    (CarbonTrackerMappings.trackerIndex trackerMappings).[sourceTrackerId]
  = Ok trackerMappings' →
  lineage_ok trackerMappings'.
Proof.
  intros Hidx Hprod Hother Hsrc H. unfold track_source_tracker in H.
  set (pt := (CarbonTrackerMappings.productsTracked trackerMappings).[sourceTrackerId]) in *.
  destruct (N.ltb_spec 0 (len (ProductsTracked.productIds pt))) as [Hsome|Hnone].
  - assert (ProductsTracked.productIds pt ≠ []) as Hne.
    { intros Hnil. rewrite Hnil in Hsome. unfold len in Hsome. simpl in Hsome. lia. }
    destruct (N.eqb_spec (CarbonTrackerMappings.trackerIndex trackerMappings).[sourceTrackerId] 0)
      as [Hnew|Hold]; injection H as <-.
    + split; [by apply indexed_push|]. split; [done|].
      intros src. cbn. rewrite mget_insert. case_decide as Hs.
      * subst src. fold pt. unfold len, push. rewrite length_app. simpl. split; [done|lia].
      * by apply Hother.
    + split; [done|]. split; [done|].
      intros src. destruct (decide (src = sourceTrackerId)) as [->|Hs]; [|by apply Hother].
      fold pt. split; [done|lia].
  - assert (ProductsTracked.productIds pt = []) as Hnil.
    { apply len_nil_iff. lia. }
    assert ((CarbonTrackerMappings.trackerIndex trackerMappings).[sourceTrackerId] = 0) as Hz.
    { destruct (N.ltb_spec 0 (CarbonTrackerMappings.trackerIndex trackerMappings).[sourceTrackerId])
        as [Hpos|Hle]; [by apply Hsrc in Hpos|lia]. }
    rewrite Hz in H. simpl in H. injection H as <-.
    split; [done|]. split.
    + intros src. cbn. rewrite mget_insert. case_decide; [|done].
      specialize (Hprod sourceTrackerId). fold pt in Hprod.
      destruct Hprod as [Hi Ha]. split; [|done]. cbn. by rewrite <- Hnil.
    + intros src. cbn. rewrite mget_insert. case_decide as Hs.
      * subst src. cbn. rewrite Hz. split; [lia|done].
      * by apply Hother.
Qed.

Lemma _updateTrackedProducts_ok trackerId sourceTrackerId productId productAmount s s' :
  (∀ k, lineage_ok (_trackerMappings s).[k]) →
  _updateTrackedProducts trackerId sourceTrackerId productId productAmount s = Ok s' →
  ∀ k, lineage_ok (_trackerMappings s').[k].
Proof.
  intros Hok H k. unfold _updateTrackedProducts in H. inv_ok H. injection H as <-.
  cbn. rewrite mget_insert. case_decide; [|done].
  destruct (Hok trackerId) as (Hidx & Hprod & Hsets).
  apply track_product_amount_ok in Hx as [Hpt Hne]; [|done].
  subst k.
  refine (track_source_tracker_ok
            (CarbonTrackerMappings.with_productsTracked (<[sourceTrackerId := x]> _) _)
            sourceTrackerId _ _ _ _ _ Hx0); cbn; [done| | |].
  - intros src. rewrite mget_insert. by case_decide.
  - intros src Hsrc. rewrite mget_insert_ne by done. apply Hsets.
  - rewrite mget_insert_eq. intros Hpos. by apply Hne, Hsets.
Qed.

(** * The invariant holds in every reachable storage *)

Lemma lineage_ok_of m m' : lineage_of m' = lineage_of m → lineage_ok m → lineage_ok m'.
Proof.
  unfold lineage_of, lineage_ok. intros [= -> -> ->]. done.
Qed.

Lemma state_ok_keeps_shape s s' : keeps_shape s s' → state_ok s → state_ok s'.
Proof.
  intros (Hd & Hn & Hid & _ & Hl & Ha) (Gd & Gn & Gid & Gl & Ga). split; [congruence|].
  split; [congruence|]. split; [|split; [|congruence]].
  - intros k Hk. rewrite Hid. apply Gid. by rewrite <- Hn.
  - intros k. eapply lineage_ok_of; [apply Hl|apply Gl].
Qed.

Lemma state_ok_constructor _net _admin : state_ok (constructor _net _admin).
Proof.
  assert (∀ r a s, state_ok s → state_ok (_setupRole r a s)) as Hrole.
  { intros r a s Hs. unfold _setupRole. by destruct (hasRole s r a). }
  unfold constructor. cbv zeta. do 2 apply Hrole.
  split; [done|]. split; [done|]. split; [|split; [|done]].
  - intros k Hk. simpl in *. rewrite mget_empty. cbn. lia.
  - intros k. simpl. rewrite mget_empty. apply lineage_ok_zero.
Qed.

Lemma state_ok__track env trackee s :
  state_ok s → state_ok (_track env trackee s).1.
Proof.
  intros (Hd & Hn & Hid & Hl). unfold _track. cbn. split; [done|].
  assert (0 < UINT256_MAX + 1) as Hpos by done.
  split.
  { unfold Counters.increment.
    cbn [_numOfUniqueTrackers update_trackerData with__trackerData with__numOfUniqueTrackers].
    pose proof (N.mod_upper_bound (_numOfUniqueTrackers s + 1) (UINT256_MAX + 1)). lia. }
  split; [|done].
  intros k Hk. unfold Counters.increment, Counters.current in *.
  rewrite !update_trackerData_twice, update_trackerData_get. cbn in Hk.
  case_decide as Hk'; [done|]. cbn. apply Hid.
  destruct (decide (_numOfUniqueTrackers s + 1 < UINT256_MAX + 1)) as [Hlt|Hge].
  - rewrite N.mod_small in Hk, Hk' by done. lia.
  - assert (_numOfUniqueTrackers s + 1 = UINT256_MAX + 1) as Heq by lia.
    rewrite Heq, N.Div0.mod_same in Hk, Hk'. lia.
Qed.

Lemma state_ok_run env c s s' : state_ok s → run env c s = Ok s' → state_ok s'.
Proof.
  intros Hs H.
  destruct c; try (by eapply state_ok_keeps_shape; [eapply keeps_shape_run|]; eauto).
  - simpl in H. unfold track in H.
    pose proof (state_ok__track env trackee s Hs) as Hs1.
    destruct (_track env trackee s) as [s1 ptr]. simpl in Hs1.
    inv_ok H. unfold _mint in Hx. inv_ok Hx. injection Hx as <-.
    match type of H with (if _ then _ ?ptr ?i ?a ?st else _) = _ =>
      assert (state_ok st) as Hs2 end.
    { eapply state_ok_keeps_shape; [apply keeps_shape_set_dates_and_text|].
      by unfold state_ok in *; cbn. }
    destruct (0 <? len tokenIds); [|by injection H as <-].
    eapply state_ok_keeps_shape; [by eapply keeps_shape__trackTokens|done].
  - simpl in H. unfold trackProduct in H. inv_ok H.
    destruct Hs as (Hd & Hn & Hid & Hl & Ha).
    pose proof (_updateTrackedProducts_frame _ _ _ _ _ _ H) as Hf.
    split; [by rewrite Hf|]. split; [by rewrite Hf|]. split; [by rewrite Hf|].
    split; [|by rewrite Hf].
    eapply _updateTrackedProducts_ok; [|exact H]. exact Hl.
Qed.

Lemma reachable_ok s : reachable s → state_ok s.
Proof.
  induction 1 as [|env c s s' _ IH Hrun]; [apply state_ok_constructor|].
  by eapply state_ok_run.
Qed.


(** * When the three updates succeed *)







(** * Fuel of the views *)

Lemma answers_more_refl {A} (v : view A) : answers_more v v.
Proof. by intros r. Qed.

Lemma answers_more_bind {A B} (v v' : view A) (f f' : A → view B) :
  answers_more v v' → (∀ a, answers_more (f a) (f' a)) →
  answers_more (v ≫= f) (v' ≫= f').
Proof.
  intros Hv Hf r. destruct v as [[a|e]|]; simpl; [| |done].
  - rewrite (Hv _ eq_refl). simpl. apply Hf.
  - by rewrite (Hv _ eq_refl).
Qed.

Section FuelMono.
Variable s : State.
Variables ef ef' : N → view N.
Hypothesis ef_le : ∀ trackerId, answers_more (ef trackerId) (ef' trackerId).

Lemma sum_tracked_products_mono sourceTrackerId amount productIds totalEmissions :
  answers_more (sum_tracked_products s ef sourceTrackerId amount productIds totalEmissions)
    (sum_tracked_products s ef' sourceTrackerId amount productIds totalEmissions).
Proof.
  revert totalEmissions. induction productIds as [|productId productIds IH];
    intros totalEmissions; [apply answers_more_refl|].
  cbn [sum_tracked_products]. apply answers_more_bind; [apply ef_le|]. intros f.
  apply answers_more_bind; [apply answers_more_refl|]. intros t. apply IH.
Qed.

Lemma sum_tracked_trackers_mono trackerMappings trackerIds totalEmissions :
  answers_more (sum_tracked_trackers s ef trackerMappings trackerIds totalEmissions)
    (sum_tracked_trackers s ef' trackerMappings trackerIds totalEmissions).
Proof.
  revert totalEmissions. induction trackerIds as [|sourceTrackerId trackerIds IH];
    intros totalEmissions; [apply answers_more_refl|].
  cbn [sum_tracked_trackers].
  apply answers_more_bind; [apply sum_tracked_products_mono|]. intros t. apply IH.
Qed.

Lemma _getTotalEmissions_mono trackerMappings :
  answers_more (_getTotalEmissions s ef trackerMappings)
    (_getTotalEmissions s ef' trackerMappings).
Proof.
  unfold _getTotalEmissions. apply answers_more_bind; [apply answers_more_refl|].
  intros t. apply sum_tracked_trackers_mono.
Qed.
End FuelMono.

Lemma emissionsFactor_with_mono s gte gte' trackerId :
  (∀ t, answers_more (gte t) (gte' t)) →
  answers_more (emissionsFactor_with s gte trackerId) (emissionsFactor_with s gte' trackerId).
Proof.
  intros Hle. unfold emissionsFactor_with. destruct (0 <? _); [|apply answers_more_refl].
  apply answers_more_bind; [apply Hle|]. intros e. apply answers_more_refl.
Qed.

Lemma getTotalEmissions_more_fuel s fuel trackerId :
  answers_more (getTotalEmissions s fuel trackerId) (getTotalEmissions s (S fuel) trackerId).
Proof.
  revert trackerId. induction fuel as [|fuel IH]; intros trackerId; [done|].
  change (answers_more
            (_getTotalEmissions s (emissionsFactor_with s (getTotalEmissions s fuel))
               (_trackerMappings s).[trackerId])
            (_getTotalEmissions s (emissionsFactor_with s (getTotalEmissions s (S fuel)))
               (_trackerMappings s).[trackerId])).
  apply _getTotalEmissions_mono. intros t. by apply emissionsFactor_with_mono.
Qed.

Lemma getTotalEmissions_fuel_mono s fuel fuel' trackerId r :
  (fuel ≤ fuel')%nat →
  getTotalEmissions s fuel trackerId = Returns r →
  getTotalEmissions s fuel' trackerId = Returns r.
Proof.
  induction 1 as [|fuel' _ IH]; [done|]. intros H.
  by apply getTotalEmissions_more_fuel, IH.
Qed.

(** A tracker without lineage needs one unit of fuel. *)
Lemma getTotalEmissions_no_lineage s fuel trackerId :
  CarbonTrackerMappings.trackerIds (_trackerMappings s).[trackerId] = [] →
  getTotalEmissions s (S fuel) trackerId
  = Returns (sum_token_amounts
               (CarbonTrackerMappings.amount (_trackerMappings s).[trackerId])
               (CarbonTrackerMappings.tokenIds (_trackerMappings s).[trackerId]) 0).
Proof.
  intros Hnil. simpl. unfold _getTotalEmissions. rewrite Hnil.
  by destruct (sum_token_amounts _ _ _).
Qed.

(** * Which storage a call writes *)

Lemma _addTokenAmounts_products tokenData tokenId amountAdd index tokenTypeId m :
  _addTokenAmounts tokenData tokenId amountAdd index tokenTypeId = Ok m →
  products_of_mappings m = products_of_mappings tokenData.
Proof.
  unfold _addTokenAmounts. intros H. inv_ok H.
  assert (products_of_mappings x = products_of_mappings tokenData) as <-.
  { destruct (_ =? 4); [inv_ok Hx; by injection Hx as <-|].
    destruct (_ =? 2); [inv_ok Hx; by injection Hx as <-|]. by injection Hx as <-. }
  destruct (0 <? _); [|by injection H as <-].
  destruct (index =? 0); by injection H as <-.
Qed.

Lemma _trackTokens_loop_frame env mkey tokenIds tokenAmounts s s' :
  _trackTokens_loop env mkey tokenIds tokenAmounts s = Ok s' →
  s' = with_lockedAmount (lockedAmount s')
         (with__trackerMappings (_trackerMappings s') s) ∧
  ∀ k, k ≠ mkey → (_trackerMappings s').[k] = (_trackerMappings s).[k].
Proof.
  revert tokenAmounts s.
  induction tokenIds as [|id tokenIds IH]; intros tokenAmounts s H.
  - simpl in H. injection H as <-. by destruct s.
  - destruct tokenAmounts as [|amount tokenAmounts]; [done|].
    apply _trackTokens_loop_cons in H as (m & _ & _ & _ & H).
    apply IH in H as [Hf Hk]. split.
    + etrans; [exact Hf|]. by destruct s.
    + intros k Hne. rewrite Hk by done. cbn. by rewrite mget_insert_ne.
Qed.

Lemma _trackTokens_frame env trackerData tokenIds tokenAmounts s s' :
  _trackTokens env trackerData tokenIds tokenAmounts s = Ok s' →
  s' = with_lockedAmount (lockedAmount s')
         (with__trackerMappings (_trackerMappings s') s) ∧
  ∀ k, k ≠ CarbonTrackerDetails.trackerId (_trackerData s).[trackerData] →
       (_trackerMappings s').[k] = (_trackerMappings s).[k].
Proof.
  unfold _trackTokens. intros H. inv_ok H. by apply _trackTokens_loop_frame in H.
Qed.

Lemma productsUpdate_loop_frame env trackerId productIds productAmounts
    productNames productUnits productUnitAmounts s s' :
  productsUpdate_loop env trackerId productIds productAmounts
    productNames productUnits productUnitAmounts s = Ok s' →
  s' = with__numOfProducts (_numOfProducts s')
         (with__productData (_productData s')
            (with__trackerMappings (_trackerMappings s')
               (with__trackerData (_trackerData s') s))) ∧
  ∀ k, k ≠ trackerId →
       (_trackerData s').[k] = (_trackerData s).[k] ∧
       (_trackerMappings s').[k] = (_trackerMappings s).[k].
Proof.
  revert productAmounts productNames productUnits productUnitAmounts s.
  induction productIds as [|id productIds IH];
    intros productAmounts productNames productUnits productUnitAmounts s H.
  - simpl in H. injection H as <-. by destruct s.
  - destruct productAmounts as [|amount productAmounts]; [done|].
    destruct productNames as [|name productNames]; [done|].
    destruct productUnits as [|unit productUnits]; [done|].
    destruct productUnitAmounts as [|unitAmount productUnitAmounts]; [done|].
    simpl in H. inv_ok H. rename s0 into s1.
    apply IH in H as [Hf Hk].
    assert (s1 = with__numOfProducts (_numOfProducts s1)
                   (with__productData (_productData s1)
                      (with__trackerMappings (_trackerMappings s1)
                         (with__trackerData (_trackerData s1) s))) ∧
            ∀ k, k ≠ trackerId →
                 (_trackerData s1).[k] = (_trackerData s).[k] ∧
                 (_trackerMappings s1).[k] = (_trackerMappings s).[k]) as [Hf1 Hk1].
    { destruct (0 <? id).
      - inv_ok Hx. injection Hx as <- <-. split; [by destruct s|].
        intros k Hne. by rewrite update_trackerData_get, decide_False.
      - injection Hx as <- <-. split; [by destruct s|].
        intros k Hne. cbn. by rewrite mget_insert_ne. }
    split.
    + etrans; [exact Hf|].
      transitivity (with__numOfProducts (_numOfProducts s')
                      (with__productData (_productData s')
                         (with__trackerMappings (_trackerMappings s')
                            (with__trackerData (_trackerData s') s1)))); [by destruct s1|].
      rewrite Hf1. by destruct s.
    + intros k Hne. destruct (Hk k Hne) as [-> ->]. destruct (Hk1 k Hne) as [<- <-].
      by rewrite update_trackerData_get, decide_False.
Qed.

Lemma State_eq s s' :
  netAddress s = netAddress s' → decimalsEf s = decimalsEf s' →
  _trackerData s = _trackerData s' → _trackerMappings s = _trackerMappings s' →
  _productData s = _productData s' → _numOfUniqueTrackers s = _numOfUniqueTrackers s' →
  _numOfProducts s = _numOfProducts s' → lockedAmount s = lockedAmount s' →
  productBalance s = productBalance s' → isAuditorApproved s = isAuditorApproved s' →
  approvedAuditorsOnly s = approvedAuditorsOnly s' → _owners s = _owners s' →
  _roles s = _roles s' → s = s'.
Proof. destruct s, s'; simpl; intros; by subst. Qed.

Lemma writes_only_refl c s : writes_only c s s.
Proof. by destruct c, s. Qed.

Lemma _track_frame env trackee s :
  (_track env trackee s).1
  = with__trackerData (_trackerData (_track env trackee s).1)
      (with__numOfUniqueTrackers (_numOfUniqueTrackers (_track env trackee s).1) s).
Proof. by destruct s. Qed.

Lemma run_writes_only env c s s' : run env c s = Ok s' → writes_only c s s'.
Proof.
  intros H. destruct c; simpl in H |- *.
  - unfold track in H. pose proof (_track_frame env trackee s) as H1.
    destruct (_track env trackee s) as [s1 ptr]. simpl in H1.
    inv_ok H. unfold _mint in Hx. inv_ok Hx. injection Hx as Hx.
    pose proof (set_dates_and_text_frame ptr fromDate thruDate description metadata x) as H2.
    cbv zeta in H2.
    destruct (0 <? len tokenIds).
    + apply _trackTokens_frame in H as [H _]. apply State_eq; same_field.
    + injection H as H. apply State_eq; same_field.
  - unfold trackUpdate in H. inv_ok H.
    apply _trackTokens_frame in H as [H _].
    match type of H with context [set_dates_and_text ?k ?f ?t ?d ?m ?st] =>
      pose proof (set_dates_and_text_frame k f t d m st) as H2; cbv zeta in H2;
      set (s2 := set_dates_and_text k f t d m st) in *;
      assert (st = with__trackerData (_trackerData st) s) as H1 by (by destruct s)
    end.
    apply State_eq; same_field.
  - unfold productsUpdate in H. inv_ok H. by apply productsUpdate_loop_frame in H as [H _].
  - unfold transferProduct in H. inv_ok H. unfold transferProduct_amounts in H. inv_ok H.
    injection H as H. rename s0 into s1.
    assert (s1 = with__productData (_productData s1) s) as H1.
    { destruct (0 <? x0); [|injection Hx3 as <- <-; by destruct s].
      destruct (x0 <? productAmount); [injection Hx3 as <- <-; by destruct s|].
      inv_ok Hx3. injection Hx3 as <- <-. by destruct s. }
    match goal with Hb : (if 0 <? a then _ else Ok s1) = Ok ?st |- _ =>
      assert (st = with_productBalance (productBalance st) s1) as H2
        by (destruct (0 <? a); [inv_ok Hb|]; injection Hb as <-; by destruct s1)
    end.
    apply State_eq; same_field.
  - unfold trackProduct in H. inv_ok H. apply _updateTrackedProducts_frame in H. apply State_eq; same_field.
  - unfold audit in H. inv_ok H. injection H as <-. by destruct s.
  - unfold removeAudit in H. inv_ok H. injection H as <-. by destruct s.
  - unfold registerTracker in H. inv_ok H. injection H as <-.
    unfold _setupRole. destruct (hasRole _ _ _); by destruct s.
  - unfold approveVerifier in H. inv_ok H. injection H as <-. by destruct s.
  - unfold transferFrom in H. inv_ok H. injection H as <-. by destruct s.
  - unfold grantRole in H. inv_ok H. injection H as <-.
    unfold _setupRole. destruct (hasRole s r account); by destruct s.
  - unfold revokeRole in H. inv_ok H. injection H as <-. by destruct s.
  - unfold renounceRole in H. inv_ok H. injection H as <-. by destruct s.
Qed.

(** * One tracker per call *)

Lemma set_dates_and_text_other key fromDate thruDate description metadata s k :
  k ≠ key →
  (_trackerData (set_dates_and_text key fromDate thruDate description metadata s)).[k]
  = (_trackerData s).[k].
Proof.
  intros Hne. unfold set_dates_and_text. cbv zeta.
  repeat match goal with
  | |- context [if ?c then _ else _] => destruct c
  | |- context [update_trackerData] => rewrite update_trackerData_get, decide_False by done
  end; done.
Qed.

Lemma _track_spec env trackee s :
  let id := Counters.increment (_numOfUniqueTrackers s) in
  let s1 := (_track env trackee s).1 in
  (_track env trackee s).2 = id ∧
  _numOfUniqueTrackers s1 = id ∧
  (_trackerData s1).[id]
  = CarbonTrackerDetails.with_dateCreated (block_timestamp env)
      (CarbonTrackerDetails.with_trackee trackee
         (CarbonTrackerDetails.with_createdBy (msg_sender env)
            (CarbonTrackerDetails.with_trackerId id (_trackerData s).[id]))) ∧
  ∀ k, k ≠ id → (_trackerData s1).[k] = (_trackerData s).[k].
Proof.
  unfold _track. cbv zeta. split; [done|]. split; [done|].
  cbn [fst]. rewrite !update_trackerData_twice. split.
  - by rewrite update_trackerData_get, decide_True.
  - intros k Hne. by rewrite update_trackerData_get, decide_False.
Qed.

Lemma run_other_tracker env c s s' k :
  state_ok s → run env c s = Ok s' → tracker_of c s ≠ Some k →
  (_trackerData s').[k] = (_trackerData s).[k] ∧
  (_trackerMappings s').[k] = (_trackerMappings s).[k].
Proof.
  intros Hs H Hk. pose proof (run_writes_only _ _ _ _ H) as Hw.
  destruct c; simpl in H, Hw, Hk;
    try (split; f_equal; same_field).
  - assert (k ≠ Counters.increment (_numOfUniqueTrackers s)) as Hne by congruence.
    unfold track in H.
    destruct (_track_spec env trackee s) as (Hptr & _ & Hid & Hother).
    pose proof (_track_frame env trackee s) as Hfr1.
    destruct (_track env trackee s) as [s1 ptr]. simpl in Hptr, Hid, Hother, Hfr1. subst ptr.
    inv_ok H. unfold _mint in Hx. inv_ok Hx. injection Hx as <-.
    set (id := Counters.increment (_numOfUniqueTrackers s)) in *.
    match type of H with context [set_dates_and_text ?a ?f ?t ?d ?m ?st] =>
      pose proof (set_dates_and_text_other a f t d m st k Hne) as Hd;
      pose proof (keeps_shape_set_dates_and_text a f t d m st) as (_ & _ & Hf & _);
      pose proof (set_dates_and_text_frame a f t d m st) as Hfr; cbv zeta in Hfr;
      remember (set_dates_and_text a f t d m st) as s3 eqn:Hs3; clear Hs3
    end.
    cbn in Hd. rewrite Hother in Hd by done.
    destruct (0 <? len tokenIds).
    + apply _trackTokens_frame in H as [Hfr' Hm]. split.
      * rewrite <- Hd. f_equal. clear Hfr Hw. same_field.
      * rewrite Hm.
        -- f_equal. clear Hfr' Hw. same_field.
        -- rewrite Hf. cbn. by rewrite Hid.
    + injection H as <-. split; [done|]. f_equal. clear Hw. same_field.
  - assert (k ≠ trackerId) as Hne by congruence.
    unfold trackUpdate in H. inv_ok H.
    apply require_Ok, N.leb_le in Hx0.
    match type of H with context [set_dates_and_text ?a ?f ?t ?d ?m ?st] =>
      pose proof (set_dates_and_text_other a f t d m st k Hne) as Hd;
      pose proof (keeps_shape_set_dates_and_text a f t d m st) as (_ & _ & Hf & _);
      pose proof (set_dates_and_text_frame a f t d m st) as Hfr; cbv zeta in Hfr;
      remember (set_dates_and_text a f t d m st) as s3 eqn:Hs3; clear Hs3
    end.
    rewrite update_trackerData_get, decide_False in Hd by done.
    apply _trackTokens_frame in H as [Hfr' Hm]. split.
    + rewrite <- Hd. f_equal. clear Hfr Hw. same_field.
    + rewrite Hm.
      * f_equal. clear Hfr' Hw. same_field.
      * rewrite Hf, update_trackerData_get, decide_True by done. cbn.
        destruct Hs as (_ & _ & Hid & _). by rewrite Hid.
  - assert (k ≠ trackerId) as Hne by congruence.
    unfold productsUpdate in H. inv_ok H.
    apply productsUpdate_loop_frame in H as [_ H]. by apply H.
  - assert (k ≠ trackerId) as Hne by congruence.
    unfold trackProduct in H. inv_ok H. unfold _updateTrackedProducts in H. inv_ok H.
    injection H as <-. cbn. by rewrite mget_insert_ne.
  - assert (k ≠ trackerId) as Hne by congruence.
    unfold audit in H. inv_ok H. injection H as <-.
    by rewrite update_trackerData_get, decide_False.
  - assert (k ≠ trackerId) as Hne by congruence.
    unfold removeAudit in H. inv_ok H. injection H as <-.
    by rewrite update_trackerData_get, decide_False.
Qed.

(** * The pool of a product *)

Lemma pools_ok_productsUpdate_loop env trackerId productIds productAmounts
    productNames productUnits productUnitAmounts s s' :
  pools_ok s →
  productsUpdate_loop env trackerId productIds productAmounts
    productNames productUnits productUnitAmounts s = Ok s' → pools_ok s'.
Proof.
  revert productAmounts productNames productUnits productUnitAmounts s.
  induction productIds as [|id productIds IH];
    intros productAmounts productNames productUnits productUnitAmounts s Hs H.
  - simpl in H. by injection H as <-.
  - destruct productAmounts as [|amount productAmounts]; [done|].
    destruct productNames as [|name productNames]; [done|].
    destruct productUnits as [|unit productUnits]; [done|].
    destruct productUnitAmounts as [|unitAmount productUnitAmounts]; [done|].
    simpl in H. inv_ok H. rename s0 into s1.
    apply IH in H; [done|]. clear H IH.
    assert (pools_ok s1) as Hs1.
    { destruct (0 <? id).
      - inv_ok Hx. by injection Hx as <- <-.
      - injection Hx as <- <-. intros p. cbn.
        destruct (decide (Counters.current (Counters.increment (_numOfProducts s)) = p))
          as [<-|Hne]; [rewrite !mget_insert_eq; cbn|rewrite !mget_insert_ne by done]; apply Hs. }
    intros p. cbn.
    destruct (decide (a = p)) as [<-|Hne];
      [rewrite !mget_insert_eq; by cbn|rewrite !mget_insert_ne by done; apply Hs1].
Qed.

Lemma pools_ok_run env c s s' : pools_ok s → run env c s = Ok s' → pools_ok s'.
Proof.
  intros Hs H. pose proof (run_writes_only _ _ _ _ H) as Hw.
  destruct c; simpl in H, Hw;
    try (intros p; replace (_productData s') with (_productData s) by same_field; apply Hs).
  - unfold productsUpdate in H. inv_ok H. by eapply pools_ok_productsUpdate_loop.
  - clear Hw. unfold transferProduct in H. inv_ok H. unfold transferProduct_amounts in H.
    inv_ok H. injection H as <-. rename s0 into s1.
    match goal with Hb : (if 0 <? a then _ else Ok s1) = Ok ?st |- _ =>
      assert (_productData st = _productData s1) as Hpd
        by (destruct (0 <? a); [inv_ok Hb|]; by injection Hb as <-)
    end.
    intros p. cbn. rewrite Hpd. clear Hpd.
    destruct (0 <? x0); [|injection Hx3 as <- <-; apply Hs].
    destruct (x0 <? productAmount).
    + injection Hx3 as <- <-. rewrite update_productData_get.
      case_decide; [subst p; cbn; lia|apply Hs].
    + inv_ok Hx3. injection Hx3 as <- <-.
      match goal with Hsub : SafeMath.sub _ _ = Ok _ |- _ => apply sub_Ok in Hsub as [-> _] end.
      rewrite update_productData_get.
      case_decide; [subst p; cbn; pose proof (Hs productId); lia|apply Hs].
Qed.

Lemma pools_ok_constructor _net _admin : pools_ok (constructor _net _admin).
Proof.
  assert (_productData (constructor _net _admin) = ∅) as Hpd.
  { unfold constructor, _setupRole. cbv zeta. by repeat destruct (hasRole _ _ _). }
  intros p. by rewrite Hpd, mget_empty.
Qed.

Lemma reachable_pools_ok s : reachable s → pools_ok s.
Proof.
  induction 1 as [|env c s s' _ IH Hrun]; [apply pools_ok_constructor|].
  by eapply pools_ok_run.
Qed.

(** * Creating a tracker *)

Lemma track_Ok env issuedTo trackee tokenIds tokenAmounts fromDate thruDate
    description metadata s s' :
  track env issuedTo trackee tokenIds tokenAmounts fromDate thruDate description metadata s
  = Ok s' →
  let id := Counters.increment (_numOfUniqueTrackers s) in
  issuedTo ≠ 0 ∧ (_owners s).[id] = 0 ∧
  _owners s' = <[id := issuedTo]> (_owners s) ∧
  _numOfUniqueTrackers s' = id ∧
  CarbonTrackerDetails.trackerId (_trackerData s').[id] = id ∧
  CarbonTrackerDetails.trackee (_trackerData s').[id] = trackee ∧
  (tokenIds ≠ [] → net_isIndustry env trackee = true ∧ __isAuditor env s trackee = true).
Proof.
  intros H id. unfold track in H.
  destruct (_track_spec env trackee s) as (Hptr & Hnum & Hid & _).
  pose proof (_track_frame env trackee s) as Hfr1.
  destruct (_track env trackee s) as [s1 ptr]. simpl in Hptr, Hnum, Hid, Hfr1. subst ptr.
  fold id in Hid, Hnum, H.
  inv_ok H. unfold _mint in Hx. inv_ok Hx. injection Hx as Hx. symmetry in Hx.
  apply require_Ok, negb_true_iff, N.eqb_neq in Hx0.
  apply require_Ok, N.eqb_eq in Hx1. rewrite Hid in Hx1, Hx. cbn in Hx1, Hx.
  assert (_owners s1 = _owners s) as Ho by (clear Hx; same_field).
  rewrite Ho in Hx1, Hx.
  match type of H with context [set_dates_and_text ?a ?f ?t ?d ?m ?st] =>
    pose proof (keeps_shape_set_dates_and_text a f t d m st) as (_ & Hn & Hf & Ht & _);
    pose proof (set_dates_and_text_frame a f t d m st) as Hfr; cbv zeta in Hfr;
    remember (set_dates_and_text a f t d m st) as s3 eqn:Hs3; clear Hs3
  end.
  assert (_owners s3 = <[id := issuedTo]> (_owners s) ∧ _numOfUniqueTrackers s3 = id ∧
          CarbonTrackerDetails.trackerId (_trackerData s3).[id] = id ∧
          CarbonTrackerDetails.trackee (_trackerData s3).[id] = trackee) as (Ho3 & Hn3 & Hi3 & Ht3).
  { split; [|split; [|split]].
    - transitivity (_owners x); [clear Hx; same_field|]. by rewrite Hx.
    - rewrite Hn, Hx. cbn. done.
    - rewrite Hf, Hx. cbn. by rewrite Hid.
    - rewrite Ht, Hx. cbn. by rewrite Hid. }
  split; [done|]. split; [done|].
  destruct (N.ltb_spec 0 (len tokenIds)) as [Hlen|Hlen].
  2:{ injection H as <-. repeat (split; [done|]).
      intros Hne. destruct Hne. apply len_nil_iff. lia. }
  pose proof (keeps_shape__trackTokens _ _ _ _ _ _ H) as (_ & Hn' & Hf' & Ht' & _).
  assert (net_isIndustry env trackee = true ∧ __isAuditor env s trackee = true) as Hchecks.
  { unfold _trackTokens in H. inv_ok H. rewrite Hi3 in *. rewrite Ht3 in *.
    match goal with Ha : trackeeIsIndustry env s3 id = Ok _ |- _ =>
      unfold trackeeIsIndustry in Ha; apply require_Ok in Ha; rewrite Ht3 in Ha end.
    match goal with Ha : _isAuditor env s3 trackee = Ok _ |- _ =>
      unfold _isAuditor in Ha; apply require_Ok in Ha;
      rewrite (__isAuditor_frame env s s3 trackee) in Ha
        by (clear Ha H; same_field) end.
    done. }
  apply _trackTokens_frame in H as [H _].
  split; [|by rewrite Hn', Hf', Ht'].
  rewrite <- Ho3. clear Hfr Hfr1 Hx. same_field.
Qed.

(** * The owners of the trackers *)

Lemma owners_ok_run env c s s' :
  state_ok s → owners_ok s → run env c s = Ok s' → owners_ok s'.
Proof.
  intros Hok Hs H. pose proof (run_writes_only _ _ _ _ H) as Hw.
  destruct c; simpl in H, Hw;
    try (intros k; replace (_owners s') with (_owners s) by same_field;
         replace (_numOfUniqueTrackers s') with (_numOfUniqueTrackers s) by same_field;
         apply Hs).
  - apply track_Ok in H as (Hto & _ & Ho & Hn & _). intros k. rewrite Ho, Hn.
    rewrite mget_insert. case_decide; [done|]. intros [Hpos Hk]. apply Hs. split; [done|].
    destruct Hok as (_ & Hmax & _). unfold Counters.increment in *.
    destruct (decide (_numOfUniqueTrackers s + 1 < UINT256_MAX + 1)) as [Hlt|Hge].
    + rewrite N.mod_small in Hk, H by done. lia.
    + assert (_numOfUniqueTrackers s + 1 = UINT256_MAX + 1) as Heq by lia.
      rewrite Heq, N.Div0.mod_same in Hk. lia.
  - unfold transferFrom in H. inv_ok H. injection H as <-. intros k. cbn.
    apply require_Ok, negb_true_iff, N.eqb_neq in Hx1.
    rewrite mget_insert. case_decide; [done|apply Hs].
Qed.

Lemma owners_ok_constructor _net _admin : owners_ok (constructor _net _admin).
Proof.
  assert (_numOfUniqueTrackers (constructor _net _admin) = 0) as Hn.
  { unfold constructor, _setupRole. cbv zeta. by repeat destruct (hasRole _ _ _). }
  intros k. rewrite Hn. lia.
Qed.

Lemma reachable_owners_ok s : reachable s → owners_ok s.
Proof.
  induction 1 as [|env c s s' Hs IH Hrun]; [apply owners_ok_constructor|].
  eapply owners_ok_run; [by apply reachable_ok|done..].
Qed.

(** * The token set of a tracker *)

Lemma tokens_ok_zero : tokens_ok zero.
Proof.
  split; [apply indexed_nil|]. intros t. cbn. rewrite mget_empty, zero_N. lia.
Qed.

Lemma tokens_ok_of m m' :
  tokens_of_mappings m' = tokens_of_mappings m → tokens_ok m → tokens_ok m'.
Proof. unfold tokens_of_mappings, tokens_ok. intros [= -> -> ->]. done. Qed.

Lemma _addTokenAmounts_ok tokenData tokenId amountAdd tokenTypeId m :
  tokens_ok tokenData →
  _addTokenAmounts tokenData tokenId amountAdd
    (CarbonTrackerMappings.idIndex tokenData).[tokenId] tokenTypeId = Ok m →
  tokens_ok m.
Proof.
  intros [Hidx Hamt] H. unfold _addTokenAmounts in H. inv_ok H.
  assert (CarbonTrackerMappings.tokenIds x = CarbonTrackerMappings.tokenIds tokenData ∧
          CarbonTrackerMappings.idIndex x = CarbonTrackerMappings.idIndex tokenData ∧
          ∀ t, t ≠ tokenId → (CarbonTrackerMappings.amount x).[t]
                             = (CarbonTrackerMappings.amount tokenData).[t])
    as (Hids & Hindex & Hother).
  { destruct (_ =? 4); [inv_ok Hx; injection Hx as <-; cbn|].
    { repeat split. intros t Hne. by rewrite mget_insert_ne. }
    destruct (_ =? 2); [inv_ok Hx; injection Hx as <-; cbn|by injection Hx as <-].
    repeat split. intros t Hne. by rewrite mget_insert_ne. }
  clear Hx.
  destruct (N.ltb_spec 0 (CarbonTrackerMappings.amount x).[tokenId]) as [Hpos|Hzero].
  - destruct (N.eqb_spec (CarbonTrackerMappings.idIndex tokenData).[tokenId] 0) as [Hnew|Hold];
      injection H as <-.
    + split; cbn.
      * rewrite Hids, Hindex. by apply indexed_push.
      * intros t. rewrite mget_insert. case_decide as Ht.
        -- intros _. unfold len, push. rewrite length_app. simpl. lia.
        -- rewrite Hother, Hindex by done. apply Hamt.
    + split; [by rewrite Hids, Hindex|].
      intros t. rewrite Hindex. destruct (decide (t = tokenId)) as [->|Hne]; [lia|].
      rewrite Hother by done. apply Hamt.
  - injection H as <-. split; [by rewrite Hids, Hindex|].
    intros t. rewrite Hindex. destruct (decide (t = tokenId)) as [->|Hne]; [lia|].
    rewrite Hother by done. apply Hamt.
Qed.

Lemma tokens_ok__trackTokens_loop env mkey tokenIds tokenAmounts s s' :
  (∀ k, tokens_ok (_trackerMappings s).[k]) →
  _trackTokens_loop env mkey tokenIds tokenAmounts s = Ok s' →
  ∀ k, tokens_ok (_trackerMappings s').[k].
Proof.
  revert tokenAmounts s.
  induction tokenIds as [|id tokenIds IH]; intros tokenAmounts s Hs H.
  - simpl in H. by injection H as <-.
  - destruct tokenAmounts as [|amount tokenAmounts]; [done|].
    apply _trackTokens_loop_cons in H as (m & _ & _ & Hm & H).
    eapply IH; [|exact H]. intros k. cbn. rewrite mget_insert. case_decide; [|apply Hs].
    cbn in Hm. by apply _addTokenAmounts_ok in Hm.
Qed.

Lemma _updateTrackedProducts_tokens trackerId sourceTrackerId productId productAmount s s' k :
  _updateTrackedProducts trackerId sourceTrackerId productId productAmount s = Ok s' →
  tokens_of_mappings (_trackerMappings s').[k] = tokens_of_mappings (_trackerMappings s).[k] ∧
  products_of_mappings (_trackerMappings s').[k] = products_of_mappings (_trackerMappings s).[k].
Proof.
  unfold _updateTrackedProducts. intros H. inv_ok H. injection H as <-. cbn.
  rewrite mget_insert. case_decide; [subst k|done].
  unfold track_source_tracker in Hx0. cbn in Hx0.
  destruct (0 <? len _).
  - destruct (_ =? 0); by injection Hx0 as <-.
  - inv_ok Hx0. injection Hx0 as <-.
    destruct (0 <? _); [|by injection Hx1 as <-].
    inv_ok Hx1. by injection Hx1 as <-.
Qed.

Lemma productsUpdate_loop_tokens env trackerId productIds productAmounts
    productNames productUnits productUnitAmounts s s' k :
  productsUpdate_loop env trackerId productIds productAmounts
    productNames productUnits productUnitAmounts s = Ok s' →
  tokens_of_mappings (_trackerMappings s').[k] = tokens_of_mappings (_trackerMappings s).[k].
Proof.
  revert productAmounts productNames productUnits productUnitAmounts s.
  induction productIds as [|id productIds IH];
    intros productAmounts productNames productUnits productUnitAmounts s H.
  - simpl in H. by injection H as <-.
  - destruct productAmounts as [|amount productAmounts]; [done|].
    destruct productNames as [|name productNames]; [done|].
    destruct productUnits as [|unit productUnits]; [done|].
    destruct productUnitAmounts as [|unitAmount productUnitAmounts]; [done|].
    simpl in H. inv_ok H. rename s0 into s1.
    apply IH in H. rewrite H. cbn.
    destruct (0 <? id).
    + inv_ok Hx. by injection Hx as <- <-.
    + injection Hx as <- <-. cbn. rewrite mget_insert. by case_decide; subst.
Qed.

Lemma tokens_ok_run env c s s' :
  (∀ k, tokens_ok (_trackerMappings s).[k]) → run env c s = Ok s' →
  ∀ k, tokens_ok (_trackerMappings s').[k].
Proof.
  intros Hs H. pose proof (run_writes_only _ _ _ _ H) as Hw.
  destruct c; simpl in H, Hw;
    try (intros k; replace (_trackerMappings s') with (_trackerMappings s) by same_field;
         apply Hs); clear Hw.
  - unfold track in H. pose proof (_track_frame env trackee s) as H1.
    destruct (_track env trackee s) as [s1 ptr]. simpl in H1.
    inv_ok H. unfold _mint in Hx. inv_ok Hx. injection Hx as Hx.
    pose proof (set_dates_and_text_frame ptr fromDate thruDate description metadata x) as H2.
    cbv zeta in H2.
    remember (set_dates_and_text ptr fromDate thruDate description metadata x) as s3 eqn:Hs3.
    clear Hs3.
    assert (_trackerMappings s3 = _trackerMappings s) as Hm by same_field.
    destruct (0 <? len tokenIds); [|injection H as <-; by rewrite Hm].
    unfold _trackTokens in H. inv_ok H.
    eapply tokens_ok__trackTokens_loop; [|exact H]. by rewrite Hm.
  - unfold trackUpdate in H. inv_ok H. unfold _trackTokens in H. inv_ok H.
    eapply tokens_ok__trackTokens_loop; [|exact H].
    by rewrite set_dates_and_text_frame.
  - unfold productsUpdate in H. inv_ok H. intros k.
    eapply tokens_ok_of; [by eapply productsUpdate_loop_tokens|apply Hs].
  - unfold trackProduct in H. inv_ok H. intros k.
    eapply tokens_ok_of; [by eapply _updateTrackedProducts_tokens|apply Hs].
Qed.

Lemma reachable_tokens_ok s k : reachable s → tokens_ok (_trackerMappings s).[k].
Proof.
  intros Hs. revert k. induction Hs as [|env c s s' _ IH Hrun].
  - assert (_trackerMappings (constructor _net _admin) = ∅) as Hm.
    { unfold constructor, _setupRole. cbv zeta. by repeat destruct (hasRole _ _ _). }
    intros k. rewrite Hm, mget_empty. apply tokens_ok_zero.
  - by eapply tokens_ok_run.
Qed.

(** * The sum of the token amounts *)

Lemma sum_token_amounts_spec amount tokenIds totalEmissions :
  totalEmissions ≤ UINT256_MAX →
  sum_token_amounts amount tokenIds totalEmissions
  = let total := totalEmissions + total_of (map (λ tokenId, amount.[tokenId]) tokenIds) in
    if total <=? UINT256_MAX then Ok total else Revert Panic.
Proof.
  revert totalEmissions. induction tokenIds as [|tokenId tokenIds IH];
    intros totalEmissions Hle; cbv zeta.
  - cbn. rewrite N.add_0_r. by rewrite (proj2 (N.leb_le _ _) Hle).
  - cbn [sum_token_amounts map total_of foldr]. fold (total_of (map (λ t, amount.[t]) tokenIds)).
    destruct (SafeMath.add totalEmissions amount.[tokenId]) as [t|e] eqn:Hadd; simpl.
    + apply add_Ok in Hadd as [-> Hfit]. rewrite IH by done. cbv zeta.
      by rewrite N.add_assoc.
    + apply add_Revert in Hadd as [-> Hover].
      rewrite (proj2 (N.leb_gt _ _)) by lia. done.
Qed.

(** * The totals of [productsUpdate] *)

Lemma productsUpdate_loop_totals env trackerId productIds productAmounts
    productNames productUnits productUnitAmounts s s' :
  productsUpdate_loop env trackerId productIds productAmounts
    productNames productUnits productUnitAmounts s = Ok s' →
  CarbonTrackerDetails.totalProductAmounts (_trackerData s').[trackerId]
  = CarbonTrackerDetails.totalProductAmounts (_trackerData s).[trackerId]
    + newProductAmounts productIds productAmounts ∧
  CarbonTrackerMappings.productIds (_trackerMappings s').[trackerId]
  = CarbonTrackerMappings.productIds (_trackerMappings s).[trackerId]
    ++ created (_numOfProducts s) productIds.
Proof.
  revert productAmounts productNames productUnits productUnitAmounts s.
  induction productIds as [|id productIds IH];
    intros productAmounts productNames productUnits productUnitAmounts s H.
  - simpl in H. injection H as <-. simpl. rewrite app_nil_r. split; [lia|done].
  - destruct productAmounts as [|amount productAmounts]; [done|].
    destruct productNames as [|name productNames]; [done|].
    destruct productUnits as [|unit productUnits]; [done|].
    destruct productUnitAmounts as [|unitAmount productUnitAmounts]; [done|].
    simpl in H. inv_ok H. rename s0 into s1.
    apply IH in H as [-> ->]. clear IH.
    apply add_Ok in Hx0 as [-> _]. cbn. rewrite !mget_insert_eq. cbn.
    destruct (N.ltb_spec 0 id) as [Hpos|Hzero].
    + rewrite (proj2 (N.eqb_neq id 0)) by lia.
      inv_ok Hx. injection Hx as <- <-.
      match goal with Hsub : SafeMath.sub _ _ = Ok _ |- _ => apply sub_Ok in Hsub as [-> Hle] end.
      cbn. rewrite !mget_insert_eq. cbn.
      split; [lia|done].
    + assert (id = 0) as -> by lia. injection Hx as <- <-. cbn.
      rewrite !mget_insert_eq. cbn. unfold push. rewrite <- app_assoc. cbn.
      split; [lia|done].
Qed.

(** * Views that return no value *)

Lemma never_answers_bind_l {A B} (v : view A) (f : A → view B) :
  never_answers v → never_answers (v ≫= f).
Proof. intros Hv b. destruct v as [[a|e]|]; simpl; [by destruct (Hv a)|done|done]. Qed.

Lemma never_answers_bind_r {A B} (v : view A) (f : A → view B) :
  (∀ a, never_answers (f a)) → never_answers (v ≫= f).
Proof. intros Hf b. destruct v as [[a|e]|]; simpl; [apply Hf|done|done]. Qed.

Lemma sum_tracked_trackers_never s ef trackerMappings trackerIds totalEmissions source :
  source ∈ trackerIds →
  ProductsTracked.productIds (CarbonTrackerMappings.productsTracked trackerMappings).[source] ≠ [] →
  never_answers (ef source) →
  never_answers (sum_tracked_trackers s ef trackerMappings trackerIds totalEmissions).
Proof.
  intros Hin Hne Hef. revert totalEmissions.
  induction trackerIds as [|id trackerIds IH]; intros totalEmissions; [by apply elem_of_nil in Hin|].
  cbn [sum_tracked_trackers].
  destruct (decide (id = source)) as [->|Hid].
  - apply never_answers_bind_l.
    destruct (ProductsTracked.productIds _) as [|p ps]; [done|].
    cbn [sum_tracked_products]. by apply never_answers_bind_l.
  - apply never_answers_bind_r. intros t. apply IH.
    apply elem_of_cons in Hin as [Heq|Hin]; [congruence|done].
Qed.

Lemma getTotalEmissions_never s fuel trackerId :
  trackerId ∈ CarbonTrackerMappings.trackerIds (_trackerMappings s).[trackerId] →
  ProductsTracked.productIds
    (CarbonTrackerMappings.productsTracked (_trackerMappings s).[trackerId]).[trackerId] ≠ [] →
  0 < CarbonTrackerDetails.totalProductAmounts (_trackerData s).[trackerId] →
  never_answers (getTotalEmissions s fuel trackerId).
Proof.
  intros Hin Hne Hpos. induction fuel as [|fuel IH]; [done|].
  cbn [getTotalEmissions]. unfold _getTotalEmissions.
  apply never_answers_bind_r. intros t.
  apply sum_tracked_trackers_never with (source := trackerId); [done..|].
  unfold emissionsFactor_with. rewrite (proj2 (N.ltb_lt _ _) Hpos).
  by apply never_answers_bind_l.
Qed.

(** * The amounts moved by [transferProduct], and nothing else *)

Lemma transferProduct_amounts_frame env productId productAmount trackee available s s' :
  transferProduct_amounts env productId productAmount trackee available s = Ok s' →
  productAmount ≤ UINT256_MAX ∧
  (∀ q, q ≠ productId → (_productData s').[q] = (_productData s).[q]) ∧
  (_productData s').[productId]
  = ProductDetails.with_available (ProductDetails.available (_productData s').[productId])
      (_productData s).[productId] ∧
  (∀ q a, (q, a) ≠ (productId, msg_sender env) → (q, a) ≠ (productId, trackee) →
          (productBalance s').[(q, a)] = (productBalance s).[(q, a)]).
Proof.
  unfold transferProduct_amounts. intros H. inv_ok H. injection H as <-. rename s0 into s1.
  match goal with Hadd : SafeMath.add _ productAmount = Ok _ |- _ =>
    apply add_Ok in Hadd as [_ Hfit] end.
  split; [lia|].
  match goal with Hb : (if 0 <? a then _ else Ok s1) = Ok ?st |- _ =>
    assert (_productData st = _productData s1 ∧
            ∀ k, k ≠ (productId, msg_sender env) →
                 (productBalance st).[k] = (productBalance s1).[k]) as [Hpd Hbal]
  end.
  { destruct (0 <? a); [|by injection Hx2 as <-].
    inv_ok Hx2. injection Hx2 as <-. split; [done|].
    intros k Hk. cbn. by rewrite mget_insert_ne. }
  assert (productBalance s1 = productBalance s ∧
          (∀ q, q ≠ productId → (_productData s1).[q] = (_productData s).[q]) ∧
          (_productData s1).[productId]
          = ProductDetails.with_available (ProductDetails.available (_productData s1).[productId])
              (_productData s).[productId]) as (Hb1 & Hq1 & Hp1).
  { assert (∀ v, let st := update_productData productId (ProductDetails.with_available v) s in
              productBalance st = productBalance s ∧
              (∀ q, q ≠ productId → (_productData st).[q] = (_productData s).[q]) ∧
              (_productData st).[productId]
              = ProductDetails.with_available (ProductDetails.available (_productData st).[productId])
                  (_productData s).[productId]) as Hupd.
    { intros v st. split; [done|]. split.
      - intros q Hq. unfold st. by rewrite update_productData_get, decide_False.
      - unfold st. by rewrite update_productData_get, decide_True. }
    destruct (0 <? available).
    - destruct (available <? productAmount); [injection Hx1 as <- <-; apply Hupd|].
      inv_ok Hx1. injection Hx1 as <- <-. apply Hupd.
    - injection Hx1 as <- <-. split; [done|]. split; [done|].
      by destruct ((_productData s).[productId]). }
  cbn. rewrite Hpd. split; [done|]. split; [done|].
  intros q a' Hc Ht. rewrite mget_insert_ne by done. rewrite Hbal by done. by rewrite Hb1.
Qed.

Lemma transferProduct_Ok env productId productAmount trackee s s' :
  transferProduct env productId productAmount trackee s = Ok s' →
  let caller := msg_sender env in
  let pool st := ProductDetails.available (_productData st).[productId] in
  let held st a := (productBalance st).[(productId, a)] in
  ∃ owner,
    ownerOf s (ProductDetails.trackerId (_productData s).[productId]) = Ok owner ∧
    let available := if caller =? owner then pool s else 0 in
    productAmount < held s caller + available ∧
    held s caller + available ≤ UINT256_MAX ∧
    pool s' = pool s - N.min productAmount available ∧
    held s' caller
    = held s caller - (productAmount - N.min productAmount available)
      + (if decide (trackee = caller) then productAmount else 0) ∧
    (trackee ≠ caller → held s' trackee = held s trackee + productAmount) ∧
    (∀ q, q ≠ productId → (_productData s').[q] = (_productData s).[q]) ∧
    (_productData s').[productId]
    = ProductDetails.with_available (pool s') (_productData s).[productId] ∧
    (∀ q a, (q, a) ≠ (productId, caller) → (q, a) ≠ (productId, trackee) →
            (productBalance s').[(q, a)] = (productBalance s).[(q, a)]).
Proof.
  intros H caller pool held. unfold transferProduct in H. inv_ok H.
  rename x into owner, x0 into available. exists owner. split; [done|].
  fold caller in Hx0.
  assert (available = if caller =? owner then pool s else 0) as Hav.
  { destruct (caller =? owner); [|by injection Hx0 as <-]. inv_ok Hx0. by injection Hx0 as <-. }
  clear Hx0. cbv zeta. rewrite <- Hav.
  assert (available = 0 ∨ available = pool s) as Hcases.
  { rewrite Hav. destruct (caller =? owner); [by right|by left]. }
  destruct (transferProduct_amounts_frame _ _ _ _ _ _ _ H) as (Hfit & Hframe).
  destruct (transferProduct_amounts_spec env productId productAmount trackee available s
              Hfit Hcases) as [Hins Hval].
  destruct (Hval s' H) as (Hpool & Hto & Hfrom). cbv zeta in Hpool, Hto, Hfrom.
  fold caller in Hto, Hfrom.
  assert (productAmount < held s caller + available ∧ held s caller + available ≤ UINT256_MAX)
    as [Hlt Hsum].
  { unfold transferProduct_amounts in H. inv_ok H.
    match goal with Hadd : SafeMath.add _ available = Ok _ |- _ =>
      apply add_Ok in Hadd as [-> ?] end.
    match goal with Hreq : require (productAmount <? _) _ = Ok _ |- _ =>
      apply require_Ok, N.ltb_lt in Hreq end.
    done. }
  split; [done|]. split; [done|]. split; [done|]. split; [|split; [|done]].
  - unfold held. destruct (decide (trackee = caller)) as [->|Hne].
    + rewrite Hto. reflexivity.
    + rewrite Hfrom by done. lia.
  - intros Hne. unfold held. by rewrite Hto, decide_False.
Qed.

(** * Tracked amounts of the other products *)

Lemma track_product_amount_other productsTracked productId productAmount productsTracked' p :
  track_product_amount productsTracked productId productAmount = Ok productsTracked' →
  p ≠ productId →
  (ProductsTracked.amount productsTracked').[p] = (ProductsTracked.amount productsTracked).[p].
Proof.
  unfold track_product_amount. intros H Hp. inv_ok H. cbn in H.
  destruct (0 <? _).
  - destruct (_ =? 0); injection H as <-; cbn; by rewrite mget_insert_ne.
  - inv_ok H. injection H as <-. cbn. rewrite mget_delete_ne by done.
    assert (ProductsTracked.amount x0
            = <[productId := x]> (ProductsTracked.amount productsTracked)) as ->.
    { destruct (0 <? _); [|by injection Hx0 as <-]. inv_ok Hx0. by injection Hx0 as <-. }
    by rewrite mget_insert_ne.
Qed.

Lemma _updateTrackedProducts_other trackerId sourceTrackerId productId productAmount s s' t src p :
  _updateTrackedProducts trackerId sourceTrackerId productId productAmount s = Ok s' →
  (t, src, p) ≠ (trackerId, sourceTrackerId, productId) →
  trackedAmount s' t src p = trackedAmount s t src p.
Proof.
  unfold _updateTrackedProducts, trackedAmount. intros H Hne. inv_ok H.
  injection H as <-. cbn. rewrite mget_insert. case_decide as Ht; [subst t|done].
  rewrite (track_source_tracker_amount _ _ _ _ _ Hx0). cbn.
  rewrite mget_insert. case_decide as Hs; [subst src|done].
  eapply track_product_amount_other; [done|]. congruence.
Qed.

Lemma run_lineage env c s s' k :
  match c with TrackProduct _ _ _ _ => False | _ => True end →
  run env c s = Ok s' →
  lineage_of (_trackerMappings s').[k] = lineage_of (_trackerMappings s).[k].
Proof.
  intros Hc H. destruct c; try done;
    try (by eapply keeps_shape_run in H as (_ & _ & _ & _ & Hl & _)).
  simpl in H. unfold track in H. pose proof (_track_frame env trackee s) as H1.
  destruct (_track env trackee s) as [s1 ptr]. simpl in H1.
  inv_ok H. unfold _mint in Hx. inv_ok Hx. injection Hx as Hx.
  pose proof (set_dates_and_text_frame ptr fromDate thruDate description metadata x) as H2.
  cbv zeta in H2.
  remember (set_dates_and_text ptr fromDate thruDate description metadata x) as s3 eqn:Hs3.
  clear Hs3.
  assert (_trackerMappings s3 = _trackerMappings s) as Hm by same_field.
  destruct (0 <? len tokenIds); [|injection H as <-; by rewrite Hm].
  apply keeps_shape__trackTokens in H as (_ & _ & _ & _ & Hl & _). by rewrite Hl, Hm.
Qed.

(** * The sum of the recorded token amounts *)

Lemma total_of_app l1 l2 : total_of (l1 ++ l2) = total_of l1 + total_of l2.
Proof.
  unfold total_of. induction l1 as [|x l1 IH]; simpl; [done|]. rewrite IH. lia.
Qed.

Lemma total_insert_notin (amount : gmap N N) ids x v :
  x ∉ ids →
  total_of (map (λ id, (<[x := v]> amount).[id]) ids) = total_of (map (λ id, amount.[id]) ids).
Proof.
  induction ids as [|id ids IH]; [done|]. intros Hnotin.
  apply not_elem_of_cons in Hnotin as [Hne Hnotin].
  cbn. rewrite mget_insert_ne by done. unfold total_of in IH. by rewrite IH.
Qed.

Lemma total_insert_in (amount : gmap N N) ids x v :
  NoDup ids → x ∈ ids →
  total_of (map (λ id, (<[x := v]> amount).[id]) ids) + amount.[x]
  = total_of (map (λ id, amount.[id]) ids) + v.
Proof.
  induction ids as [|id ids IH]; intros Hnd Hin; [by apply elem_of_nil in Hin|].
  apply NoDup_cons in Hnd as [Hnotin Hnd]. cbn.
  destruct (decide (id = x)) as [->|Hne].
  - rewrite mget_insert_eq.
    pose proof (total_insert_notin amount ids x v Hnotin) as Hrest.
    unfold total_of in Hrest. rewrite Hrest. lia.
  - apply elem_of_cons in Hin as [Heq|Hin]; [congruence|].
    rewrite mget_insert_ne by done. specialize (IH Hnd Hin). unfold total_of in IH. lia.
Qed.

Lemma _addTokenAmounts_total tokenData tokenId amountAdd tokenTypeId m :
  tokens_ok tokenData →
  _addTokenAmounts tokenData tokenId amountAdd
    (CarbonTrackerMappings.idIndex tokenData).[tokenId] tokenTypeId = Ok m →
  tokenTotal m + (if tokenTypeId =? 2 then amountAdd else 0)
  = tokenTotal tokenData + (if tokenTypeId =? 4 then amountAdd else 0).
Proof.
  intros [Hidx Hamt] H.
  set (ids := CarbonTrackerMappings.tokenIds tokenData) in *.
  set (index := (CarbonTrackerMappings.idIndex tokenData).[tokenId]) in *.
  set (a := (CarbonTrackerMappings.amount tokenData).[tokenId]) in *.
  assert (NoDup ids) as Hnd by (by eapply indexed_NoDup).
  assert (index = 0 → (tokenId ∉ ids) ∧ a = 0) as Hnew.
  { intros Hz. split; [by eapply indexed_absent|].
    destruct (N.eq_0_gt_0_cases a) as [|Hpos]; [done|]. apply Hamt in Hpos. fold index in Hpos. lia. }
  assert (0 < index → tokenId ∈ ids) as Hold.
  { intros Hpos. destruct Hidx as [_ Hin]. apply Hin in Hpos. by eapply list_elem_of_lookup_2. }
  assert (∀ v, let m1 := CarbonTrackerMappings.with_amount
                          (<[tokenId := v]> (CarbonTrackerMappings.amount tokenData)) tokenData in
            (if 0 <? (CarbonTrackerMappings.amount m1).[tokenId] then
               if index =? 0 then
                 let ids' := push (CarbonTrackerMappings.tokenIds m1) tokenId in
                 Ok (CarbonTrackerMappings.with_idIndex
                       (<[tokenId := len ids']> (CarbonTrackerMappings.idIndex m1))
                       (CarbonTrackerMappings.with_tokenIds ids' m1))
               else Ok m1
             else Ok m1) = Ok m →
            tokenTotal m + a = tokenTotal tokenData + v) as Hset.
  { intros v m1 Hm. unfold m1 in Hm. cbn in Hm. rewrite mget_insert_eq in Hm.
    unfold tokenTotal. fold ids.
    destruct (N.ltb_spec 0 v) as [Hv|Hv].
    - destruct (N.eqb_spec index 0) as [Hz|Hnz]; injection Hm as <-; cbn; fold ids.
      + destruct (Hnew Hz) as [Hnotin ->]. unfold push. rewrite map_app, total_of_app.
        rewrite total_insert_notin by done. cbn. rewrite mget_insert_eq. lia.
      + apply total_insert_in; [done|]. apply Hold. lia.
    - injection Hm as <-. cbn. fold ids.
      destruct (N.eq_0_gt_0_cases index) as [Hz|Hpos].
      + destruct (Hnew Hz) as [Hnotin ->]. rewrite total_insert_notin by done. lia.
      + apply total_insert_in; [done|]. by apply Hold. }
  unfold _addTokenAmounts in H. inv_ok H.
  destruct (N.eqb_spec tokenTypeId 4) as [->|Hn4].
  - inv_ok Hx. injection Hx as <-. apply add_Ok in Hx0 as [-> _]. fold a in H.
    apply Hset in H. simpl. lia.
  - destruct (N.eqb_spec tokenTypeId 2) as [->|Hn2].
    + inv_ok Hx. injection Hx as <-. apply sub_Ok in Hx0 as [-> Hle]. fold a in H, Hle.
      apply Hset in H. lia.
    + injection Hx as <-. fold a index in H. rewrite !N.add_0_r.
      destruct (N.ltb_spec 0 a) as [Hpos|]; [|by injection H as <-].
      apply Hamt in Hpos. fold index in Hpos.
      rewrite (proj2 (N.eqb_neq index 0)) in H by lia. by injection H as <-.
Qed.

Lemma _trackTokens_loop_total env mkey tokenIds tokenAmounts s s' :
  tokens_ok (_trackerMappings s).[mkey] →
  _trackTokens_loop env mkey tokenIds tokenAmounts s = Ok s' →
  tokenTotal (_trackerMappings s').[mkey] + submitted_of_type env 2 tokenIds tokenAmounts
  = tokenTotal (_trackerMappings s).[mkey] + submitted_of_type env 4 tokenIds tokenAmounts.
Proof.
  revert tokenAmounts s.
  induction tokenIds as [|id tokenIds IH]; intros tokenAmounts s Hs H.
  - simpl in H. by injection H as <-.
  - destruct tokenAmounts as [|amount tokenAmounts]; [done|].
    apply _trackTokens_loop_cons in H as (m & _ & _ & Hm & H). cbn in Hm.
    apply IH in H; [|cbn; rewrite mget_insert_eq; by eapply _addTokenAmounts_ok].
    cbn in H. rewrite mget_insert_eq in H.
    apply _addTokenAmounts_total in Hm; [|done].
    cbn [submitted_of_type]. lia.
Qed.

(** * The running lock of [_trackTokens] *)

Lemma running_lock_S s id amount tokenIds tokenAmounts i tokenId :
  running_lock s (id :: tokenIds) (amount :: tokenAmounts) (S i) tokenId
  = running_lock
      (with_lockedAmount (<[id := (lockedAmount s).[id] + amount]> (lockedAmount s)) s)
      tokenIds tokenAmounts i tokenId.
Proof.
  unfold running_lock. cbn. rewrite mget_insert.
  destruct (N.eqb_spec id tokenId) as [->|Hne]; [rewrite decide_True by done|
    rewrite decide_False by done]; lia.
Qed.

Lemma running_lock_frame s s' tokenIds tokenAmounts i tokenId :
  lockedAmount s' = lockedAmount s →
  running_lock s' tokenIds tokenAmounts i tokenId = running_lock s tokenIds tokenAmounts i tokenId.
Proof. unfold running_lock. by intros ->. Qed.

(** The checks a successful loop has passed, pair by pair. *)
Lemma _trackTokens_loop_running env mkey tokenIds tokenAmounts s s' i tokenId amount :
  _trackTokens_loop env mkey tokenIds tokenAmounts s = Ok s' →
  msg_sender env ≠ netAddress s →
  tokenIds !! i = Some tokenId → tokenAmounts !! i = Some amount →
  running_lock s tokenIds tokenAmounts i tokenId + amount ≤ net_getAvailable env tokenId.
Proof.
  revert tokenAmounts s i.
  induction tokenIds as [|id tokenIds IH]; intros tokenAmounts s i H Hnet Hid Hamt; [done|].
  destruct tokenAmounts as [|a tokenAmounts]; [done|].
  apply _trackTokens_loop_cons in H as (m & Hcheck & _ & _ & H).
  destruct i as [|i]; simpl in Hid, Hamt.
  - injection Hid as ->. injection Hamt as ->. unfold running_lock. cbn.
    destruct Hcheck; [done|lia].
  - rewrite running_lock_S. eapply IH in H; [|done..]. exact H.
Qed.

Lemma _addTokenAmounts_Revert tokenData tokenId amountAdd index tokenTypeId e :
  _addTokenAmounts tokenData tokenId amountAdd index tokenTypeId = Revert e → e = Panic.
Proof.
  unfold _addTokenAmounts. intros H.
  destruct (tokenTypeId =? 4).
  - destruct (SafeMath.add _ _) eqn:Hadd; simpl in H.
    + destruct (0 <? _); [destruct (index =? 0)|]; done.
    + apply add_Revert in Hadd as [-> _]. by injection H as <-.
  - destruct (tokenTypeId =? 2).
    + destruct (SafeMath.sub _ _) eqn:Hsub; simpl in H.
      * destruct (0 <? _); [destruct (index =? 0)|]; done.
      * apply sub_Revert in Hsub as [-> _]. by injection H as <-.
    + simpl in H. destruct (0 <? _); [destruct (index =? 0)|]; done.
Qed.

(** The first pair of a loop fails the availability check. *)
Lemma _trackTokens_loop_head_insufficient env mkey tokenId tokenIds amount tokenAmounts s :
  msg_sender env ≠ netAddress s →
  (lockedAmount s).[tokenId] ≤ net_getAvailable env tokenId →
  net_getAvailable env tokenId - (lockedAmount s).[tokenId] < amount →
  _trackTokens_loop env mkey (tokenId :: tokenIds) (amount :: tokenAmounts) s
  = Revert InsufficientAvailable.
Proof.
  intros Hnet Hle Hlt. simpl. rewrite (proj2 (N.eqb_neq _ _) Hnet).
  unfold SafeMath.sub. rewrite (proj2 (N.leb_le _ _) Hle). simpl.
  by rewrite (proj2 (N.leb_gt _ _) Hlt).
Qed.

(** Where the loop fails with the availability error. *)
Lemma _trackTokens_loop_insufficient env mkey tokenIds tokenAmounts s :
  _trackTokens_loop env mkey tokenIds tokenAmounts s = Revert InsufficientAvailable →
  msg_sender env ≠ netAddress s ∧
  ∃ i tokenId amount,
    tokenIds !! i = Some tokenId ∧ tokenAmounts !! i = Some amount ∧
    running_lock s tokenIds tokenAmounts i tokenId ≤ net_getAvailable env tokenId ∧
    net_getAvailable env tokenId - running_lock s tokenIds tokenAmounts i tokenId < amount.
Proof.
  revert tokenAmounts s.
  induction tokenIds as [|id tokenIds IH]; intros tokenAmounts s H; [done|].
  destruct tokenAmounts as [|a tokenAmounts]; [done|].
  simpl in H.
  destruct (N.eqb_spec (msg_sender env) (netAddress s)) as [Heq|Hnet].
  - exfalso. simpl in H.
    destruct (SafeMath.add _ _) as [locked|e] eqn:Hadd; simpl in H;
      [|apply add_Revert in Hadd as [-> _]; done].
    destruct (_addTokenAmounts _ _ _ _ _) as [m|e] eqn:Hm; simpl in H;
      [|apply _addTokenAmounts_Revert in Hm as ->; done].
    apply IH in H as [Hne _]. by apply Hne.
  - split; [done|].
    destruct (SafeMath.sub _ _) as [d|e] eqn:Hsub; simpl in H;
      [|apply sub_Revert in Hsub as [-> _]; done].
    apply sub_Ok in Hsub as [-> Hle].
    destruct (N.leb_spec a (net_getAvailable env id - (lockedAmount s).[id])) as [Hfits|Hshort];
      simpl in H.
    + destruct (SafeMath.add _ _) as [locked|e] eqn:Hadd; simpl in H;
        [|apply add_Revert in Hadd as [-> _]; done].
      apply add_Ok in Hadd as [-> _].
      destruct (_addTokenAmounts _ _ _ _ _) as [m|e] eqn:Hm; simpl in H;
        [|apply _addTokenAmounts_Revert in Hm as ->; done].
      apply IH in H as [_ (i & tokenId & amount & Hid & Hamt & Hrun)].
      exists (S i), tokenId, amount. split; [done|]. split; [done|].
      rewrite running_lock_S. exact Hrun.
    + exists 0%nat, id, a. split; [done|]. split; [done|].
      unfold running_lock. cbn. rewrite N.add_0_r. done.
Qed.

Lemma _trackTokens_loop_app env mkey ids1 ids2 amounts1 amounts2 s :
  length amounts1 = length ids1 →
  _trackTokens_loop env mkey (ids1 ++ ids2) (amounts1 ++ amounts2) s
  = _trackTokens_loop env mkey ids1 amounts1 s ≫= _trackTokens_loop env mkey ids2 amounts2.
Proof.
  revert amounts1 s. induction ids1 as [|id ids1 IH]; intros amounts1 s Hlen.
  - by destruct amounts1.
  - destruct amounts1 as [|a amounts1]; [done|]. simpl in Hlen. injection Hlen as Hlen.
    cbn [app _trackTokens_loop].
    destruct (if msg_sender env =? netAddress s then _ else _); simpl; [|done].
    destruct (SafeMath.add _ _); simpl; [|done].
    destruct (_addTokenAmounts _ _ _ _ _); simpl; [|done].
    by apply IH.
Qed.

(** The pair at position [i] fails the availability check once the pairs
    before it have passed. *)
Lemma _trackTokens_loop_insufficient_at env mkey tokenIds tokenAmounts s i tokenId amount :
  msg_sender env ≠ netAddress s →
  tokenIds !! i = Some tokenId → tokenAmounts !! i = Some amount →
  succeeds (_trackTokens_loop env mkey (take i tokenIds) (take i tokenAmounts) s) →
  running_lock s tokenIds tokenAmounts i tokenId ≤ net_getAvailable env tokenId →
  net_getAvailable env tokenId - running_lock s tokenIds tokenAmounts i tokenId < amount →
  _trackTokens_loop env mkey tokenIds tokenAmounts s = Revert InsufficientAvailable.
Proof.
  intros Hnet Hid Hamt [s1 Hprefix] Hle Hlt.
  rewrite <- (take_drop_middle tokenIds i tokenId Hid).
  rewrite <- (take_drop_middle tokenAmounts i amount Hamt).
  rewrite _trackTokens_loop_app.
  2:{ rewrite !length_take. apply lookup_lt_Some in Hid, Hamt. lia. }
  rewrite Hprefix. simpl mbind.
  pose proof (_trackTokens_loop_locked _ _ _ _ _ _ tokenId Hprefix) as [Hn Hl].
  change (result_bind _ _ (_trackTokens_loop env mkey (tokenId :: drop (S i) tokenIds)
                             (amount :: drop (S i) tokenAmounts)) (Ok s1))
    with (_trackTokens_loop env mkey (tokenId :: drop (S i) tokenIds)
            (amount :: drop (S i) tokenAmounts) s1).
  unfold running_lock in Hle, Hlt.
  apply _trackTokens_loop_head_insufficient; [by rewrite Hn|by rewrite Hl..].
Qed.

Lemma _trackTokens_running env trackerData tokenIds tokenAmounts s s' i tokenId amount :
  _trackTokens env trackerData tokenIds tokenAmounts s = Ok s' →
  msg_sender env ≠ netAddress s →
  tokenIds !! i = Some tokenId → tokenAmounts !! i = Some amount →
  running_lock s tokenIds tokenAmounts i tokenId + amount ≤ net_getAvailable env tokenId.
Proof.
  unfold _trackTokens. intros H. inv_ok H. by eapply _trackTokens_loop_running.
Qed.

Lemma _trackTokens_insufficient_at env trackerData tokenIds tokenAmounts s i tokenId amount :
  msg_sender env ≠ netAddress s →
  length tokenAmounts = length tokenIds →
  tokenIds !! i = Some tokenId → tokenAmounts !! i = Some amount →
  succeeds (_trackTokens env trackerData (take i tokenIds) (take i tokenAmounts) s) →
  running_lock s tokenIds tokenAmounts i tokenId ≤ net_getAvailable env tokenId →
  net_getAvailable env tokenId - running_lock s tokenIds tokenAmounts i tokenId < amount →
  _trackTokens env trackerData tokenIds tokenAmounts s = Revert InsufficientAvailable.
Proof.
  intros Hnet Hlen Hid Hamt [s1 Hprefix] Hle Hlt. unfold _trackTokens in *.
  cbv zeta in *. inv_ok Hprefix.
  cbn [mbind result_bind]. unfold len. rewrite Hlen, N.eqb_refl. cbn [mbind result_bind require].
  eapply _trackTokens_loop_insufficient_at; [done..|by eexists|done|done].
Qed.

Lemma _trackTokens_insufficient env trackerData tokenIds tokenAmounts s :
  _trackTokens env trackerData tokenIds tokenAmounts s = Revert InsufficientAvailable →
  msg_sender env ≠ netAddress s ∧
  ∃ i tokenId amount,
    tokenIds !! i = Some tokenId ∧ tokenAmounts !! i = Some amount ∧
    running_lock s tokenIds tokenAmounts i tokenId ≤ net_getAvailable env tokenId ∧
    net_getAvailable env tokenId - running_lock s tokenIds tokenAmounts i tokenId < amount.
Proof.
  unfold _trackTokens, trackeeIsIndustry, _isAuditor. intros H.
  destruct (net_isIndustry _ _); simpl in H; [|done].
  destruct (__isAuditor _ _ _); simpl in H; [|done].
  destruct (_ =? _); simpl in H; [|done].
  by apply _trackTokens_loop_insufficient in H.
Qed.

(** [track], with the tracker it creates named. *)
Lemma track_unfold env issuedTo trackee tokenIds tokenAmounts fromDate thruDate
    description metadata s :
  let id := Counters.increment (_numOfUniqueTrackers s) in
  track env issuedTo trackee tokenIds tokenAmounts fromDate thruDate description metadata s
  = _mint issuedTo id (_track env trackee s).1 ≫= λ s2,
      let s3 := set_dates_and_text id fromDate thruDate description metadata s2 in
      if 0 <? len tokenIds then _trackTokens env id tokenIds tokenAmounts s3 else Ok s3.
Proof.
  intros id. unfold track. destruct (_track_spec env trackee s) as (Hptr & _ & Hid & _).
  destruct (_track env trackee s) as [s1 ptr]. simpl in Hptr, Hid. subst ptr.
  fold id in Hid |- *. rewrite Hid. done.
Qed.

(** The storage [track] hands to [_trackTokens]. *)
Lemma track_before_tokens env issuedTo trackee fromDate thruDate description metadata s s2 :
  let id := Counters.increment (_numOfUniqueTrackers s) in
  let s3 := set_dates_and_text id fromDate thruDate description metadata s2 in
  _mint issuedTo id (_track env trackee s).1 = Ok s2 →
  lockedAmount s3 = lockedAmount s ∧
  netAddress s3 = netAddress s ∧
  (∀ t, __isAuditor env s3 t = __isAuditor env s t) ∧
  CarbonTrackerDetails.trackerId (_trackerData s3).[id] = id ∧
  CarbonTrackerDetails.trackee (_trackerData s3).[id] = trackee.
Proof.
  intros id s3 H.
  destruct (_track_spec env trackee s) as (_ & _ & Hid & _). fold id in Hid.
  pose proof (_track_frame env trackee s) as Hfr1.
  remember ((_track env trackee s).1) as s1 eqn:Hs1. clear Hs1.
  unfold _mint in H. inv_ok H. injection H as H. symmetry in H.
  pose proof (keeps_shape_set_dates_and_text id fromDate thruDate description metadata s2)
    as (_ & _ & Hf & Ht & _).
  pose proof (set_dates_and_text_frame id fromDate thruDate description metadata s2) as Hfr.
  cbv zeta in Hfr. fold s3 in Hfr, Hf, Ht.
  assert (CarbonTrackerDetails.trackerId (_trackerData s3).[id] = id ∧
          CarbonTrackerDetails.trackee (_trackerData s3).[id] = trackee) as Hrecord.
  { rewrite Hf, Ht, H. cbn [_trackerData with__owners]. by rewrite Hid. }
  clearbody s3.
  split; [same_field|]. split; [same_field|]. split; [|done].
  intros t. apply __isAuditor_frame; same_field.
Qed.

(** The storage [trackUpdate] hands to [_trackTokens]. *)
Lemma trackUpdate_before_tokens env trackerId fromDate thruDate description metadata s :
  let s3 := set_dates_and_text trackerId fromDate thruDate description metadata
              (update_trackerData trackerId
                 (CarbonTrackerDetails.with_dateUpdated (block_timestamp env)) s) in
  lockedAmount s3 = lockedAmount s ∧ netAddress s3 = netAddress s.
Proof. intros s3. unfold s3. by rewrite set_dates_and_text_frame. Qed.

(** * When the three updates succeed, exactly *)










(** * The properties of the specification *)

(** ** The running total of product amounts *)

(** Updating one existing product leaves [totalProductAmounts] as it was:
    the loop subtracts the new amount, not the product's old one, before it
    adds the new amount. *)
Lemma productsUpdate_existing_keeps_total env trackerId productId amount name unit unitAmount s s' :
  0 < productId →
  productsUpdate env trackerId [productId] [amount] [name] [unit] [unitAmount] s = Ok s' →
  CarbonTrackerDetails.totalProductAmounts (_trackerData s').[trackerId]
  = CarbonTrackerDetails.totalProductAmounts (_trackerData s).[trackerId] ∧
  ProductDetails.amount (_productData s').[productId] = amount.
Proof.
  intros Hpos H. unfold productsUpdate in H. inv_ok H. simpl in H.
  rewrite (proj2 (N.ltb_lt _ _) Hpos) in H. inv_ok H. inv_oks. simplify_eq.
  repeat match goal with
  | H : SafeMath.sub _ _ = Ok _ |- _ => apply sub_Ok in H as [-> ?]
  | H : SafeMath.add _ _ = Ok _ |- _ =>
      cbn in H; rewrite ?mget_insert_eq in H; cbn in H; apply add_Ok in H as [-> ?]
  end.
  cbn. rewrite !mget_insert_eq. cbn. split; [lia|done].
Qed.

(** C1 fails on the code: tracker 1 owns one product of amount 50; after a
    successful [productsUpdate] that sets the amount to 30 the products of
    the tracker sum to 30 while [totalProductAmounts] is still 50. Setting
    the amount to 80 instead reverts, on the subtraction of 80 from 50. *)
Theorem productsUpdate_total_goes_stale :
  let s := Example.with_product in
  let env := Example.env Example.auditor in
  let tx := transact env (ProductsUpdate 1 [1] [30] [Example.blank] [Example.blank]
                            [Example.blank]) s in
  ownedProductAmounts s 1 = 50 ∧
  CarbonTrackerDetails.totalProductAmounts (_trackerData s).[1] = 50 ∧
  tx.2 = Success ∧
  ownedProductAmounts tx.1 1 = 30 ∧
  CarbonTrackerDetails.totalProductAmounts (_trackerData tx.1).[1] = 50 ∧
  (transact env (ProductsUpdate 1 [1] [80] [Example.blank] [Example.blank]
                   [Example.blank]) s).2 = Failed Panic.
Proof. by vm_compute. Qed.


(** ** The audit state *)







(** ** Locked amounts *)

(** C3, as stated, fails in both halves. When a token id is submitted
    twice in one call, the locked amount grows by both amounts, not by the
    amount of either pair. And a call of a caller other than the ledger
    contract that submits more than [available - lockedAmount[tokenId]] does
    fail, but not always with the availability error: the checks made before
    the loop come first. Here 901 exceeds the 1000 - 100 that are left of
    token 1; on the audited tracker the call fails with the audit error, and
    from a caller who is no auditor with the auditor error. *)
Lemma track_tokens_counted_per_token_id :
  let s := Example.with_tracker in
  let tx := transact (Example.env Example.auditor)
              (TrackUpdate 1 [1; 1] [5; 7] 0 0 Example.blank Example.blank) s in
  (tx.2 = Success ∧
   (lockedAmount tx.1).[1] ≠ (lockedAmount s).[1] + 5 ∧
   (lockedAmount tx.1).[1] ≠ (lockedAmount s).[1] + 7) ∧
  (net_getAvailable (Example.env Example.auditor) 1 - (lockedAmount Example.audited).[1] < 901 ∧
   msg_sender (Example.env Example.auditor) ≠ netAddress Example.audited ∧
   (transact (Example.env Example.auditor)
      (TrackUpdate 1 [1] [901] 0 0 Example.blank Example.blank) Example.audited).2
   = Failed AlreadyAudited) ∧
  (net_getAvailable (Example.env Example.owner) 1 - (lockedAmount s).[1] < 901 ∧
   msg_sender (Example.env Example.owner) ≠ netAddress s ∧
   (transact (Example.env Example.owner)
      (TrackUpdate 1 [1] [901] 0 0 Example.blank Example.blank) s).2
   = Failed NotAuditor).
Proof. vm_compute. repeat split; done. Qed.

(** C3, amended: after a successful [track] or [trackUpdate] the locked
    amount of every token id is its value before the call plus the sum of
    the amounts submitted for that id in the call (the submitted amount when
    the id occurs once). The availability check is made pair by pair against
    the running lock, the lock before the call plus what the earlier pairs
    of the call submitted for the same id. A call from anyone but the ledger
    contract that submits, at any position, a pair whose amount exceeds the
    available amount minus the running lock reverts. It reverts with the
    insufficient-availability error when the call cut before that pair
    succeeds (for [track], which checks the trackee only when it is given
    tokens: and the trackee is an industry account and the caller an
    authorized auditor), the arrays have one length and the running lock
    does not exceed the available amount; and whenever a call reverts with
    that error, the caller is not the ledger contract and the call holds
    such a pair. *)
Theorem _trackTokens_locks env c tokenIds tokenAmounts s :
  tokens_of c = Some (tokenIds, tokenAmounts) →
  (∀ s' tokenId, run env c s = Ok s' →
     (lockedAmount s').[tokenId]
     = (lockedAmount s).[tokenId] + submitted tokenId tokenIds tokenAmounts) ∧
  (msg_sender env ≠ netAddress s →
   ∀ i tokenId amount,
     tokenIds !! i = Some tokenId → tokenAmounts !! i = Some amount →
     net_getAvailable env tokenId < running_lock s tokenIds tokenAmounts i tokenId + amount →
     reverts (run env c s)) ∧
  (msg_sender env ≠ netAddress s →
   ∀ i tokenId amount,
     length tokenAmounts = length tokenIds →
     tokenIds !! i = Some tokenId → tokenAmounts !! i = Some amount →
     succeeds (run env (with_tokens c (take i tokenIds) (take i tokenAmounts)) s) →
     token_checks env c s →
     running_lock s tokenIds tokenAmounts i tokenId ≤ net_getAvailable env tokenId →
     net_getAvailable env tokenId - running_lock s tokenIds tokenAmounts i tokenId < amount →
     run env c s = Revert InsufficientAvailable) ∧
  (run env c s = Revert InsufficientAvailable →
   msg_sender env ≠ netAddress s ∧
   ∃ i tokenId amount,
     tokenIds !! i = Some tokenId ∧ tokenAmounts !! i = Some amount ∧
     running_lock s tokenIds tokenAmounts i tokenId ≤ net_getAvailable env tokenId ∧
     net_getAvailable env tokenId - running_lock s tokenIds tokenAmounts i tokenId < amount).
Proof.
  intros Hc.
  assert (∀ i tokenId, tokenIds !! i = Some tokenId → (0 <? len tokenIds) = true) as Hsome.
  { intros i tokenId Hi. apply N.ltb_lt. apply lookup_lt_Some in Hi. unfold len. lia. }
  destruct c; try done; injection Hc as -> ->; simpl run; simpl token_checks.
  - (* track *)
    rewrite track_unfold.
    set (id := Counters.increment (_numOfUniqueTrackers s)).
    assert (∀ ids amounts,
              track env issuedTo trackee ids amounts fromDate thruDate description metadata s
              = _mint issuedTo id (_track env trackee s).1 ≫= λ s2,
                  let s3 := set_dates_and_text id fromDate thruDate description metadata s2 in
                  if 0 <? len ids then _trackTokens env id ids amounts s3 else Ok s3) as Hcut.
    { intros. apply track_unfold. }
    destruct (_mint issuedTo id (_track env trackee s).1) as [s2|e] eqn:Hmint.
    2:{ simpl. split; [done|]. split; [intros; by eexists|]. split.
        - intros Hnet i tokenId amount _ _ _ [sp Hp]. rewrite Hcut in Hp. done.
        - intros [= ->]. unfold _mint, require in Hmint.
          destruct (negb _); simpl in Hmint; [|done]. by destruct (_ =? 0). }
    destruct (track_before_tokens env issuedTo trackee fromDate thruDate description metadata
                s s2 Hmint) as (Hl & Hn & Ha & Hi & Ht).
    fold id in Hl, Hn, Ha, Hi, Ht. cbn [mbind result_bind]. cbv zeta.
    set (s3 := set_dates_and_text id fromDate thruDate description metadata s2) in *.
    split; [|split; [|split]].
    + intros s' tokenId H. destruct (N.ltb_spec 0 (len tokenIds)) as [Hlen|Hlen].
      * apply _trackTokens_locked with (tokenId := tokenId) in H. by rewrite H, Hl.
      * injection H as <-. rewrite Hl.
        assert (tokenIds = []) as -> by (apply len_nil_iff; lia). simpl. lia.
    + intros Hnet i tokenId amount Hid Hamt Hshort. rewrite (Hsome i tokenId Hid).
      apply not_succeeds_reverts. intros [s' H].
      eapply _trackTokens_running in H; [|by rewrite Hn|done..].
      rewrite (running_lock_frame s s3) in H by done. lia.
    + intros Hnet i tokenId amount Hlen Hid Hamt [sp Hp] [Hind Haud] Hle Hlt.
      rewrite (Hsome i tokenId Hid).
      rewrite Hcut in Hp. cbn [mbind result_bind] in Hp. cbv zeta in Hp. fold s3 in Hp.
      apply _trackTokens_insufficient_at with (i := i) (tokenId := tokenId) (amount := amount);
        rewrite ?Hn, ?(running_lock_frame s s3) by done; try done.
      destruct (N.ltb_spec 0 (len (take i tokenIds))) as [Hpos|Hzero]; [by eexists|].
      assert (take i tokenIds = []) as Hnil by (apply len_nil_iff; lia).
      assert (take i tokenAmounts = []) as Hnil'.
      { apply length_zero_iff_nil. apply (f_equal length) in Hnil.
        rewrite length_take in Hnil |- *. simpl in Hnil. lia. }
      rewrite Hnil, Hnil'. unfold _trackTokens, trackeeIsIndustry, _isAuditor.
      rewrite Hi, Ht, Hind, Ha, Haud. by eexists.
    + intros H. destruct (0 <? len tokenIds); [|done].
      apply _trackTokens_insufficient in H as [Hnet (i & tokenId & amount & Hid & Hamt & Hrun)].
      rewrite Hn in Hnet. split; [done|]. exists i, tokenId, amount.
      by rewrite (running_lock_frame s s3) in Hrun.
  - (* trackUpdate *)
    unfold trackUpdate.
    destruct (trackUpdate_before_tokens env trackerId fromDate thruDate description metadata s)
      as [Hl Hn]. cbv zeta in Hl, Hn.
    set (s3 := set_dates_and_text trackerId fromDate thruDate description metadata _) in *.
    destruct (notAudited trackerId s) as [[]|e] eqn:Hna; cbn [mbind result_bind].
    2:{ split; [done|]. split; [intros; by eexists|]. split; [|intros [= ->]; revert Hna;
          unfold notAudited, require; by destruct (_ =? 0)].
        intros Hnet i tokenId amount _ _ _ [sp Hp]. done. }
    destruct (_trackerExists s trackerId) as [[]|e] eqn:Hex; cbn [mbind result_bind].
    2:{ split; [done|]. split; [intros; by eexists|]. split; [|intros [= ->]; revert Hex;
          unfold _trackerExists, require; by destruct (_ <=? _)].
        intros Hnet i tokenId amount _ _ _ [sp Hp]. done. }
    split; [|split; [|split]].
    + intros s' tokenId H.
      apply _trackTokens_locked with (tokenId := tokenId) in H. by rewrite H, Hl.
    + intros Hnet i tokenId amount Hid Hamt Hshort.
      apply not_succeeds_reverts. intros [s' H].
      eapply _trackTokens_running in H; [|by rewrite Hn|done..].
      rewrite (running_lock_frame s s3) in H by done. lia.
    + intros Hnet i tokenId amount Hlen Hid Hamt Hp _ Hle Hlt.
      apply _trackTokens_insufficient_at with (i := i) (tokenId := tokenId) (amount := amount);
        rewrite ?Hn, ?(running_lock_frame s s3) by done; done.
    + intros H.
      apply _trackTokens_insufficient in H as [Hnet (i & tokenId & amount & Hid & Hamt & Hrun)].
      rewrite Hn in Hnet. split; [done|]. exists i, tokenId, amount.
      by rewrite (running_lock_frame s s3) in Hrun.
Qed.

Lemma _trackTokens_locks_witness :
  (lockedAmount Example.with_tracker).[1] = 100 ∧
  reverts (run (Example.env Example.auditor)
             (TrackUpdate 1 [1] [901] 0 0 Example.blank Example.blank) Example.with_tracker) ∧
  run (Example.env Example.auditor)
    (TrackUpdate 1 [3; 1] [5; 901] 0 0 Example.blank Example.blank) Example.with_tracker
  = Revert InsufficientAvailable.
Proof.
  destruct (_trackTokens_locks (Example.env Example.auditor)
              (Track Example.owner Example.industry [1] [100] 0 0 Example.blank Example.blank)
              [1] [100] Example.deployed eq_refl) as (Hlocked & _).
  destruct (_trackTokens_locks (Example.env Example.auditor)
              (TrackUpdate 1 [1] [901] 0 0 Example.blank Example.blank)
              [1] [901] Example.with_tracker eq_refl) as (_ & Hshort & _).
  destruct (_trackTokens_locks (Example.env Example.auditor)
              (TrackUpdate 1 [3; 1] [5; 901] 0 0 Example.blank Example.blank)
              [3; 1] [5; 901] Example.with_tracker eq_refl) as (_ & _ & Hwhich & _).
  split; [|split].
  - apply (Hlocked Example.with_tracker 1). by vm_compute.
  - apply (Hshort ltac:(by vm_compute) 0%nat 1 901); [done | done | by vm_compute].
  - apply (Hwhich ltac:(by vm_compute) 1%nat 1 901);
      [done | done | done | by vm_compute; eexists | done | by vm_compute | by vm_compute].
Defined.


(** ** Offset tokens *)

(** An offset (type 2) amount larger than the amount the tracker records
    for that token id makes the checked subtraction revert. *)
Lemma _addTokenAmounts_offset_underflow tokenData tokenId amountAdd index :
  (CarbonTrackerMappings.amount tokenData).[tokenId] < amountAdd →
  _addTokenAmounts tokenData tokenId amountAdd index 2 = Revert Panic.
Proof.
  intros Hlt. unfold _addTokenAmounts. simpl.
  unfold SafeMath.sub. by rewrite (proj2 (N.leb_gt _ _) Hlt).
Qed.

(** C4 fails on the code: tracking (token 1, 100, type 4) and
    (token 2, 30, type 2) onto a new tracker reverts, because the amounts are
    kept per token id and 30 is subtracted from the 0 recorded for token 2.
    With token 1 alone the total is 100, and adding the offset afterwards
    reverts as well, so a total of 70 is never reached. *)
Theorem offset_token_cannot_be_tracked :
  let env := Example.env Example.auditor in
  net_getTokenTypeId env 1 = 4 ∧ net_getTokenTypeId env 2 = 2 ∧
  track env Example.owner Example.industry [1; 2] [100; 30] 0 0 Example.blank Example.blank
    Example.deployed = Revert Panic ∧
  getTotalEmissions Example.with_tracker 1 1 = Returns (Ok 100) ∧
  transact env (TrackUpdate 1 [2] [30] 0 0 Example.blank Example.blank) Example.with_tracker
  = (Example.with_tracker, Failed Panic).
Proof. by vm_compute. Qed.


(** ** The lineage sets *)








(** ** Transferring a product *)





(** ** Tracking a product into a lineage *)





(** ** Creating a tracker: the array lengths *)

(** C8, as stated, fails: [track] looks at the token arrays only when
    [tokenIds] is not empty, so a call with no token ids and one token amount
    mints the tracker and succeeds although the two lengths differ. *)
Lemma track_without_tokens_ignores_amounts :
  len ([] : list N) ≠ len [7] ∧
  succeeds (track (Example.env Example.customer) Example.owner Example.industry [] [7] 0 0
              Example.blank Example.blank Example.deployed).
Proof. split; [done|]. eexists. vm_compute. reflexivity. Qed.

(** C8, amended: a call of [track] with a non-empty [tokenIds] and a
    [tokenAmounts] of another length always reverts; the revert is the
    length mismatch as soon as the checks made before it pass, that is the
    mint (a non-zero [issuedTo], a fresh token id), the industry check on the
    trackee and the auditor check on the caller. *)
Theorem track_length_mismatch env issuedTo trackee tokenIds tokenAmounts
    fromDate thruDate description metadata s :
  tokenIds ≠ [] →
  len tokenIds ≠ len tokenAmounts →
  reverts (track env issuedTo trackee tokenIds tokenAmounts
             fromDate thruDate description metadata s) ∧
  (issuedTo ≠ 0 →
   (_owners s).[Counters.increment (_numOfUniqueTrackers s)] = 0 →
   net_isIndustry env trackee = true →
   __isAuditor env s trackee = true →
   track env issuedTo trackee tokenIds tokenAmounts fromDate thruDate description metadata s
   = Revert LengthMismatch).
Proof.
  intros Hne Hlen.
  assert (Hpos : (0 <? len tokenIds) = true).
  { apply N.ltb_lt. destruct tokenIds; [done|]. unfold len. simpl. lia. }
  split.
  - unfold track. simpl.
    destruct (_mint _ _ _) as [s1|e]; simpl; [|by eexists].
    rewrite Hpos. by apply _trackTokens_length_mismatch.
  - intros Hto Hfresh Hind Haud. unfold track. simpl.
    unfold _mint, Counters.current in *.
    cbn [_owners with__numOfUniqueTrackers update_trackerData with__trackerData
         _trackerData _numOfUniqueTrackers].
    rewrite !mget_insert_eq. cbn.
    destruct (N.eqb_spec issuedTo 0) as [|_]; [done|]. simpl.
    rewrite Hfresh. simpl. rewrite Hpos.
    unfold _trackTokens, trackeeIsIndustry, _isAuditor, set_dates_and_text.
    assert (Hlen' : (len tokenAmounts =? len tokenIds) = false)
      by (apply N.eqb_neq; congruence).
    destruct (0 <? fromDate), (0 <? thruDate), (0 <? String.length description)%nat,
      (0 <? String.length metadata)%nat; cbn;
      rewrite ?mget_insert_eq; cbn; rewrite ?mget_insert_eq; cbn; rewrite Hind; cbn;
      (erewrite __isAuditor_frame; [rewrite Haud|done..]); cbn; by rewrite Hlen'.
Qed.

Lemma track_length_mismatch_witness :
  track (Example.env Example.auditor) Example.owner Example.industry [1; 2] [100] 0 0
    Example.blank Example.blank Example.deployed = Revert LengthMismatch.
Proof.
  apply (track_length_mismatch (Example.env Example.auditor) Example.owner Example.industry
           [1; 2] [100] 0 0 Example.blank Example.blank Example.deployed);
    [done | done | done | reflexivity | reflexivity | reflexivity].
Defined.


(** ** The emissions factor *)

(** C9, as stated, fails: with a positive [totalProductAmounts] the
    factor is not always returned. On [Heavy.with_product], a reachable
    storage, tracker 1 holds 2^255 of the emissions token and products of
    weight 50: [getTotalEmissions] returns 2^255, and [emissionsFactor]
    reverts in the checked multiplication by 1000000. On
    [SelfSource.tracked], a reachable storage as well, tracker 2 is its own
    source and [emissionsFactor] returns no value, whatever gas it is
    given. *)
Lemma emissionsFactor_reverts_or_does_not_return :
  (reachable Heavy.with_product ∧
   CarbonTrackerDetails.totalProductAmounts (_trackerData Heavy.with_product).[1] = 50 ∧
   getTotalEmissions Heavy.with_product 1 1 = Returns (Ok (2 ^ 255)) ∧
   emissionsFactor Heavy.with_product 1 1 = Returns (Revert Panic)) ∧
  (reachable SelfSource.tracked ∧
   CarbonTrackerDetails.totalProductAmounts (_trackerData SelfSource.tracked).[2] = 10 ∧
   ∀ fuel, never_answers (emissionsFactor SelfSource.tracked fuel 2)).
Proof.
  split.
  - split; [apply reachable_transact_all, reachable_deployed|]. by vm_compute.
  - split; [apply reachable_transact_all, reachable_handed_over|]. split; [by vm_compute|].
    intros fuel. unfold emissionsFactor, emissionsFactor_with.
    assert ((0 <? CarbonTrackerDetails.totalProductAmounts
                    (_trackerData SelfSource.tracked).[2]) = true) as -> by (by vm_compute).
    apply never_answers_bind_l, getTotalEmissions_never.
    + vm_compute. constructor.
    + by vm_compute.
    + by vm_compute.
Qed.

(** C9, amended: [emissionsFactor] returns 0 when the tracker's
    [totalProductAmounts] is 0, whatever its emissions are (even if
    [getTotalEmissions] would revert or not return). When the total is
    positive, the call is the call of [getTotalEmissions] followed by the
    checked multiplication by 1000000 and the integer division by the total:
    it returns [totalEmissions * 1000000 / totalProductAmounts] when
    [getTotalEmissions] returns [totalEmissions] and the product fits a
    uint256 (given at least the gas [getTotalEmissions] needed), reverts when
    the product does not fit or when [getTotalEmissions] reverts, and does
    not return when [getTotalEmissions] does not. *)
Theorem emissionsFactor_spec s fuel trackerId totalEmissions :
  reachable s →
  let total := CarbonTrackerDetails.totalProductAmounts (_trackerData s).[trackerId] in
  (total = 0 → emissionsFactor s fuel trackerId = Returns (Ok 0)) ∧
  (0 < total →
   getTotalEmissions s fuel trackerId = Returns (Ok totalEmissions) →
   ∀ fuel', (fuel ≤ fuel')%nat →
     emissionsFactor s fuel' trackerId
     = Returns (if totalEmissions * 1000000 <=? UINT256_MAX
                then Ok (totalEmissions * 1000000 / total) else Revert Panic)) ∧
  (0 < total →
   emissionsFactor s fuel trackerId
   = getTotalEmissions s fuel trackerId ≫= λ e,
       Returns (if e * 1000000 <=? UINT256_MAX
                then Ok (e * 1000000 / total) else Revert Panic)).
Proof.
  intros Hs total. apply reachable_ok in Hs as (Hd & _).
  assert (∀ e, 0 < total →
            (SafeMath.mul e (decimalsEf s) ≫= λ x, SafeMath.div x total)
            = if e * 1000000 <=? UINT256_MAX
              then Ok (e * 1000000 / total) else Revert Panic) as Hcalc.
  { intros e Hpos. rewrite Hd. unfold SafeMath.mul.
    destruct (_ <=? UINT256_MAX); simpl; [|done].
    unfold SafeMath.div. by rewrite (proj2 (N.eqb_neq total 0)) by lia. }
  unfold emissionsFactor, emissionsFactor_with. fold total. split; [|split].
  - intros ->. done.
  - intros Hpos Hte fuel' Hfuel.
    apply (getTotalEmissions_fuel_mono s fuel fuel' trackerId _ Hfuel) in Hte.
    rewrite (proj2 (N.ltb_lt _ _) Hpos), Hte. simpl. by rewrite <- Hcalc.
  - intros Hpos. rewrite (proj2 (N.ltb_lt _ _) Hpos).
    destruct (getTotalEmissions s fuel trackerId) as [[e|err]|]; simpl; [|done|done].
    by rewrite <- Hcalc.
Qed.

Lemma emissionsFactor_spec_witness :
  emissionsFactor Example.with_product 1 1 = Returns (Ok 2000000).
Proof.
  destruct (emissionsFactor_spec Example.with_product 1 1 100 reachable_with_product)
    as (_ & H & _).
  apply H; [by vm_compute | by vm_compute | done].
Defined.


(** ** Updating a tracker *)

(** C10: a call of [trackUpdate] that succeeds, with whatever token arrays
    (two empty arrays included), was made by an authorized auditor of the
    tracker's trackee, and that trackee is an industry account. *)
Theorem trackUpdate_requires_auditor_and_industry env trackerId tokenIds tokenAmounts
    fromDate thruDate description metadata s :
  reachable s →
  succeeds (trackUpdate env trackerId tokenIds tokenAmounts
              fromDate thruDate description metadata s) →
  let trackee := CarbonTrackerDetails.trackee (_trackerData s).[trackerId] in
  __isAuditor env s trackee = true ∧ net_isIndustry env trackee = true.
Proof.
  intros Hs [s' H] trackee. apply reachable_ok in Hs as (_ & _ & Hid & _).
  unfold trackUpdate in H. inv_ok H.
  apply require_Ok, N.leb_le in Hx0. apply Hid in Hx0.
  set (s1 := update_trackerData trackerId _ s) in H.
  set (s2 := set_dates_and_text _ _ _ _ _ s1) in H.
  assert (keeps_shape s s2) as (_ & _ & Htid & Htrackee & _).
  { eapply keeps_shape_trans; [|apply keeps_shape_set_dates_and_text].
    by apply keeps_shape_update_trackerData. }
  unfold _trackTokens in H. inv_ok H.
  unfold trackeeIsIndustry in Hx1. apply require_Ok in Hx1.
  unfold _isAuditor in Hx2. apply require_Ok in Hx2.
  rewrite !Htid, !Htrackee, Hx0 in *.
  split; [|done]. rewrite <- Hx2. symmetry. apply __isAuditor_frame.
  all: subst s2; rewrite set_dates_and_text_frame; done.
Qed.

Lemma trackUpdate_requires_auditor_and_industry_witness :
  __isAuditor (Example.env Example.auditor) Example.with_tracker Example.industry = true.
Proof.
  apply (trackUpdate_requires_auditor_and_industry (Example.env Example.auditor) 1 [] [] 0 0
           Example.blank Example.blank Example.with_tracker reachable_with_tracker).
  eexists. by vm_compute.
Defined.

(** * Further properties of the contract *)

(** ** Write sets *)

(** X1: whatever a transaction does, it changes only the storage
    variables of its call: [track] the tracker counter, the tracker records
    and mappings, the token owners and the locked amounts; [trackUpdate] the
    tracker records and mappings and the locked amounts; [productsUpdate]
    the product counter and records and the tracker records and mappings;
    [transferProduct] the product records and balances; [trackProduct] the
    balances and the tracker mappings; [audit] and [removeAudit] the tracker
    records; [approveVerifier] the approvals; a token transfer the owners;
    the role calls the roles. In particular no call changes [netAddress],
    [decimalsEf] or [approvedAuditorsOnly]. *)
Theorem transact_writes_only env c s :
  let s' := (transact env c s).1 in
  writes_only c s s' ∧
  netAddress s' = netAddress s ∧
  decimalsEf s' = decimalsEf s ∧
  approvedAuditorsOnly s' = approvedAuditorsOnly s.
Proof.
  assert (writes_only c s (transact env c s).1) as Hw.
  { unfold transact. destruct (run env c s) eqn:H;
      [by eapply run_writes_only|apply writes_only_refl]. }
  cbv zeta. split; [done|].
  destruct c; simpl in Hw; repeat split; same_field.
Qed.

(** ** Locked amounts are never released *)

(** X2: no transaction lowers the locked amount of a token, and only
    [track] and [trackUpdate] change the locked amounts at all: the contract
    has no way to release what was locked. *)
Theorem lockedAmount_never_released env c s tokenId :
  let s' := (transact env c s).1 in
  (lockedAmount s).[tokenId] ≤ (lockedAmount s').[tokenId] ∧
  (tokens_of c = None → lockedAmount s' = lockedAmount s).
Proof.
  cbv zeta. unfold transact. destruct (run env c s) as [s'|e] eqn:H; [|done]. cbn [fst].
  pose proof (run_writes_only _ _ _ _ H) as Hw.
  assert (tokens_of c = None → lockedAmount s' = lockedAmount s) as Hnone.
  { intros Hc. destruct c; try done; simpl in Hw; same_field. }
  split; [|done].
  destruct c; try (rewrite Hnone by done; lia); clear Hnone Hw; simpl in H.
  - unfold track in H. pose proof (_track_frame env trackee s) as H1.
    destruct (_track env trackee s) as [s1 ptr]. simpl in H1.
    inv_ok H. unfold _mint in Hx. inv_ok Hx. injection Hx as Hx.
    pose proof (set_dates_and_text_frame ptr fromDate thruDate description metadata x) as H2.
    cbv zeta in H2.
    remember (set_dates_and_text ptr fromDate thruDate description metadata x) as s3 eqn:Hs3.
    clear Hs3.
    assert (lockedAmount s3 = lockedAmount s) as <- by same_field.
    destruct (0 <? len tokenIds).
    + apply _trackTokens_locked with (tokenId := tokenId) in H. lia.
    + injection H as <-. lia.
  - unfold trackUpdate in H. inv_ok H.
    apply _trackTokens_locked with (tokenId := tokenId) in H.
    rewrite set_dates_and_text_frame in H. cbn in H. lia.
Qed.

(** ** One tracker per call *)

(** X3: on a reachable storage a transaction changes the record and the
    mappings of at most one tracker, the one its call names: the tracker
    [track] creates, or the tracker id given to [trackUpdate],
    [productsUpdate], [trackProduct], [audit] or [removeAudit]. Every other
    tracker reads as before. *)
Theorem call_touches_one_tracker env c s k :
  reachable s → tracker_of c s ≠ Some k →
  let s' := (transact env c s).1 in
  (_trackerData s').[k] = (_trackerData s).[k] ∧
  (_trackerMappings s').[k] = (_trackerMappings s).[k].
Proof.
  intros Hs Hk. cbv zeta. unfold transact.
  destruct (run env c s) as [s'|e] eqn:H; [|done].
  by eapply run_other_tracker; [apply reachable_ok| |].
Qed.

Lemma call_touches_one_tracker_witness :
  let s := Example.handed_over in
  let s' := (transact (Example.env Example.auditor)
               (TrackUpdate 2 [1] [5] 0 0 Example.blank Example.blank) s).1 in
  (_trackerData s').[1] = (_trackerData s).[1] ∧
  (_trackerMappings s').[1] = (_trackerMappings s).[1].
Proof.
  apply (call_touches_one_tracker (Example.env Example.auditor)
           (TrackUpdate 2 [1] [5] 0 0 Example.blank Example.blank) Example.handed_over 1);
    [apply reachable_handed_over | done].
Defined.

(** ** An audited tracker is frozen *)

(** X4: on a reachable storage, once a created tracker (an id from 1 to
    the counter) is audited, no transaction other than [removeAudit] of that
    tracker changes its record or its mappings: its tokens and amounts, its
    product list and total, its lineage, its dates and texts and its auditor
    stay as the auditor signed them. *)
Theorem audited_tracker_is_frozen env c s k :
  reachable s →
  0 < k ≤ _numOfUniqueTrackers s →
  CarbonTrackerDetails.auditor (_trackerData s).[k] ≠ 0 →
  c ≠ RemoveAudit k →
  let s' := (transact env c s).1 in
  (_trackerData s').[k] = (_trackerData s).[k] ∧
  (_trackerMappings s').[k] = (_trackerMappings s).[k].
Proof.
  intros Hs [Hpos Hk] Haud Hc. cbv zeta. unfold transact.
  destruct (run env c s) as [s'|e] eqn:H; [|done]. cbn [fst].
  apply reachable_ok in Hs.
  eapply run_other_tracker; [done..|].
  assert (∀ t, notAudited t s = Ok tt → t ≠ k) as Hna.
  { intros t Ht ->. by apply require_Ok, N.eqb_eq in Ht. }
  destruct c; simpl in H |- *; try done; intros [= Heq].
  - destruct Hs as (_ & Hmax & _). unfold Counters.increment in Heq.
    destruct (decide (_numOfUniqueTrackers s + 1 < UINT256_MAX + 1)) as [Hlt|Hge].
    + rewrite N.mod_small in Heq by done. lia.
    + assert (_numOfUniqueTrackers s + 1 = UINT256_MAX + 1) as Hw by lia.
      rewrite Hw, N.Div0.mod_same in Heq. lia.
  - unfold trackUpdate in H. inv_ok H. destruct x. by eapply Hna.
  - unfold productsUpdate in H. inv_ok H. destruct x. by eapply Hna.
  - unfold trackProduct in H. inv_ok H. destruct x. by eapply Hna.
  - unfold audit in H. inv_ok H. destruct x. by eapply Hna.
  - by subst.
Qed.

Lemma audited_tracker_is_frozen_witness :
  let s := Example.handed_over in
  let s' := (transact (Example.env Example.owner) (TransferProduct 1 5 Example.customer) s).1 in
  (_trackerData s').[1] = (_trackerData s).[1] ∧
  (_trackerMappings s').[1] = (_trackerMappings s).[1].
Proof.
  apply (audited_tracker_is_frozen (Example.env Example.owner)
           (TransferProduct 1 5 Example.customer) Example.handed_over 1);
    [apply reachable_handed_over | by vm_compute | by vm_compute | done].
Defined.

(** ** The pool of a product *)

(** X5: on every reachable storage the pool of a product, as
    [getProductDetails] returns it, is at most the product's amount:
    [productsUpdate] sets both to the submitted amount and
    [transferProduct] only draws from the pool. *)
Theorem available_within_amount s productId :
  reachable s →
  let '(_, amount, available) := getProductDetails s productId in
  available ≤ amount.
Proof. intros Hs. apply (reachable_pools_ok s Hs productId). Qed.

Lemma available_within_amount_witness :
  let '(_, amount, available) := getProductDetails Example.handed_over 1 in
  available ≤ amount.
Proof. apply (available_within_amount Example.handed_over 1), reachable_handed_over. Defined.

(** ** The owners of the trackers *)

(** X6: on every reachable storage every created tracker (an id from 1 to
    the counter) has an owner: [ownerOf] does not revert for it, whatever
    transfers of the tracker token took place. *)
Theorem created_tracker_has_owner s trackerId :
  reachable s →
  0 < trackerId ≤ getNumOfUniqueTrackers s →
  ∃ owner, ownerOf s trackerId = Ok owner ∧ owner ≠ 0.
Proof.
  intros Hs Hk. exists (_owners s).[trackerId].
  pose proof (reachable_owners_ok s Hs trackerId Hk) as Ho.
  split; [|done]. by apply ownerOf_Ok.
Qed.

Lemma created_tracker_has_owner_witness :
  ∃ owner, ownerOf Example.handed_over 2 = Ok owner ∧ owner ≠ 0.
Proof.
  apply (created_tracker_has_owner Example.handed_over 2);
    [apply reachable_handed_over | by vm_compute].
Defined.

(** ** The tokens of a tracker *)

(** X7: on every reachable storage the token list that
    [getTrackerTokenDetails] and [getTokenAmounts] return for a tracker has
    no duplicates, each amount returned is the recorded amount of the token
    at its position, and every token with a non-zero recorded amount is in
    the list: each such token is reported exactly once. *)
Theorem getTrackerTokenDetails_each_token_once s trackerId :
  reachable s →
  let '(tokenIds, tokenAmounts) := getTrackerTokenDetails s trackerId in
  let amount := CarbonTrackerMappings.amount (_trackerMappings s).[trackerId] in
  getTokenAmounts s trackerId = (tokenIds, tokenAmounts) ∧
  tokenIds = getTokenIds s trackerId ∧
  NoDup tokenIds ∧
  (∀ i tokenId, tokenIds !! i = Some tokenId → tokenAmounts !! i = Some amount.[tokenId]) ∧
  (∀ tokenId, 0 < amount.[tokenId] → tokenId ∈ tokenIds).
Proof.
  intros Hs. destruct (reachable_tokens_ok s trackerId Hs) as [Hidx Hamt].
  unfold getTrackerTokenDetails, getTokenAmounts, getTokenIds. cbv zeta.
  split; [done|]. split; [done|]. split; [by eapply indexed_NoDup|]. split.
  - intros i tokenId Hi. by rewrite list_lookup_fmap, Hi.
  - intros tokenId Hpos. apply Hamt in Hpos. destruct Hidx as [_ Hin].
    apply Hin in Hpos. by eapply list_elem_of_lookup_2.
Qed.

Lemma getTrackerTokenDetails_each_token_once_witness :
  let '(tokenIds, tokenAmounts) := getTrackerTokenDetails Example.with_product 1 in
  let amount := CarbonTrackerMappings.amount (_trackerMappings Example.with_product).[1] in
  getTokenAmounts Example.with_product 1 = (tokenIds, tokenAmounts) ∧
  tokenIds = getTokenIds Example.with_product 1 ∧
  NoDup tokenIds ∧
  (∀ i tokenId, tokenIds !! i = Some tokenId → tokenAmounts !! i = Some amount.[tokenId]) ∧
  (∀ tokenId, 0 < amount.[tokenId] → tokenId ∈ tokenIds).
Proof.
  apply (getTrackerTokenDetails_each_token_once Example.with_product 1), reachable_with_product.
Defined.

(** ** The emissions of a tracker without sources *)

(** X8: for a tracker with no source trackers [getTotalEmissions] needs no
    nested call: it returns the sum of the amounts that
    [getTrackerTokenDetails] lists, and reverts (checked addition) when that
    sum exceeds a uint256; [getTrackerDetails] returns the tracker record,
    that sum and the tracker's product list, or reverts likewise. *)
Theorem emissions_without_sources s fuel trackerId :
  getTrackerIds s trackerId = [] →
  let total := total_of (getTrackerTokenDetails s trackerId).2 in
  getTotalEmissions s (S fuel) trackerId
  = Returns (if total <=? UINT256_MAX then Ok total else Revert Panic) ∧
  getTrackerDetails s fuel trackerId
  = Returns (if total <=? UINT256_MAX
             then Ok ((_trackerData s).[trackerId], total,
                      CarbonTrackerMappings.productIds (_trackerMappings s).[trackerId])
             else Revert Panic).
Proof.
  unfold getTrackerIds. intros Hnil. cbv zeta.
  unfold getTrackerDetails, getTrackerTokenDetails. cbn [snd getTotalEmissions].
  unfold _getTotalEmissions. rewrite Hnil, sum_token_amounts_spec by done. cbv zeta.
  rewrite N.add_0_l. by destruct (_ <=? UINT256_MAX).
Qed.

Lemma emissions_without_sources_witness :
  getTotalEmissions Example.with_product 1 1 = Returns (Ok 100) ∧
  getTrackerDetails Example.with_product 0 1
  = Returns (Ok ((_trackerData Example.with_product).[1], 100,
                 CarbonTrackerMappings.productIds (_trackerMappings Example.with_product).[1])).
Proof.
  apply (emissions_without_sources Example.with_product 0 1). by vm_compute.
Defined.

(** ** The auditor check *)

(** X9: no call writes [approvedAuditorsOnly], so on every reachable
    storage the auditor check passes exactly when the caller is an auditor
    of the emissions ledger or the ledger contract itself, whatever the
    trackee; the approvals recorded by [approveVerifier] never change its
    answer. *)
Theorem auditor_check_ignores_approvals env s _trackee :
  reachable s →
  __isAuditor env s _trackee
  = (net_isAuditor env (msg_sender env) || (msg_sender env =? netAddress s)) ∧
  ∀ env' verifier approve s',
    approveVerifier env' verifier approve s = Ok s' →
    __isAuditor env s' _trackee = __isAuditor env s _trackee.
Proof.
  intros Hs. pose proof (reachable_ok s Hs) as (_ & _ & _ & _ & Hnone).
  assert (∀ st, approvedAuditorsOnly st = ∅ →
            __isAuditor env st _trackee
            = (net_isAuditor env (msg_sender env) || (msg_sender env =? netAddress st))) as Hany.
  { intros st Hst. unfold __isAuditor. rewrite Hst, !mget_empty. cbn.
    by rewrite andb_true_r. }
  split; [by apply Hany|].
  intros env' verifier approve s' H. unfold approveVerifier in H. inv_ok H.
  injection H as <-. by rewrite !Hany.
Qed.

Lemma auditor_check_ignores_approvals_witness :
  __isAuditor (Example.env Example.auditor) Example.handed_over Example.industry = true.
Proof.
  destruct (auditor_check_ignores_approvals (Example.env Example.auditor) Example.handed_over
              Example.industry reachable_handed_over) as [-> _].
  by vm_compute.
Defined.

(** ** Creating a tracker *)

(** X10: any address can create a tracker, but only an auditor can
    create one with tokens. [track] reverts when the recipient is the zero
    address or the next id already has an owner; with an empty token list it
    succeeds for every caller and trackee otherwise. A successful call gives
    the tracker the next value of the counter as its id, makes the recipient
    its owner and records the trackee; when it was given tokens, the trackee
    is an industry account and the caller passed the auditor check. *)
Theorem track_creates_tracker env issuedTo trackee tokenIds tokenAmounts fromDate thruDate
    description metadata s :
  let id := Counters.increment (_numOfUniqueTrackers s) in
  let call := track env issuedTo trackee tokenIds tokenAmounts fromDate thruDate
                description metadata s in
  (issuedTo = 0 → call = Revert ERC721MintToZeroAddress) ∧
  (issuedTo ≠ 0 → (_owners s).[id] ≠ 0 → call = Revert ERC721AlreadyMinted) ∧
  (issuedTo ≠ 0 → (_owners s).[id] = 0 → tokenIds = [] → succeeds call) ∧
  (∀ s', call = Ok s' →
     getNumOfUniqueTrackers s' = id ∧
     ownerOf s' id = Ok issuedTo ∧
     (∀ k, k ≠ id → (_owners s').[k] = (_owners s).[k]) ∧
     CarbonTrackerDetails.trackerId (_trackerData s').[id] = id ∧
     CarbonTrackerDetails.trackee (_trackerData s').[id] = trackee ∧
     (tokenIds ≠ [] → net_isIndustry env trackee = true ∧ __isAuditor env s trackee = true)).
Proof.
  intros id call.
  assert (call = (_mint issuedTo id (_track env trackee s).1 ≫= λ s2,
            let s3 := set_dates_and_text id fromDate thruDate description metadata s2 in
            if 0 <? len tokenIds then _trackTokens env id tokenIds tokenAmounts s3 else Ok s3))
    as Hcall.
  { unfold call, track. destruct (_track_spec env trackee s) as (Hptr & _ & Hid & _).
    destruct (_track env trackee s) as [s1 ptr]. simpl in Hptr, Hid. subst ptr.
    fold id in Hid |- *. rewrite Hid. done. }
  assert (_owners (_track env trackee s).1 = _owners s) as Ho.
  { pose proof (_track_frame env trackee s) as Hfr. same_field. }
  split; [|split; [|split]].
  - intros ->. rewrite Hcall. done.
  - intros Hto Hminted. rewrite Hcall. unfold _mint.
    rewrite (proj2 (N.eqb_neq _ _) Hto), Ho, (proj2 (N.eqb_neq _ _) Hminted). done.
  - intros Hto Hfree ->. rewrite Hcall. unfold _mint.
    rewrite (proj2 (N.eqb_neq _ _) Hto), Ho, Hfree. by eexists.
  - intros s' H. apply track_Ok in H as (Hto & _ & Hown & Hnum & Hi & Ht & Hchecks).
    fold id in Hown, Hnum, Hi, Ht.
    split; [done|]. split; [|split; [|done]].
    + apply ownerOf_Ok. by rewrite Hown, mget_insert_eq.
    + intros k Hne. by rewrite Hown, mget_insert_ne.
Qed.

Lemma track_creates_tracker_witness :
  let s := Example.audited in
  track (Example.env Example.customer) 0 Example.industry [] [] 0 0 Example.blank Example.blank s
  = Revert ERC721MintToZeroAddress ∧
  succeeds (track (Example.env Example.customer) Example.customer Example.industry [] [] 0 0
              Example.blank Example.blank s).
Proof.
  destruct (track_creates_tracker (Example.env Example.customer) 0 Example.industry [] [] 0 0
              Example.blank Example.blank Example.audited) as (Hzero & _).
  destruct (track_creates_tracker (Example.env Example.customer) Example.customer Example.industry
              [] [] 0 0 Example.blank Example.blank Example.audited) as (_ & _ & Hok & _).
  split; [by apply Hzero|]. apply Hok; by vm_compute.
Defined.

(** ** Audit and its removal *)

(** X11: [removeAudit] undoes [audit] exactly: after a successful [audit]
    followed by a successful [removeAudit] of the same tracker, by whichever
    authorized auditor, every tracker record reads as before the audit and
    no other storage variable has changed; the contract keeps no trace of
    the audit. *)
Theorem audit_then_removeAudit env env' trackerId s s1 s2 :
  audit env trackerId s = Ok s1 →
  removeAudit env' trackerId s1 = Ok s2 →
  (∀ k, (_trackerData s2).[k] = (_trackerData s).[k]) ∧
  s2 = with__trackerData (_trackerData s2) s.
Proof.
  intros H1 H2. unfold audit in H1. inv_ok H1. injection H1 as <-.
  unfold removeAudit in H2. inv_ok H2. injection H2 as <-.
  apply require_Ok, N.eqb_eq in Hx.
  rewrite update_trackerData_twice. split; [|by destruct s].
  intros k. rewrite update_trackerData_get. case_decide; [subst k|done].
  cbn. destruct ((_trackerData s).[trackerId]). cbn in *. by subst.
Qed.

Lemma audit_then_removeAudit_witness :
  let s := Example.with_product in
  let s2 := transact_all [(Example.env Example.auditor, Audit 1);
                          (Example.env Example.auditor, RemoveAudit 1)] s in
  (∀ k, (_trackerData s2).[k] = (_trackerData s).[k]) ∧
  s2 = with__trackerData (_trackerData s2) s.
Proof.
  apply (audit_then_removeAudit (Example.env Example.auditor) (Example.env Example.auditor) 1
           Example.with_product
           (transact (Example.env Example.auditor) (Audit 1) Example.with_product).1);
    by vm_compute.
Defined.

(** ** The totals of [productsUpdate] *)

(** X12: a successful [productsUpdate] raises the tracker's
    [totalProductAmounts] by exactly the amounts of the products it creates
    (the positions with product id 0), whatever amounts it writes to
    existing products, and appends the ids of the created products, taken
    from the product counter, to the tracker's product list. *)
Theorem productsUpdate_totals env trackerId productIds productAmounts
    productNames productUnits productUnitAmounts s s' :
  productsUpdate env trackerId productIds productAmounts
    productNames productUnits productUnitAmounts s = Ok s' →
  CarbonTrackerDetails.totalProductAmounts (_trackerData s').[trackerId]
  = CarbonTrackerDetails.totalProductAmounts (_trackerData s).[trackerId]
    + newProductAmounts productIds productAmounts ∧
  CarbonTrackerMappings.productIds (_trackerMappings s').[trackerId]
  = CarbonTrackerMappings.productIds (_trackerMappings s).[trackerId]
    ++ created (getNumOfProducts s) productIds.
Proof.
  unfold productsUpdate. intros H. inv_ok H. by apply productsUpdate_loop_totals in H.
Qed.

Lemma productsUpdate_totals_witness :
  let s := Example.with_product in
  let s' := (transact (Example.env Example.auditor)
               (ProductsUpdate 1 [1; 0] [30; 7] [Example.blank; Example.blank]
                  [Example.blank; Example.blank] [Example.blank; Example.blank]) s).1 in
  CarbonTrackerDetails.totalProductAmounts (_trackerData s').[1]
  = CarbonTrackerDetails.totalProductAmounts (_trackerData s).[1] + 7 ∧
  CarbonTrackerMappings.productIds (_trackerMappings s').[1]
  = CarbonTrackerMappings.productIds (_trackerMappings s).[1] ++ [2].
Proof.
  apply (productsUpdate_totals (Example.env Example.auditor) 1 [1; 0] [30; 7]
           [Example.blank; Example.blank] [Example.blank; Example.blank]
           [Example.blank; Example.blank] Example.with_product).
  by vm_compute.
Defined.

(** ** A tracker that is its own source *)

(** X13: [trackProduct] rejects a product of the tracker itself but does
    not look at [sourceTrackerId]. On a reachable storage where a tracker
    with a positive [totalProductAmounts] lists itself among its source
    trackers, [getTotalEmissions], [emissionsFactor] and [getTrackerDetails]
    of that tracker return no value, whatever gas they are given: the
    recursion between the first two has no end. *)
Theorem self_sourced_tracker_never_answers s fuel trackerId :
  reachable s →
  trackerId ∈ getTrackerIds s trackerId →
  0 < CarbonTrackerDetails.totalProductAmounts (_trackerData s).[trackerId] →
  never_answers (getTotalEmissions s fuel trackerId) ∧
  never_answers (emissionsFactor s fuel trackerId) ∧
  never_answers (getTrackerDetails s fuel trackerId).
Proof.
  intros Hs Hin Hpos. unfold getTrackerIds in Hin.
  assert (ProductsTracked.productIds
            (CarbonTrackerMappings.productsTracked (_trackerMappings s).[trackerId]).[trackerId]
          ≠ []) as Hne.
  { apply reachable_ok in Hs as (_ & _ & _ & Hl & _).
    destruct (Hl trackerId) as ([Hidx _] & _ & Hsets).
    apply list_elem_of_lookup in Hin as [i Hi]. apply Hidx in Hi.
    apply Hsets. lia. }
  assert (∀ n, never_answers (emissionsFactor s n trackerId)) as Hef.
  { intros n. unfold emissionsFactor, emissionsFactor_with.
    rewrite (proj2 (N.ltb_lt _ _) Hpos).
    by apply never_answers_bind_l, getTotalEmissions_never. }
  split; [by apply getTotalEmissions_never|]. split; [done|].
  unfold getTrackerDetails. apply never_answers_bind_l.
  unfold _getTotalEmissions. apply never_answers_bind_r. intros t.
  by apply sum_tracked_trackers_never with (source := trackerId).
Qed.

Lemma self_sourced_tracker_never_answers_witness :
  (transact (Example.env Example.customer) (TrackProduct 2 2 1 20)
     (transact (Example.env Example.auditor)
        (ProductsUpdate 2 [0] [10] [Example.blank] [Example.blank] [Example.blank])
        Example.handed_over).1).2 = Success ∧
  never_answers (getTotalEmissions SelfSource.tracked 1000 2) ∧
  never_answers (emissionsFactor SelfSource.tracked 1000 2) ∧
  never_answers (getTrackerDetails SelfSource.tracked 1000 2).
Proof.
  split; [by vm_compute|].
  apply (self_sourced_tracker_never_answers SelfSource.tracked 1000 2).
  - apply reachable_transact_all, reachable_handed_over.
  - vm_compute. constructor.
  - by vm_compute.
Defined.

(** ** What [transferProduct] moves *)

(** X14: a successful [transferProduct] moves units and neither creates
    nor destroys them: the product's pool, the caller's balance and the
    destination's balance of the product add up to what they were, no other
    product record and no other balance changes, and of the product's
    record only the pool does. *)
Theorem transferProduct_moves env productId productAmount trackee s s' :
  transferProduct env productId productAmount trackee s = Ok s' →
  let caller := msg_sender env in
  let pool st := ProductDetails.available (_productData st).[productId] in
  let held st a := (productBalance st).[(productId, a)] in
  (if decide (trackee = caller) then pool s' + held s' caller = pool s + held s caller
   else pool s' + held s' caller + held s' trackee
        = pool s + held s caller + held s trackee) ∧
  (∀ q, q ≠ productId → (_productData s').[q] = (_productData s).[q]) ∧
  (_productData s').[productId]
  = ProductDetails.with_available (pool s') (_productData s).[productId] ∧
  (∀ q a, (q, a) ≠ (productId, caller) → (q, a) ≠ (productId, trackee) →
          (productBalance s').[(q, a)] = (productBalance s).[(q, a)]).
Proof.
  intros H caller pool held.
  destruct (transferProduct_Ok _ _ _ _ _ _ H)
    as (owner & _ & Hlt & _ & Hpool & Hfrom & Hto & Hframe).
  cbv zeta in Hlt, Hpool, Hfrom, Hto. fold caller in Hlt, Hpool, Hfrom, Hto.
  split; [|done]. unfold pool, held.
  destruct (decide (trackee = caller)) as [->|Hne].
  - rewrite Hpool, Hfrom. destruct (caller =? owner); lia.
  - rewrite Hpool, Hfrom, Hto by done. destruct (caller =? owner); lia.
Qed.

Lemma transferProduct_moves_witness :
  let s := Example.audited in
  let s' := (transact (Example.env Example.owner) (TransferProduct 1 40 Example.customer) s).1 in
  let pool st := ProductDetails.available (_productData st).[1] in
  let held st a := (productBalance st).[(1, a)] in
  pool s' + held s' Example.owner + held s' Example.customer
  = pool s + held s Example.owner + held s Example.customer.
Proof.
  destruct (transferProduct_moves (Example.env Example.owner) 1 40 Example.customer
              Example.audited
              (transact (Example.env Example.owner) (TransferProduct 1 40 Example.customer)
                 Example.audited).1) as [H _]; [by vm_compute|].
  exact H.
Defined.

(** ** Tracked amounts only grow *)

(** X15: no transaction lowers an amount recorded in a lineage, and the
    amount recorded for a product under a source tracker of a tracker
    changes only when [trackProduct] is called for exactly that tracker,
    source tracker and product: what was tracked is never taken back. *)
Theorem trackedAmount_only_grows env c s trackerId sourceTrackerId productId :
  let s' := (transact env c s).1 in
  trackedAmount s trackerId sourceTrackerId productId
  ≤ trackedAmount s' trackerId sourceTrackerId productId ∧
  ((∀ productAmount, c ≠ TrackProduct trackerId sourceTrackerId productId productAmount) →
   trackedAmount s' trackerId sourceTrackerId productId
   = trackedAmount s trackerId sourceTrackerId productId).
Proof.
  cbv zeta. unfold transact. destruct (run env c s) as [s'|e] eqn:H; [|done]. cbn [fst].
  assert (match c with TrackProduct _ _ _ _ => False | _ => True end →
          trackedAmount s' trackerId sourceTrackerId productId
          = trackedAmount s trackerId sourceTrackerId productId) as Hsame.
  { intros Hc. pose proof (run_lineage env c s s' trackerId Hc H) as Hl.
    unfold trackedAmount. unfold lineage_of in Hl. by injection Hl as _ _ ->. }
  destruct c; try (rewrite Hsame by done; split; [lia|done]). clear Hsame.
  simpl in H. unfold trackProduct in H. inv_ok H.
  destruct (decide ((trackerId, sourceTrackerId, productId)
                    = (trackerId0, sourceTrackerId0, productId0))) as [[= -> -> ->]|Hne].
  - apply _updateTrackedProducts_amount in H. unfold trackedAmount in *. cbn in H.
    rewrite H. split; [lia|]. intros Hc. by destruct (Hc productAmount).
  - apply _updateTrackedProducts_other with (t := trackerId) (src := sourceTrackerId)
      (p := productId) in H; [|done].
    unfold trackedAmount in *. cbn in H. rewrite H. split; [lia|done].
Qed.

Lemma trackedAmount_only_grows_witness :
  let s := Example.handed_over in
  let s' := (transact (Example.env Example.customer) (TrackProduct 2 1 1 20) s).1 in
  trackedAmount s' 2 1 1 = trackedAmount s 2 1 1 + 20 ∧
  trackedAmount s' 2 1 2 = trackedAmount s 2 1 2.
Proof.
  destruct (trackedAmount_only_grows (Example.env Example.customer) (TrackProduct 2 1 1 20)
              Example.handed_over 2 1 2) as [_ H].
  split; [by vm_compute|]. by apply H.
Defined.

(** ** Registered trackers and their verifiers *)



(** ** What [getProductBalance] reports *)

(** X17: [transferProduct] never moves as much as [getProductBalance]
    reports for the caller: a successful call implies that the view returns
    a balance strictly above the amount, and after it the view reports the
    caller's balance lowered by the amount (unchanged when the caller
    transfers to itself), so it stays positive. *)
Theorem transferProduct_within_getProductBalance env productId productAmount trackee s s' :
  transferProduct env productId productAmount trackee s = Ok s' →
  let caller := msg_sender env in
  ∃ balance,
    getProductBalance s productId caller = Ok balance ∧
    productAmount < balance ∧
    getProductBalance s' productId caller
    = Ok (if decide (trackee = caller) then balance else balance - productAmount).
Proof.
  intros H caller.
  pose proof (run_writes_only env (TransferProduct productId productAmount trackee) s s' H) as Hw.
  simpl in Hw.
  destruct (transferProduct_Ok _ _ _ _ _ _ H)
    as (owner & Ho & Hlt & Hfit & Hpool & Hfrom & _ & _ & Hpd & _).
  cbv zeta in Hlt, Hfit, Hpool, Hfrom. fold caller in Hlt, Hfit, Hpool, Hfrom.
  assert (ownerOf s' (ProductDetails.trackerId (_productData s').[productId]) = Ok owner) as Ho'.
  { rewrite Hpd. cbn. apply ownerOf_Ok in Ho as [-> Hne]. apply ownerOf_Ok.
    split; [|done]. f_equal. same_field. }
  unfold getProductBalance. rewrite Ho, Ho'. simpl.
  destruct (caller =? owner).
  - eexists. split; [by apply add_Ok|]. split; [lia|].
    apply add_Ok. rewrite Hpool, Hfrom. destruct (decide (trackee = caller)); split; lia.
  - rewrite N.add_0_r in Hlt. eexists. split; [done|]. split; [done|]. f_equal.
    rewrite Hfrom. destruct (decide (trackee = caller)); lia.
Qed.

Lemma transferProduct_within_getProductBalance_witness :
  ∃ balance,
    getProductBalance Example.audited 1 Example.owner = Ok balance ∧
    40 < balance ∧
    getProductBalance
      (transact (Example.env Example.owner) (TransferProduct 1 40 Example.customer)
         Example.audited).1 1 Example.owner
    = Ok (balance - 40).
Proof.
  apply (transferProduct_within_getProductBalance (Example.env Example.owner) 1 40
           Example.customer Example.audited
           (transact (Example.env Example.owner) (TransferProduct 1 40 Example.customer)
              Example.audited).1).
  by vm_compute.
Defined.

(** ** Who can change a tracker *)

(** X18: on a reachable storage a caller that is neither an auditor of the
    emissions ledger nor the ledger contract cannot change the record of a
    created tracker (an id from 1 to the counter) by any call, and can
    change its mappings only as the owner of its token, through
    [trackProduct] while the tracker is unaudited. *)
Theorem only_auditors_change_trackers env c s k :
  reachable s →
  0 < k ≤ _numOfUniqueTrackers s →
  net_isAuditor env (msg_sender env) = false →
  msg_sender env ≠ netAddress s →
  let s' := (transact env c s).1 in
  (_trackerData s').[k] = (_trackerData s).[k] ∧
  ((_trackerMappings s').[k] = (_trackerMappings s).[k] ∨
   (∃ sourceTrackerId productId productAmount,
      c = TrackProduct k sourceTrackerId productId productAmount) ∧
   ownerOf s k = Ok (msg_sender env) ∧
   CarbonTrackerDetails.auditor (_trackerData s).[k] = 0).
Proof.
  intros Hs [Hpos Hk] Hnet Hself. cbv zeta. unfold transact.
  destruct (run env c s) as [s'|e] eqn:H; [|by split; [|left]]. cbn [fst].
  pose proof (reachable_ok s Hs) as Hok.
  assert (∀ t, __isAuditor env s t = false) as Hno.
  { intros t. unfold __isAuditor. by rewrite Hnet, (proj2 (N.eqb_neq _ _) Hself). }
  assert (tracker_of c s ≠ Some k →
          (_trackerData s').[k] = (_trackerData s).[k] ∧
          ((_trackerMappings s').[k] = (_trackerMappings s).[k] ∨
           (∃ sourceTrackerId productId productAmount,
              c = TrackProduct k sourceTrackerId productId productAmount) ∧
           ownerOf s k = Ok (msg_sender env) ∧
           CarbonTrackerDetails.auditor (_trackerData s).[k] = 0)) as Hother.
  { intros Hne. destruct (run_other_tracker env c s s' k Hok H Hne) as [Hd Hm].
    split; [done|by left]. }
  destruct c; try (by apply Hother); simpl in H.
  - apply Hother. simpl. intros [= Heq].
    destruct Hok as (_ & Hmax & _). unfold Counters.increment in Heq.
    destruct (decide (_numOfUniqueTrackers s + 1 < UINT256_MAX + 1)) as [Hlt|Hge].
    + rewrite N.mod_small in Heq by done. lia.
    + assert (_numOfUniqueTrackers s + 1 = UINT256_MAX + 1) as Hw by lia.
      rewrite Hw, N.Div0.mod_same in Heq. lia.
  - unfold trackUpdate in H. inv_ok H. unfold _trackTokens in H. inv_ok H.
    match goal with Ha : _isAuditor env ?st ?t = Ok _ |- _ =>
      unfold _isAuditor in Ha; apply require_Ok in Ha;
      rewrite (__isAuditor_frame env s st t) in Ha by (by rewrite set_dates_and_text_frame)
    end.
    by rewrite Hno in *.
  - unfold productsUpdate in H. inv_ok H.
    match goal with Ha : isAuditor env _ s = Ok _ |- _ =>
      unfold isAuditor, _isAuditor in Ha; apply require_Ok in Ha end.
    by rewrite Hno in *.
  - destruct (decide (trackerId = k)) as [->|Hne]; [|apply Hother; simpl; congruence].
    pose proof (run_writes_only env (TrackProduct k sourceTrackerId productId productAmount)
                  s s' H) as Hw. simpl in Hw.
    split; [f_equal; same_field|]. right. split; [by eauto|].
    unfold trackProduct in H. inv_ok H.
    match goal with Ha : notAudited k s = Ok _ |- _ => apply require_Ok, N.eqb_eq in Ha end.
    split; [|done].
    match goal with Ha : _isAuditorOrOwner env s k _ = Ok _ |- _ =>
      unfold _isAuditorOrOwner in Ha; rewrite Hno in Ha; inv_ok Ha;
      apply require_Ok, N.eqb_eq in Ha; subst end.
    done.
  - unfold audit in H. inv_ok H.
    match goal with Ha : isAuditor env _ s = Ok _ |- _ =>
      unfold isAuditor, _isAuditor in Ha; apply require_Ok in Ha end.
    by rewrite Hno in *.
  - unfold removeAudit in H. inv_ok H.
    match goal with Ha : isAuditor env _ s = Ok _ |- _ =>
      unfold isAuditor, _isAuditor in Ha; apply require_Ok in Ha end.
    by rewrite Hno in *.
Qed.

Lemma only_auditors_change_trackers_witness :
  let s := Example.handed_over in
  let s' := (transact (Example.env Example.customer) (TrackProduct 2 1 1 20) s).1 in
  (_trackerData s').[2] = (_trackerData s).[2] ∧
  ((_trackerMappings s').[2] = (_trackerMappings s).[2] ∨
   (∃ sourceTrackerId productId productAmount,
      TrackProduct 2 1 1 20 = TrackProduct 2 sourceTrackerId productId productAmount) ∧
   ownerOf s 2 = Ok (msg_sender (Example.env Example.customer)) ∧
   CarbonTrackerDetails.auditor (_trackerData s).[2] = 0).
Proof.
  apply (only_auditors_change_trackers (Example.env Example.customer) (TrackProduct 2 1 1 20)
           Example.handed_over 2);
    [apply reachable_handed_over | by vm_compute | by vm_compute | by vm_compute].
Defined.

(** ** The token amounts of a tracker after [track] and [trackUpdate] *)

(** X19: on a reachable storage a successful [track] or [trackUpdate]
    changes the sum of the token amounts that [getTrackerTokenDetails]
    reports for its tracker by what the call submits: the amounts submitted
    for emissions tokens (type 4) are added and those submitted for offset
    tokens (type 2) are subtracted; tokens of any other type are locked but
    leave the sum as it was. *)
Theorem tracked_tokens_change_the_total env c s s' trackerId tokenIds tokenAmounts :
  reachable s →
  tokens_of c = Some (tokenIds, tokenAmounts) →
  tracker_of c s = Some trackerId →
  run env c s = Ok s' →
  total_of (getTrackerTokenDetails s' trackerId).2
    + submitted_of_type env 2 tokenIds tokenAmounts
  = total_of (getTrackerTokenDetails s trackerId).2
    + submitted_of_type env 4 tokenIds tokenAmounts.
Proof.
  intros Hs Hc Ht H. pose proof (reachable_tokens_ok s trackerId Hs) as Hok.
  change (tokenTotal (_trackerMappings s').[trackerId]
            + submitted_of_type env 2 tokenIds tokenAmounts
          = tokenTotal (_trackerMappings s).[trackerId]
            + submitted_of_type env 4 tokenIds tokenAmounts).
  destruct c; try done; injection Hc as -> ->; injection Ht as Ht; simpl in H.
  - unfold track in H.
    destruct (_track_spec env trackee s) as (Hptr & _ & Hid & _).
    pose proof (_track_frame env trackee s) as Hfr1.
    destruct (_track env trackee s) as [s1 ptr]. simpl in Hptr, Hid, Hfr1.
    rewrite Ht in Hptr, Hid. subst ptr.
    inv_ok H. unfold _mint in Hx. inv_ok Hx. injection Hx as Hx. symmetry in Hx.
    match type of H with context [set_dates_and_text ?a ?f ?t ?d ?m ?st] =>
      pose proof (keeps_shape_set_dates_and_text a f t d m st) as (_ & _ & Hf & _);
      pose proof (set_dates_and_text_frame a f t d m st) as Hfr; cbv zeta in Hfr;
      remember (set_dates_and_text a f t d m st) as s3 eqn:Hs3; clear Hs3
    end.
    assert (_trackerMappings s3 = _trackerMappings s) as Hm by same_field.
    assert (CarbonTrackerDetails.trackerId (_trackerData s3).[trackerId] = trackerId) as Hkey.
    { rewrite Hf, Hx. cbn. by rewrite Hid. }
    destruct (N.ltb_spec 0 (len tokenIds)) as [Hlen|Hlen].
    + unfold _trackTokens in H. inv_ok H. rewrite Hkey in H.
      apply _trackTokens_loop_total in H; rewrite Hm in *; done.
    + injection H as <-. rewrite Hm.
      assert (tokenIds = []) as -> by (apply len_nil_iff; lia). done.
  - subst trackerId0. unfold trackUpdate in H. inv_ok H.
    apply require_Ok, N.leb_le in Hx0.
    match type of H with context [set_dates_and_text ?a ?f ?t ?d ?m ?st] =>
      pose proof (keeps_shape_set_dates_and_text a f t d m st) as (_ & _ & Hf & _);
      pose proof (set_dates_and_text_frame a f t d m st) as Hfr; cbv zeta in Hfr;
      remember (set_dates_and_text a f t d m st) as s3 eqn:Hs3; clear Hs3
    end.
    assert (_trackerMappings s3 = _trackerMappings s) as Hm by (rewrite Hfr; done).
    assert (CarbonTrackerDetails.trackerId (_trackerData s3).[trackerId] = trackerId) as Hkey.
    { rewrite Hf, update_trackerData_get, decide_True by done. cbn.
      apply reachable_ok in Hs as (_ & _ & Hid & _). by apply Hid. }
    unfold _trackTokens in H. inv_ok H. rewrite Hkey in H.
    apply _trackTokens_loop_total in H; rewrite Hm in *; done.
Qed.

Lemma tracked_tokens_change_the_total_witness :
  let s := Example.with_tracker in
  let env := Example.env Example.auditor in
  let s' := (transact env (TrackUpdate 1 [1; 3] [5; 7] 0 0 Example.blank Example.blank) s).1 in
  total_of (getTrackerTokenDetails s' 1).2 + 0 = total_of (getTrackerTokenDetails s 1).2 + 5.
Proof.
  apply (tracked_tokens_change_the_total (Example.env Example.auditor)
           (TrackUpdate 1 [1; 3] [5; 7] 0 0 Example.blank Example.blank) Example.with_tracker
           (transact (Example.env Example.auditor)
              (TrackUpdate 1 [1; 3] [5; 7] 0 0 Example.blank Example.blank)
              Example.with_tracker).1 1 [1; 3] [5; 7]);
    [apply reachable_with_tracker | done | done | by vm_compute].
Defined.

(** ** Spending needs the holder *)

(** X20: a transaction spends only what its caller holds. The balance of
    a product held by any address other than the caller never goes down;
    and the available pool of a product goes down only through
    [transferProduct] called by the owner of the product's tracker while
    that tracker is audited, or through a [productsUpdate] that writes the
    product's amount anew. *)
Theorem only_the_holder_spends env c s productId :
  let s' := (transact env c s).1 in
  (∀ holder, holder ≠ msg_sender env →
     (productBalance s).[(productId, holder)] ≤ (productBalance s').[(productId, holder)]) ∧
  (ProductDetails.available (_productData s').[productId]
   < ProductDetails.available (_productData s).[productId] →
   ((∃ productAmount trackee, c = TransferProduct productId productAmount trackee) ∧
    ownerOf s (ProductDetails.trackerId (_productData s).[productId]) = Ok (msg_sender env) ∧
    CarbonTrackerDetails.auditor
      (_trackerData s).[ProductDetails.trackerId (_productData s).[productId]] ≠ 0) ∨
   (∃ trackerId productIds productAmounts productNames productUnits productUnitAmounts,
      c = ProductsUpdate trackerId productIds productAmounts
            productNames productUnits productUnitAmounts)).
Proof.
  cbv zeta. unfold transact. destruct (run env c s) as [s'|e] eqn:H; cbn [fst].
  2:{ split; [intros; lia|intros; lia]. }
  pose proof (run_writes_only _ _ _ _ H) as Hw.
  destruct c; simpl in H, Hw;
    try (split;
         [intros holder _; replace (productBalance s') with (productBalance s) by same_field; lia
         |replace (_productData s') with (_productData s) by same_field; lia]).
  - split; [|intros _; right; by eauto 10].
    intros holder _. replace (productBalance s') with (productBalance s) by same_field. lia.
  - clear Hw. destruct (transferProduct_Ok _ _ _ _ _ _ H)
      as (owner & Ho & _ & _ & Hpool & _ & Hto & Hq & _ & Hbal).
    cbv zeta in Hpool, Hto. split.
    + intros holder Hne.
      destruct (decide (productId0 = productId)) as [->|Hp];
        [|rewrite Hbal by congruence; lia].
      destruct (decide (holder = trackee)) as [->|Ht];
        [rewrite Hto by done; lia|rewrite Hbal by congruence; lia].
    + intros Hless. left.
      destruct (decide (productId0 = productId)) as [->|Hp];
        [|rewrite Hq in Hless by done; lia].
      split; [by eauto|].
      destruct (N.eqb_spec (msg_sender env) owner) as [<-|Hne]; [|rewrite N.min_0_r in Hpool; lia].
      split; [done|].
      unfold transferProduct in H. inv_ok H.
      match goal with Ha : ownerOf _ _ = Ok ?o |- _ =>
        assert (o = msg_sender env) as -> by congruence end.
      rewrite N.eqb_refl in *. inv_oks.
      match goal with Ha : _isAudited _ _ = Ok _ |- _ =>
        apply require_Ok, negb_true_iff, N.eqb_neq in Ha end.
      done.
  - split; [|replace (_productData s') with (_productData s) by same_field; lia].
    intros holder Hne. unfold trackProduct in H. inv_ok H.
    apply _updateTrackedProducts_frame in H. rewrite H. cbn.
    rewrite mget_insert_ne by congruence. lia.
Qed.

Lemma only_the_holder_spends_witness :
  let s := Example.audited in
  let s' := (transact (Example.env Example.owner) (TransferProduct 1 40 Example.customer) s).1 in
  (productBalance s).[(1, Example.customer)] ≤ (productBalance s').[(1, Example.customer)].
Proof.
  destruct (only_the_holder_spends (Example.env Example.owner)
              (TransferProduct 1 40 Example.customer) Example.audited 1) as [H _].
  by apply H.
Defined.

(** ** The dates and texts of a tracker *)

(** X21: a successful [trackUpdate] stamps the tracker with the block
    time and overwrites [fromDate], [thruDate], [description] and [metadata]
    only with non-zero dates and non-empty texts: a zero date or an empty
    text leaves the stored value, so a stored value cannot be cleared. The
    tracker's id, trackee, auditor, creator, creation date and product total
    stay as they were. *)
Theorem trackUpdate_dates_and_texts env trackerId tokenIds tokenAmounts fromDate thruDate
    description metadata s s' :
  trackUpdate env trackerId tokenIds tokenAmounts fromDate thruDate description metadata s
  = Ok s' →
  let d := (_trackerData s).[trackerId] in
  (_trackerData s').[trackerId]
  = CarbonTrackerDetails.mk
      (CarbonTrackerDetails.trackerId d) (CarbonTrackerDetails.trackee d)
      (CarbonTrackerDetails.auditor d) (CarbonTrackerDetails.totalProductAmounts d)
      (if 0 <? fromDate then fromDate else CarbonTrackerDetails.fromDate d)
      (if 0 <? thruDate then thruDate else CarbonTrackerDetails.thruDate d)
      (CarbonTrackerDetails.createdBy d) (CarbonTrackerDetails.dateCreated d)
      (block_timestamp env)
      (if (0 <? String.length metadata)%nat then metadata else CarbonTrackerDetails.metadata d)
      (if (0 <? String.length description)%nat then description
       else CarbonTrackerDetails.description d).
Proof.
  intros H d. unfold trackUpdate in H. inv_ok H. apply _trackTokens_frame in H as [H _].
  apply (f_equal _trackerData) in H. cbn in H. rewrite H. clear H.
  unfold set_dates_and_text. cbv zeta.
  destruct (0 <? fromDate), (0 <? thruDate), (0 <? String.length description)%nat,
    (0 <? String.length metadata)%nat;
    rewrite ?update_trackerData_twice, update_trackerData_get, decide_True by done;
    unfold d; cbn; by destruct ((_trackerData s).[trackerId]).
Qed.

Lemma trackUpdate_dates_and_texts_witness :
  let s := Example.with_tracker in
  let s' := (transact (Example.env Example.auditor)
               (TrackUpdate 1 [] [] 7 0 Example.blank Example.blank) s).1 in
  CarbonTrackerDetails.fromDate (_trackerData s').[1] = 7 ∧
  CarbonTrackerDetails.thruDate (_trackerData s').[1]
  = CarbonTrackerDetails.thruDate (_trackerData s).[1].
Proof.
  pose proof (trackUpdate_dates_and_texts (Example.env Example.auditor) 1 [] [] 7 0
                Example.blank Example.blank Example.with_tracker
                (transact (Example.env Example.auditor)
                   (TrackUpdate 1 [] [] 7 0 Example.blank Example.blank)
                   Example.with_tracker).1 ltac:(by vm_compute)) as H.
  cbv zeta in H |- *. rewrite H. done.
Defined.
